(** * JobThai scraper: queue, persistence, worker loop and listing walk

    A shallow embedding of the crawl-and-harvest engine of the repository:
    - [Queue]  : [JobQueue] of queue.js (four partitions, dedup, retry);
    - [Store]  : [FileHandler] of utils/file-handler.js (catalog on disk);
    - [Pool]   : the [Worker.start] loop of worker.js;
    - [Crawl]  : [JobThaiScraper.scrapeJobListings] of scraper.js.

    JavaScript objects held in the arrays are modelled as records, arrays as
    lists (push = append at the back, shift = remove the head, unshift =
    cons), [Date.now()] as a clock reading passed to the operation, the
    event emitter as a log of emitted events. *)

From Stdlib Require Import String Ascii ZArith Lia.
From stdpp Require Import gmap strings list.

Open Scope string_scope.
Open Scope list_scope.

(* ===================================================================== *)
(** ** JobQueue (queue.js) *)
(* ===================================================================== *)

Module Queue.

(** A job as handed to [add]: [{ id, url, ...preview }]. *)
Record JobDesc := mkDesc {
  d_id : string;
  d_url : string;
  d_preview : list (string * string)
}.

(** A job object living in one of the four arrays. The optional fields are
    the properties that are absent until an operation sets them. *)
Record Job := mkJob {
  job_id : string;
  url : string;
  preview : list (string * string);
  addedAt : Z;
  attempts : nat;
  startedAt : option Z;
  completedAt : option Z;
  result : option string;
  error : option string;
  failedAt : option Z
}.

Inductive Event :=
| job_added (d : JobDesc)
| job_started (j : Job)
| job_completed (j : Job)
| job_retry (j : Job)
| job_failed (j : Job)
| queue_done (ncompleted nfailed : nat)
| queue_paused
| queue_resumed
| queue_cleared.

Record JobQueue := mkQueue {
  pending : list Job;
  processing : list Job;
  completed : list Job;
  failed : list Job;
  paused : bool;
  emitted : list Event
}.

(** [constructor()] *)
Definition empty : JobQueue := mkQueue [] [] [] [] false [].

Definition emit (e : Event) (q : JobQueue) : JobQueue :=
  mkQueue (pending q) (processing q) (completed q) (failed q) (paused q)
          (emitted q ++ [e]).

(** [{ ...job, addedAt: Date.now(), attempts: 0 }] *)
Definition fresh_job (now : Z) (d : JobDesc) : Job :=
  mkJob (d_id d) (d_url d) (d_preview d) now 0 None None None None None.

(** [arr.some(j => j.id === jobId)] *)
Definition some_id (jobId : string) (l : list Job) : bool :=
  existsb (fun j => String.eqb (job_id j) jobId) l.

(** [exists(jobId)] *)
Definition exists_ (jobId : string) (q : JobQueue) : bool :=
  some_id jobId (pending q) || some_id jobId (processing q)
  || some_id jobId (completed q) || some_id jobId (failed q).

(** [add(job)] *)
Definition add (now : Z) (job : JobDesc) (q : JobQueue) : bool * JobQueue :=
  if exists_ (d_id job) q then (false, q)
  else
    let q1 := mkQueue (pending q ++ [fresh_job now job]) (processing q)
                      (completed q) (failed q) (paused q) (emitted q) in
    (true, emit (job_added job) q1).

(** [addBulk(jobs)]: the [for ... of] loop with its counter. *)
Fixpoint addBulk_loop (now : Z) (jobs : list JobDesc) (added : nat)
    (q : JobQueue) : nat * JobQueue :=
  match jobs with
  | [] => (added, q)
  | job :: rest =>
      let '(ok, q1) := add now job q in
      addBulk_loop now rest (if ok then S added else added) q1
  end.

Definition addBulk (now : Z) (jobs : list JobDesc) (q : JobQueue)
    : nat * JobQueue :=
  addBulk_loop now jobs 0 q.

(** [job.startedAt = Date.now(); job.attempts++] *)
Definition start_job (now : Z) (j : Job) : Job :=
  mkJob (job_id j) (url j) (preview j) (addedAt j) (S (attempts j))
        (Some now) (completedAt j) (result j) (error j) (failedAt j).

(** [getNext()] *)
Definition getNext (now : Z) (q : JobQueue) : option Job * JobQueue :=
  if paused q || (length (pending q) =? 0)%nat then (None, q)
  else
    match pending q with
    | [] => (None, q)
    | job :: rest =>
        let job1 := start_job now job in
        let q1 := mkQueue rest (processing q ++ [job1]) (completed q)
                          (failed q) (paused q) (emitted q) in
        (Some job1, emit (job_started job1) q1)
    end.

(** [arr.findIndex(j => j.id === jobId)]; [None] stands for [-1]. *)
Fixpoint findIndex (jobId : string) (l : list Job) : option nat :=
  match l with
  | [] => None
  | j :: rest =>
      if String.eqb (job_id j) jobId then Some 0%nat
      else match findIndex jobId rest with
           | Some i => Some (S i)
           | None => None
           end
  end.

(** [checkDone()] *)
Definition checkDone (q : JobQueue) : JobQueue :=
  if (length (pending q) =? 0)%nat && (length (processing q) =? 0)%nat
  then emit (queue_done (length (completed q)) (length (failed q))) q
  else q.

(** [job.completedAt = Date.now(); job.result = result] *)
Definition finish_job (now : Z) (res : option string) (j : Job) : Job :=
  mkJob (job_id j) (url j) (preview j) (addedAt j) (attempts j)
        (startedAt j) (Some now) res (error j) (failedAt j).

(** [complete(jobId, result = null)]. [splice(index, 1)[0]] is the lookup
    at [index] together with the deletion at [index]; [findIndex] only
    returns positions inside the array, so the lookup cannot miss. *)
Definition complete (now : Z) (jobId : string) (res : option string)
    (q : JobQueue) : bool * JobQueue :=
  match findIndex jobId (processing q) with
  | None => (false, q)
  | Some index =>
      match processing q !! index with
      | None => (false, q)
      | Some job =>
          let job1 := finish_job now res job in
          let q1 := mkQueue (pending q) (delete index (processing q))
                            (completed q ++ [job1]) (failed q) (paused q)
                            (emitted q) in
          (true, checkDone (emit (job_completed job1) q1))
      end
  end.

(** [job.error = error.message; job.failedAt = Date.now()] *)
Definition mark_failed (now : Z) (message : string) (j : Job) : Job :=
  mkJob (job_id j) (url j) (preview j) (addedAt j) (attempts j)
        (startedAt j) (completedAt j) (result j) (Some message) (Some now).

(** [fail(jobId, error, retry = false)] *)
Definition fail (now : Z) (jobId : string) (message : string) (retry : bool)
    (q : JobQueue) : bool * JobQueue :=
  match findIndex jobId (processing q) with
  | None => (false, q)
  | Some index =>
      match processing q !! index with
      | None => (false, q)
      | Some job =>
          let job1 := mark_failed now message job in
          let rest := delete index (processing q) in
          let q1 :=
            if retry && (attempts job1 <? 3)%nat
            then emit (job_retry job1)
                      (mkQueue (job1 :: pending q) rest (completed q)
                               (failed q) (paused q) (emitted q))
            else emit (job_failed job1)
                      (mkQueue (pending q) rest (completed q)
                               (failed q ++ [job1]) (paused q) (emitted q))
          in
          (true, checkDone q1)
      end
  end.

(** [pause()] / [resume()] *)
Definition pause (q : JobQueue) : JobQueue :=
  emit queue_paused
       (mkQueue (pending q) (processing q) (completed q) (failed q) true
                (emitted q)).

Definition resume (q : JobQueue) : JobQueue :=
  emit queue_resumed
       (mkQueue (pending q) (processing q) (completed q) (failed q) false
                (emitted q)).

(** [getStats()] *)
Record Stats := mkStats {
  st_pending : nat;
  st_processing : nat;
  st_completed : nat;
  st_failed : nat;
  st_total : nat;
  st_paused : bool
}.

Definition getStats (q : JobQueue) : Stats :=
  mkStats (length (pending q)) (length (processing q))
          (length (completed q)) (length (failed q))
          (length (pending q) + length (processing q)
           + length (completed q) + length (failed q))
          (paused q).

(** [isEmpty()], [isDone()], [hasAvailable()] *)
Definition isEmpty (q : JobQueue) : bool := (length (pending q) =? 0)%nat.

Definition isDone (q : JobQueue) : bool :=
  (length (pending q) =? 0)%nat && (length (processing q) =? 0)%nat.

Definition hasAvailable (q : JobQueue) : bool :=
  negb (paused q) && (0 <? length (pending q))%nat.

(** [clear()] *)
Definition clear (q : JobQueue) : JobQueue :=
  emit queue_cleared (mkQueue [] [] [] [] (paused q) (emitted q)).

(** [job.attempts = 0; delete job.error; delete job.failedAt] *)
Definition reset_job (j : Job) : Job :=
  mkJob (job_id j) (url j) (preview j) (addedAt j) 0 (startedAt j)
        (completedAt j) (result j) None None.

(** [retryFailed()]: [this.failed.splice(0)] takes every failed job out,
    the loop pushes them one by one onto [pending]. *)
Definition retryFailed (q : JobQueue) : nat * JobQueue :=
  let failedJobs := failed q in
  let q0 := mkQueue (pending q) (processing q) (completed q) [] (paused q)
                    (emitted q) in
  (length failedJobs,
   fold_left
     (fun acc job =>
        mkQueue (pending acc ++ [reset_job job]) (processing acc)
                (completed acc) (failed acc) (paused acc) (emitted acc))
     failedJobs q0).

(** Ids held by a partition, and by the whole queue. *)
Definition ids (l : list Job) : list string := job_id <$> l.

Definition all_ids (q : JobQueue) : list string :=
  ids (pending q) ++ ids (processing q) ++ ids (completed q) ++ ids (failed q).

(** No id of [l1] is an id of [l2]. *)
Definition disjoint_ids (l1 l2 : list Job) : Prop :=
  forall x, x ∈ ids l1 -> x ∉ ids l2.

Definition pairwise_disjoint (q : JobQueue) : Prop :=
  disjoint_ids (pending q) (processing q)
  /\ disjoint_ids (pending q) (completed q)
  /\ disjoint_ids (pending q) (failed q)
  /\ disjoint_ids (processing q) (completed q)
  /\ disjoint_ids (processing q) (failed q)
  /\ disjoint_ids (completed q) (failed q).

(** Number of partitions that hold the id. *)
Definition partitions_holding (jobId : string) (q : JobQueue) : nat :=
  length (filter (fun l => jobId ∈ ids l)
                 [pending q; processing q; completed q; failed q]).

(** Calls made on the queue during a run, and the state they lead to. The
    methods are synchronous, so however many workers share the queue it goes
    through one sequence of calls. *)
Inductive Op :=
| op_add (now : Z) (job : JobDesc)
| op_addBulk (now : Z) (jobs : list JobDesc)
| op_getNext (now : Z)
| op_complete (now : Z) (jobId : string) (res : option string)
| op_fail (now : Z) (jobId message : string) (retry : bool)
| op_pause
| op_resume
| op_retryFailed.

Definition apply_op (op : Op) (q : JobQueue) : JobQueue :=
  match op with
  | op_add now job => (add now job q).2
  | op_addBulk now jobs => (addBulk now jobs q).2
  | op_getNext now => (getNext now q).2
  | op_complete now jobId res => (complete now jobId res q).2
  | op_fail now jobId message retry => (fail now jobId message retry q).2
  | op_pause => pause q
  | op_resume => resume q
  | op_retryFailed => (retryFailed q).2
  end.

Definition run (ops : list Op) (q : JobQueue) : JobQueue :=
  fold_left (fun acc op => apply_op op acc) ops q.

(** Ids offered to the queue by a call. *)
Definition offered (op : Op) : list string :=
  match op with
  | op_add _ job => [d_id job]
  | op_addBulk _ jobs => d_id <$> jobs
  | _ => []
  end.

(** The calls the scraper and its workers make: [fail] always with
    [retry = true] (worker.js), and never [retryFailed]. *)
Definition worker_op (op : Op) : bool :=
  match op with
  | op_fail _ _ _ retry => retry
  | op_retryFailed => false
  | _ => true
  end.

(** The four arrays of a queue, without the flag and the event log. *)
Definition partitions (q : JobQueue)
    : list Job * list Job * list Job * list Job :=
  (pending q, processing q, completed q, failed q).

(** [getFailedJobs()]: a copy of the [failed] array. *)
Definition getFailedJobs (q : JobQueue) : list Job := failed q.

(** Number of times [getNext] handed out the job with the id, read off the
    [job:started] events. *)
Definition times_started (jobId : string) (q : JobQueue) : nat :=
  length (filter (fun e => match e with
                           | job_started j => String.eqb (job_id j) jobId
                           | _ => false
                           end = true) (emitted q)).

(** Attempt counts per partition. *)
Definition attempts_ok (q : JobQueue) : Prop :=
  Forall (fun j => attempts j < 3) (pending q)
  /\ Forall (fun j => 1 <= attempts j <= 3) (processing q)
  /\ Forall (fun j => 1 <= attempts j <= 3) (completed q)
  /\ Forall (fun j => attempts j = 3) (failed q).

End Queue.

(* ===================================================================== *)
(** ** PageQueue (queue.js) *)
(* ===================================================================== *)

Module Pages.

Record Page := mkPage {
  pageNum : nat;
  page_url : string
}.

Inductive PageEvent :=
| pages_total (total : nat)
| page_processing (page : Page)
| page_completed (pageNum jobsFound : nat).

Record PageQueue := mkPageQueue {
  pages : list Page;
  currentPage : nat;
  totalPages : nat;
  processedPages : gset nat;
  page_events : list PageEvent
}.

(** [constructor()] *)
Definition empty : PageQueue := mkPageQueue [] 0 0 ∅ [].

(** [setTotal(total)] *)
Definition setTotal (total : nat) (pq : PageQueue) : PageQueue :=
  mkPageQueue (pages pq) (currentPage pq) total (processedPages pq)
              (page_events pq ++ [pages_total total]).

(** [addPage(pageNum, url)] *)
Definition addPage (n : nat) (u : string) (pq : PageQueue) : PageQueue :=
  if decide (n ∈ processedPages pq) then pq
  else mkPageQueue (pages pq ++ [mkPage n u]) (currentPage pq) (totalPages pq)
                   (processedPages pq) (page_events pq).

(** [getNextPage()] *)
Definition getNextPage (pq : PageQueue) : option Page * PageQueue :=
  if (length (pages pq) =? 0)%nat then (None, pq)
  else
    match pages pq with
    | [] => (None, pq)
    | page :: rest =>
        (Some page,
         mkPageQueue rest (pageNum page) (totalPages pq)
                     ({[pageNum page]} ∪ processedPages pq)
                     (page_events pq ++ [page_processing page]))
    end.

(** [completePage(jobsFound)] *)
Definition completePage (jobsFound : nat) (pq : PageQueue) : PageQueue :=
  mkPageQueue (pages pq) (currentPage pq) (totalPages pq) (processedPages pq)
              (page_events pq ++ [page_completed (currentPage pq) jobsFound]).

(** [hasMorePages()] *)
Definition hasMorePages (pq : PageQueue) : bool :=
  (0 <? length (pages pq))%nat.

(** [getProgress()] *)
Record Progress := mkProgress {
  current : nat;
  total : nat;
  remaining : nat
}.

Definition getProgress (pq : PageQueue) : Progress :=
  mkProgress (size (processedPages pq)) (totalPages pq) (length (pages pq)).

(** Calls made on a page queue. *)
Inductive PageOp :=
| p_setTotal (total : nat)
| p_addPage (n : nat) (u : string)
| p_getNextPage
| p_completePage (jobsFound : nat).

Definition apply_page_op (op : PageOp) (pq : PageQueue) : PageQueue :=
  match op with
  | p_setTotal total => setTotal total pq
  | p_addPage n u => addPage n u pq
  | p_getNextPage => (getNextPage pq).2
  | p_completePage jobsFound => completePage jobsFound pq
  end.

Definition run_pages (ops : list PageOp) (pq : PageQueue) : PageQueue :=
  fold_left (fun acc op => apply_page_op op acc) ops pq.

(** How many queued pages carry the number. *)
Definition queued (n : nat) (pq : PageQueue) : nat :=
  length (filter (fun p => pageNum p = n) (pages pq)).

End Pages.

(* ===================================================================== *)
(** ** FileHandler (utils/file-handler.js) *)
(* ===================================================================== *)

Module Store.

(** [String.prototype] helpers used by [backup]. *)
Fixpoint starts_with (pat s : string) : bool :=
  match pat, s with
  | EmptyString, _ => true
  | String a p, String b t => Ascii.eqb a b && starts_with p t
  | String _ _, EmptyString => false
  end.

Fixpoint drop_chars (n : nat) (s : string) : string :=
  match n, s with
  | O, _ => s
  | S m, String _ t => drop_chars m t
  | S _, EmptyString => EmptyString
  end.

(** [s.includes(pat)] *)
Fixpoint includes (pat s : string) : bool :=
  starts_with pat s
  || match s with
     | EmptyString => false
     | String _ t => includes pat t
     end.

(** [s.replace(pat, rep)] with a string pattern: the first occurrence only;
    [rep] holds no [$] here. *)
Fixpoint replace_first (pat rep s : string) : string :=
  if starts_with pat s then rep +:+ drop_chars (String.length pat) s
  else match s with
       | EmptyString => EmptyString
       | String c t => String c (replace_first pat rep t)
       end.

(** Where the first occurrence of [pat] begins in [s] ([s.indexOf(pat)],
    with [None] for [-1]): the occurrence that [replace] rewrites. *)
Fixpoint index_of (pat s : string) : option nat :=
  if starts_with pat s then Some 0
  else match s with
       | EmptyString => None
       | String _ t => S <$> index_of pat t
       end.

(** [s.replace(/[:.]/g, '-')] *)
Fixpoint dash_colons_dots (s : string) : string :=
  match s with
  | EmptyString => EmptyString
  | String c t =>
      String (if Ascii.eqb c ":" || Ascii.eqb c "." then "-"%char else c)
             (dash_colons_dots t)
  end.

(** [s.split('Z')[0]] *)
Fixpoint before_Z (s : string) : string :=
  match s with
  | EmptyString => EmptyString
  | String c t => if Ascii.eqb c "Z" then EmptyString else String c (before_Z t)
  end.

(** A scraped job as stored: its id and the remaining fields. *)
Record JobRecord := mkRecord {
  r_id : string;
  r_title : string;
  r_fields : list (string * string)
}.

Inductive JValue :=
| JNum (n : nat)
| JStr (s : string).

(** The JSON document of a catalog or backup file: the [metadata] object
    as its key/value pairs in written order, and the [jobs] array ([None]
    when a parsed document has no [jobs] property). *)
Record Document := mkDoc {
  metadata : list (string * JValue);
  doc_jobs : option (list JobRecord)
}.

(** What [JSON.parse(fs.readFileSync(path))] makes of a file. *)
Inductive FileContent :=
| Unparsable
| Parsed (doc : Document).

(** [path.dirname(p)] on POSIX paths: trailing slashes and the last name
    are cut together with the slashes before them; a path without a
    directory part gives ["."], or ["/"] when it begins with a slash. The
    first character is never looked at as a separator of names. *)
Definition is_slash (c : ascii) : bool := Ascii.eqb c "/".

Fixpoint drop_while (f : ascii -> bool) (l : list ascii) : list ascii :=
  match l with
  | [] => []
  | c :: t => if f c then drop_while f t else l
  end.

Definition dirname (p : string) : string :=
  match p with
  | EmptyString => "."
  | String c0 rest =>
      let back := rev (list_ascii_of_string rest) in
      match drop_while (fun c => negb (is_slash c))
                       (drop_while is_slash back) with
      | [] => if is_slash c0 then "/" else "."
      | _ :: dir_back =>
          if is_slash c0 && (length dir_back =? 0)%nat then "//"
          else String c0 (string_of_list_ascii (rev dir_back))
      end
  end.

(** The file system: the files by path, the paths written so far (one entry
    per [fs.writeFileSync] that went through), and the paths at which a
    directory stands. Paths are taken as the program writes them. *)
Record World := mkWorld {
  files : gmap string FileContent;
  writes : list string;
  dirs : gset string
}.

(** A write that goes through. *)
Definition writeFileSync (path : string) (doc : Document) (w : World) : World :=
  mkWorld (<[path := Parsed doc]> (files w)) (writes w ++ [path]) (dirs w).

(** [fs.mkdirSync(dir, { recursive: true })]: [dir] and every directory
    above it. *)
Fixpoint dir_chain (fuel : nat) (dir : string) : list string :=
  match fuel with
  | O => [dir]
  | S n =>
      dir :: (if String.eqb (dirname dir) dir then []
              else dir_chain n (dirname dir))
  end.

Definition mkdirSync (dir : string) (w : World) : World :=
  mkWorld (files w) (writes w)
          (list_to_set (dir_chain (String.length dir) dir) ∪ dirs w).

(** How the promise of an [async] method settles: [rejected] carries the
    code of the error thrown. *)
Inductive Settled :=
| fulfilled
| rejected (code : string).

Record FileHandler := mkHandler {
  outputPath : string;
  jobs : list JobRecord;
  isInitialized : bool
}.

(** [constructor(outputPath)] *)
Definition new (path : string) : FileHandler := mkHandler path [] false.

(** [save()]; [now] is [new Date().toISOString()]. [save] runs after [init]
    has made the directory of [outputPath], so its write goes through. *)
Definition save_doc (now : string) (fh : FileHandler) : Document :=
  mkDoc [("totalJobs", JNum (length (jobs fh)));
         ("lastUpdated", JStr now);
         ("version", JStr "1.0.0")]
        (Some (jobs fh)).

Definition save (now : string) (fh : FileHandler) (w : World) : World :=
  writeFileSync (outputPath fh) (save_doc now fh) w.

(** [init()]: the directory of [outputPath] is made when it is missing (a
    file standing in its place is left out); an existing file is loaded
    ([parsed.jobs || []], and [[]] when parsing throws); then the catalog is
    saved. *)
Definition ensure_dir (dir : string) (w : World) : World :=
  if decide (dir ∈ dirs w) then w else mkdirSync dir w.

Definition init (now : string) (fh : FileHandler) (w0 : World)
    : FileHandler * World :=
  let dir := dirname (outputPath fh) in
  let w := ensure_dir dir w0 in
  let loaded :=
    match files w !! outputPath fh with
    | Some (Parsed doc) =>
        match doc_jobs doc with
        | Some js => js
        | None => []
        end
    | Some Unparsable => []
    | None => jobs fh
    end in
  let fh1 := mkHandler (outputPath fh) loaded true in
  (fh1, save now fh1 w).

(** [this.jobs.some(j => j.id === jobId)], also [hasJob(jobId)] *)
Definition hasJob (jobId : string) (fh : FileHandler) : bool :=
  existsb (fun j => String.eqb (r_id j) jobId) (jobs fh).

(** [addJob(job)] *)
Definition addJob (now : string) (job : JobRecord) (fh : FileHandler)
    (w : World) : bool * FileHandler * World :=
  let '(fh1, w1) :=
    if negb (isInitialized fh) then init now fh w else (fh, w) in
  if hasJob (r_id job) fh1 then (false, fh1, w1)
  else
    let fh2 := mkHandler (outputPath fh1) (jobs fh1 ++ [job])
                         (isInitialized fh1) in
    (true, fh2, save now fh2 w1).

(** [getExistingIds()]: [new Set(this.jobs.map(j => j.id))] *)
Definition getExistingIds (fh : FileHandler) : gset string :=
  list_to_set (r_id <$> jobs fh).

(** [addJobs(jobs)] *)
Fixpoint addJobs_loop (new_jobs : list JobRecord) (existingIds : gset string)
    (acc : list JobRecord) (addedCount : nat) : list JobRecord * nat :=
  match new_jobs with
  | [] => (acc, addedCount)
  | job :: rest =>
      if decide (r_id job ∈ existingIds)
      then addJobs_loop rest existingIds acc addedCount
      else addJobs_loop rest ({[r_id job]} ∪ existingIds) (acc ++ [job])
                        (S addedCount)
  end.

Definition addJobs (now : string) (new_jobs : list JobRecord)
    (fh : FileHandler) (w : World) : nat * FileHandler * World :=
  let '(fh1, w1) :=
    if negb (isInitialized fh) then init now fh w else (fh, w) in
  let '(js, addedCount) :=
    addJobs_loop new_jobs (getExistingIds fh1) (jobs fh1) 0 in
  let fh2 := mkHandler (outputPath fh1) js (isInitialized fh1) in
  if (0 <? addedCount)%nat then (addedCount, fh2, save now fh2 w1)
  else (addedCount, fh2, w1).

(** [getCount()] *)
Definition getCount (fh : FileHandler) : nat := length (jobs fh).

(** [backup()]: the clock is read twice, for the file name and for
    [backupDate]. No directory is made and nothing is caught: when the
    directory of the backup path is missing, [fs.writeFileSync] throws
    [ENOENT] and nothing is written. *)
Definition backup_timestamp (now : string) : string :=
  before_Z (replace_first "T" "_" (dash_colons_dots now)).

Definition backupPath (now : string) (fh : FileHandler) : string :=
  replace_first ".json" ("-backup-" +:+ backup_timestamp now +:+ ".json")
                (outputPath fh).

Definition backup_doc (now : string) (fh : FileHandler) : Document :=
  mkDoc [("totalJobs", JNum (length (jobs fh)));
         ("backupDate", JStr now)]
        (Some (jobs fh)).

Definition backup (now_name now_date : string) (fh : FileHandler) (w : World)
    : Settled * FileHandler * World :=
  if (length (jobs fh) =? 0)%nat then (fulfilled, fh, w)
  else
    let path := backupPath now_name fh in
    if decide (dirname path ∈ dirs w)
    then (fulfilled, fh, writeFileSync path (backup_doc now_date fh) w)
    else (rejected "ENOENT", fh, w).

(** Reading a metadata property of a document. *)
Fixpoint assoc (k : string) (kvs : list (string * JValue)) : option JValue :=
  match kvs with
  | [] => None
  | (k', v) :: rest => if String.eqb k' k then Some v else assoc k rest
  end.

Definition rec_ids (l : list JobRecord) : list string := r_id <$> l.

(** The catalog invariant of a written document: [totalJobs] is the number
    of records and no two records share an id. *)
Definition catalog_ok (doc : Document) : Prop :=
  exists js, doc_jobs doc = Some js
             /\ assoc "totalJobs" (metadata doc) = Some (JNum (length js))
             /\ NoDup (rec_ids js).

(** Calls made on a handler over the lifetime of a catalog file;
    [call_restart] is a new run: [new FileHandler(outputPath)] over the files
    left by the previous one. A [backup] that throws leaves the handler and
    the files as they were, whoever catches it. *)
Inductive Call :=
| call_init (now : string)
| call_addJob (now : string) (job : JobRecord)
| call_addJobs (now : string) (new_jobs : list JobRecord)
| call_backup (now_name now_date : string)
| call_restart.

Definition apply_call (c : Call) (st : FileHandler * World)
    : FileHandler * World :=
  let '(fh, w) := st in
  match c with
  | call_init now => init now fh w
  | call_addJob now job =>
      let '(_, fh1, w1) := addJob now job fh w in (fh1, w1)
  | call_addJobs now new_jobs =>
      let '(_, fh1, w1) := addJobs now new_jobs fh w in (fh1, w1)
  | call_backup now_name now_date =>
      let '(_, fh1, w1) := backup now_name now_date fh w in (fh1, w1)
  | call_restart => (new (outputPath fh), w)
  end.

Definition run_calls (cs : list Call) (st : FileHandler * World)
    : FileHandler * World :=
  fold_left (fun acc c => apply_call c acc) cs st.

(** The records held have distinct ids, and the catalog file, when it
    parses, is a well-formed catalog. *)
Definition store_ok (st : FileHandler * World) : Prop :=
  NoDup (rec_ids (jobs st.1))
  /\ (forall doc, files st.2 !! outputPath st.1 = Some (Parsed doc) ->
                  catalog_ok doc).

(** [s.includes(c)] for a single character. *)
Fixpoint has_char (c : ascii) (s : string) : bool :=
  match s with
  | EmptyString => false
  | String a t => Ascii.eqb a c || has_char c t
  end.

(** [addJob] called on each record in turn. *)
Fixpoint addJob_each (now : string) (new_jobs : list JobRecord)
    (fh : FileHandler) (w : World) : nat * FileHandler * World :=
  match new_jobs with
  | [] => (0, fh, w)
  | job :: rest =>
      let '(ok, fh1, w1) := addJob now job fh w in
      let '(n, fh2, w2) := addJob_each now rest fh1 w1 in
      (if ok then S n else n, fh2, w2)
  end.

(** The catalog file holds the records the handler holds. *)
Definition synced (st : FileHandler * World) : Prop :=
  exists doc, files st.2 !! outputPath st.1 = Some (Parsed doc)
              /\ doc_jobs doc = Some (jobs st.1).

(** The contract of [add] read literally, for a given reading of "the id
    is already stored": rejected without a write, or appended with one full
    rewrite. *)
Definition add_as_stated (stored : string -> FileHandler -> World -> bool)
    (now : string) (job : JobRecord) (fh : FileHandler) (w : World) : Prop :=
  let '(ok, fh1, w1) := addJob now job fh w in
  if stored (r_id job) fh w
  then ok = false /\ writes w1 = writes w
  else ok = true /\ jobs fh1 = jobs fh ++ [job]
       /\ writes w1 = writes w ++ [outputPath fh].

(** The two readings: held by the handler, or present in the catalog file. *)
Definition stored_in_memory (jobId : string) (fh : FileHandler) (w : World)
    : bool :=
  hasJob jobId fh.

Definition stored_on_disk (jobId : string) (fh : FileHandler) (w : World)
    : bool :=
  match files w !! outputPath fh with
  | Some (Parsed doc) =>
      match doc_jobs doc with
      | Some js => existsb (fun j => String.eqb (r_id j) jobId) js
      | None => false
      end
  | _ => false
  end.

(** The contract of [backup] read literally: nothing happens on an empty
    catalog; otherwise one file other than the catalog is written, holding
    the records under a metadata object with the catalog's three properties
    and [backupDate], and the catalog file and the handler stay as they
    were. *)
Definition backup_as_stated (now_name now_date : string) (fh : FileHandler)
    (w : World) : Prop :=
  let '(_, fh1, w1) := backup now_name now_date fh w in
  fh1 = fh
  /\ (jobs fh = [] -> w1 = w)
  /\ (jobs fh <> [] ->
      exists path doc,
        writes w1 = writes w ++ [path]
        /\ path <> outputPath fh
        /\ files w1 !! path = Some (Parsed doc)
        /\ doc_jobs doc = Some (jobs fh)
        /\ (forall k, k ∈ ["totalJobs"; "lastUpdated"; "version"; "backupDate"]
                      -> is_Some (assoc k (metadata doc)))
        /\ files w1 !! outputPath fh = files w !! outputPath fh).

End Store.

(* ===================================================================== *)
(** ** Configuration (config.json, read by index.js) *)
(* ===================================================================== *)

Module Config.

Record Config := mkConfig {
  workers : nat;
  output : string;
  delay_min : nat;
  delay_max : nat;
  maxPages : nat;
  retryAttempts : nat
}.

(** [defaultConfig] of index.js. *)
Definition defaultConfig : Config :=
  mkConfig 3 "./output/jobs.json" 1000 3000 0 3.

End Config.

(* ===================================================================== *)
(** ** Worker (worker.js) *)
(* ===================================================================== *)

Module Pool.

Import Config.

Record Worker := mkWorker {
  worker_id : nat;
  config : Config;
  isRunning : bool;
  processedCount : nat
}.

(** [constructor(id, config, queue, fileHandler)]; the queue and the file
    handler are shared objects, kept in [PoolState]. *)
Definition new (id : nat) (cfg : Config) : Worker := mkWorker id cfg false 0.

Record PoolState := mkPool {
  queue : Queue.JobQueue;
  fileHandler : Store.FileHandler;
  world : Store.World
}.

Section WorkerLoop.

(** The rendering driver and the extractor: what navigating to the job's
    page and merging the extracted fields yields, either the message of the
    exception thrown or the title and fields of [mergedData]. *)
Variable scrape : Queue.Job -> string + (string * list (string * string)).

(** Clock readings: [Date.now()] and [new Date().toISOString()]. *)
Variable now : Z.
Variable iso_now : string.

(** [processJob(job)]: [inl message] when it throws. *)
Definition processJob (job : Queue.Job) (s : PoolState) : string + PoolState :=
  match scrape job with
  | inl message => inl message
  | inr (title, fields) =>
      let mergedData := Store.mkRecord (Queue.job_id job) title fields in
      let '(_, fh1, w1) :=
        Store.addJob iso_now mergedData (fileHandler s) (world s) in
      inr (mkPool (queue s) fh1 w1)
  end.

(** One turn of the [while (this.isRunning)] loop of [start()], for a job
    that [getNext] handed out: [complete] on success, [fail(.., true)] when
    [processJob] throws. *)
Definition handle_job (job : Queue.Job) (wk : Worker) (s : PoolState)
    : Worker * PoolState :=
  match processJob job s with
  | inr s1 =>
      let '(_, q1) := Queue.complete now (Queue.job_id job) None (queue s1) in
      (mkWorker (worker_id wk) (config wk) (isRunning wk)
                (S (processedCount wk)),
       mkPool q1 (fileHandler s1) (world s1))
  | inl message =>
      let '(_, q1) := Queue.fail now (Queue.job_id job) message true (queue s) in
      (wk, mkPool q1 (fileHandler s) (world s))
  end.

(** The loop of [start()], run by one worker on its own; [fuel] bounds the
    number of turns ([None]: still looping when the fuel ran out). A turn
    without a job polls again after [delay(500)] unless the queue is done. *)
Fixpoint start_loop (fuel : nat) (wk : Worker) (s : PoolState)
    : option (Worker * PoolState) :=
  if negb (isRunning wk) then Some (wk, s)
  else
    match fuel with
    | O => None
    | S fuel' =>
        match Queue.getNext now (queue s) with
        | (None, q1) =>
            let s1 := mkPool q1 (fileHandler s) (world s) in
            if Queue.isDone q1 then Some (wk, s1)
            else start_loop fuel' wk s1
        | (Some job, q1) =>
            let '(wk1, s1) :=
              handle_job job wk (mkPool q1 (fileHandler s) (world s)) in
            start_loop fuel' wk1 s1
        end
    end.

(** [start()] *)
Definition start (fuel : nat) (wk : Worker) (s : PoolState)
    : option (Worker * PoolState) :=
  if isRunning wk then Some (wk, s)
  else start_loop fuel
         (mkWorker (worker_id wk) (config wk) true (processedCount wk)) s.

End WorkerLoop.

(** A driver whose every navigation times out. *)
Definition always_throws (job : Queue.Job)
    : string + (string * list (string * string)) :=
  inl "Navigation timeout".

End Pool.

(* ===================================================================== *)
(** ** WorkerPool (worker.js): workers taking turns *)
(* ===================================================================== *)

(** The workers of a pool run [start()] side by side. Each runs until its
    next [await], so the calls on the shared queue and file handler happen
    one at a time, in some order: [getNext] at the top of the loop, then the
    navigation and [addJob] of [processJob] (or its exception and [fail]),
    then [complete]. A worker is described by where it stands in its
    loop. *)
Module Workers.

Import Config Pool.

Inductive Phase :=
| at_top
| holding (job : Queue.Job)
| saved (job : Queue.Job)
| exited.

Record Slot := mkSlot {
  worker : Worker;
  phase : Phase
}.

(** [WorkerPool.init()]: [config.workers || 3] workers, numbered from 1. *)
Definition init (cfg : Config) : list Slot :=
  (fun i => mkSlot (Pool.new i cfg) at_top)
    <$> seq 1 (if (workers cfg =? 0)%nat then 3 else workers cfg).

(** The head of [Worker.start()], for every worker of the pool. *)
Definition start_all (ws : list Slot) : list Slot :=
  (fun sl =>
     if isRunning (worker sl) then mkSlot (worker sl) exited
     else mkSlot (mkWorker (worker_id (worker sl)) (config (worker sl)) true
                           (processedCount (worker sl)))
                 (phase sl)) <$> ws.

(** [Worker.stop()] on every worker. *)
Definition stop_all (ws : list Slot) : list Slot :=
  (fun sl =>
     mkSlot (mkWorker (worker_id (worker sl)) (config (worker sl)) false
                      (processedCount (worker sl)))
            (phase sl)) <$> ws.

(** [getTotalProcessed()] *)
Definition getTotalProcessed (ws : list Slot) : nat :=
  fold_left (fun total sl => total + processedCount (worker sl)) ws 0.

(** Ids of the jobs the workers are working on. *)
Definition held (sl : Slot) : list string :=
  match phase sl with
  | holding job => [Queue.job_id job]
  | saved job => [Queue.job_id job]
  | _ => []
  end.

Definition held_ids (ws : list Slot) : list string :=
  concat (held <$> ws).

Section Steps.

Variable scrape : Queue.Job -> string + (string * list (string * string)).
Variable now : Z.
Variable iso_now : string.

(** A worker runs from one [await] to the next. *)
Definition turn (sl : Slot) (s : PoolState) : Slot * PoolState :=
  match phase sl with
  | at_top =>
      if negb (isRunning (worker sl)) then (mkSlot (worker sl) exited, s)
      else
        match Queue.getNext now (queue s) with
        | (None, q1) =>
            let s1 := mkPool q1 (fileHandler s) (world s) in
            if Queue.isDone q1 then (mkSlot (worker sl) exited, s1)
            else (sl, s1)
        | (Some job, q1) =>
            (mkSlot (worker sl) (holding job),
             mkPool q1 (fileHandler s) (world s))
        end
  | holding job =>
      match processJob scrape iso_now job s with
      | inr s1 => (mkSlot (worker sl) (saved job), s1)
      | inl message =>
          let '(_, q1) :=
            Queue.fail now (Queue.job_id job) message true (queue s) in
          (mkSlot (worker sl) at_top, mkPool q1 (fileHandler s) (world s))
      end
  | saved job =>
      let '(_, q1) :=
        Queue.complete now (Queue.job_id job) None (queue s) in
      (mkSlot (mkWorker (worker_id (worker sl)) (config (worker sl))
                        (isRunning (worker sl))
                        (S (processedCount (worker sl))))
              at_top,
       mkPool q1 (fileHandler s) (world s))
  | exited => (sl, s)
  end.

(** What happens to the pool: the worker at an index takes a turn, or the
    pool is told to stop. *)
Inductive PoolEvent :=
| ev_turn (i : nat)
| ev_stop.

Definition pool_step (e : PoolEvent) (st : list Slot * PoolState)
    : list Slot * PoolState :=
  match e with
  | ev_turn i =>
      match st.1 !! i with
      | Some sl =>
          let '(sl1, s1) := turn sl st.2 in (<[i := sl1]> st.1, s1)
      | None => st
      end
  | ev_stop => (stop_all st.1, st.2)
  end.

Definition pool_run (es : list PoolEvent) (st : list Slot * PoolState)
    : list Slot * PoolState :=
  fold_left (fun acc e => pool_step e acc) es st.

End Steps.

(** The jobs in [processing] are the jobs the workers are working on, and
    no id occurs twice in the queue. *)
Definition in_step (st : list Slot * PoolState) : Prop :=
  NoDup (Queue.all_ids (queue st.2))
  /\ held_ids st.1 ≡ₚ Queue.ids (Queue.processing (queue st.2)).

End Workers.

(* ===================================================================== *)
(** ** Listing walk (scraper.js, scrapeJobListings) *)
(* ===================================================================== *)

Module Crawl.

Import Config.

(** The part of [parsePagination]'s result the walk reads. *)
Record Pagination := mkPagination {
  hasNext : bool;
  nextPageUrl : option string
}.

(** What one pass through the [try] block meets: an exception thrown while
    navigating or reading the page, or the parsed page (job count, job
    links, pagination). *)
Inductive PageResult :=
| page_error (message : string)
| page_ok (totalJobs : nat) (jobs : list Queue.JobDesc) (pagination : Pagination).

(** The listing site: the outcome of the [k]-th navigation of the walk,
    to the given url. *)
Definition Site := nat -> string -> PageResult.

Inductive Sleep :=
| fixed_delay (ms : nat)
| random_delay (min max : nat).

Record Walk := mkWalk {
  currentUrl : option string;
  pageNum : nat;
  jobQueue : Queue.JobQueue;
  existingIds : gset string;
  totalJobsFound : nat;
  fetches : nat;
  slept : list Sleep
}.

(** JavaScript truthiness of a url that may be [null]. *)
Definition truthy (u : option string) : bool :=
  match u with
  | Some s => negb (String.eqb s "")
  | None => false
  end.

Inductive Outcome :=
| next_turn (s : Walk)
| break_loop (s : Walk).

(** Result of running the loop with a bound on its turns: it left the loop
    in the given state, or it is still in the loop there. *)
Inductive Run :=
| finished (s : Walk)
| still_walking (s : Walk).

(** The page offers a next page the walk would follow. *)
Definition has_next (r : PageResult) : bool :=
  match r with
  | page_ok _ _ pagination =>
      hasNext pagination && truthy (nextPageUrl pagination)
  | page_error _ => false
  end.

Definition is_error (r : PageResult) : bool :=
  match r with
  | page_error _ => true
  | page_ok _ _ _ => false
  end.

(** A site whose every page links to a next page. *)
Definition endless_site : Site :=
  fun _ _ =>
    page_ok 0 []
            (mkPagination true (Some "https://www.jobthai.com/th/jobs?page=2")).

(** A site that cannot be reached: every navigation throws. *)
Definition unreachable_site : Site :=
  fun _ _ => page_error "Navigation timeout".

Section Listing.

Variable cfg : Config.
Variable site : Site.
Variable now : Z.

(** [newJobs.forEach(job => existingIds.add(job.id))] *)
Definition add_ids (js : list Queue.JobDesc) (known : gset string) : gset string :=
  fold_left (fun acc job => {[Queue.d_id job]} ∪ acc) js known.

(** The body of [while (currentUrl)], at url [u]. *)
Definition walk_turn (u : string) (s : Walk) : Outcome :=
  match site (fetches s) u with
  | page_error _ =>
      if (0 <? retryAttempts cfg)%nat
      then next_turn (mkWalk (currentUrl s) (pageNum s) (jobQueue s)
                             (existingIds s) (totalJobsFound s)
                             (S (fetches s))
                             (slept s ++ [fixed_delay 5000]))
      else break_loop (mkWalk (currentUrl s) (pageNum s) (jobQueue s)
                              (existingIds s) (totalJobsFound s)
                              (S (fetches s)) (slept s))
  | page_ok total jobs pagination =>
      let total1 := if (pageNum s =? 1)%nat then total else totalJobsFound s in
      let newJobs :=
        filter (fun job => Queue.d_id job ∉ existingIds s) jobs in
      let '(_, q1) := Queue.addBulk now newJobs (jobQueue s) in
      let known1 := add_ids newJobs (existingIds s) in
      let slept1 := slept s ++ [fixed_delay 2000] in
      if (0 <? maxPages cfg)%nat && (maxPages cfg <=? pageNum s)%nat
      then break_loop (mkWalk (currentUrl s) (pageNum s) q1 known1 total1
                              (S (fetches s)) slept1)
      else if hasNext pagination && truthy (nextPageUrl pagination)
      then next_turn (mkWalk (nextPageUrl pagination) (S (pageNum s)) q1
                             known1 total1 (S (fetches s))
                             (slept1 ++ [random_delay (delay_min cfg)
                                                      (delay_max cfg)]))
      else next_turn (mkWalk None (pageNum s) q1 known1 total1
                             (S (fetches s)) slept1)
  end.

(** [scrapeJobListings]'s loop, run for at most [fuel] turns. *)
Fixpoint walk (fuel : nat) (s : Walk) : Run :=
  match currentUrl s with
  | Some u =>
      if truthy (Some u) then
        match fuel with
        | O => still_walking s
        | S fuel' =>
            match walk_turn u s with
            | next_turn s1 => walk fuel' s1
            | break_loop s1 => finished s1
            end
        end
      else finished s
  | None => finished s
  end.

(** The state at the head of [scrapeJobListings(startUrl)]. *)
Definition walk_init (startUrl : string) (q : Queue.JobQueue)
    (fh : Store.FileHandler) : Walk :=
  mkWalk (Some startUrl) 1 q (Store.getExistingIds fh) 0 0 [].

Definition scrapeJobListings (fuel : nat) (startUrl : string)
    (q : Queue.JobQueue) (fh : Store.FileHandler) : Run :=
  walk fuel (walk_init startUrl q fh).

(** The walk comes to an end. *)
Definition walk_terminates (s : Walk) : Prop :=
  exists fuel s1, walk fuel s = finished s1.

End Listing.

(** What a state [s1] reached from [s] has kept and gained: the queue has
    only grown at the back of [pending], by jobs on their first attempt
    whose ids were not known at [s]; the known ids have only grown; the ids
    in the queue are still distinct if they were; the page number has not
    gone down, nor beyond a positive [maxPages]. *)
Definition grown_from (cfg : Config) (s s1 : Walk) : Prop :=
  (exists new,
     Queue.pending (jobQueue s1) = Queue.pending (jobQueue s) ++ new
     /\ Forall (fun j => (Queue.job_id j ∉ existingIds s)
                         /\ Queue.attempts j = 0) new)
  /\ Queue.processing (jobQueue s1) = Queue.processing (jobQueue s)
  /\ Queue.completed (jobQueue s1) = Queue.completed (jobQueue s)
  /\ Queue.failed (jobQueue s1) = Queue.failed (jobQueue s)
  /\ (forall x, x ∈ existingIds s -> x ∈ existingIds s1)
  /\ (NoDup (Queue.all_ids (jobQueue s)) ->
      NoDup (Queue.all_ids (jobQueue s1)))
  /\ pageNum s <= pageNum s1
  /\ (0 < maxPages cfg -> pageNum s <= maxPages cfg ->
      pageNum s1 <= maxPages cfg).

(** The state an [Outcome] carries. *)
Definition outcome_state (o : Outcome) : Walk :=
  match o with
  | next_turn s => s
  | break_loop s => s
  end.

(** The state a bounded run stopped in, finished or not. *)
Definition run_state (r : Run) : Walk :=
  match r with
  | finished s => s
  | still_walking s => s
  end.

End Crawl.

(* ===================================================================== *)
(** ** Job links of a listing page (scraper.js, utils/parser.js) *)
(* ===================================================================== *)

Module Links.

(** [\d]: an ASCII digit. *)
Definition is_digit (c : ascii) : bool :=
  (48 <=? nat_of_ascii c)%nat && (nat_of_ascii c <=? 57)%nat.

Fixpoint all_digits (s : string) : bool :=
  match s with
  | EmptyString => true
  | String c t => is_digit c && all_digits t
  end.

(** The longest run of digits at the head of a string: what [(\d+)]
    captures there. *)
Fixpoint take_digits (s : string) : string :=
  match s with
  | EmptyString => EmptyString
  | String c t => if is_digit c then String c (take_digits t) else EmptyString
  end.

(** [s.match(/\/job\/(\d+)/)]: the capture of the leftmost place where
    [/job/] is followed by a digit; [None] when there is no match. *)
Fixpoint match_job_id (s : string) : option string :=
  match s with
  | EmptyString => None
  | String c t =>
      if Store.starts_with "/job/" s then
        match take_digits (Store.drop_chars 5 s) with
        | EmptyString => match_job_id t
        | digits => Some digits
        end
      else match_job_id t
  end.

(** [href.startsWith('http') ? href : `https://www.jobthai.com${href}`] *)
Definition absolute_url (h : string) : string :=
  if Store.starts_with "http" h then h else "https://www.jobthai.com" +:+ h.

(** What [getAttribute('href')] does on a link: throw, or return [null] or
    a string. *)
Inductive Attr :=
| attr_throws
| attr_null
| attr_value (s : string).

(** A link found by [querySelectorAll('a[href*="/job/"]')]: its [href], and
    its text ([None] when reading it throws). *)
Record Link := mkLink {
  href : Attr;
  textContent : option string
}.

Section Extract.

(** What the job object takes from the link text: [previewText] and the
    fields of [parsePreviewText]. *)
Variable preview_of : string -> list (string * string).

(** The [for (const link of jobLinks)] loop of [extractJobsFromPage]. *)
Fixpoint links_loop (links : list Link) (processedIds : gset string)
    (jobs : list Queue.JobDesc) : list Queue.JobDesc :=
  match links with
  | [] => jobs
  | link :: rest =>
      match href link with
      | attr_throws => links_loop rest processedIds jobs
      | attr_null => links_loop rest processedIds jobs
      | attr_value h =>
          if String.eqb h "" || negb (Store.includes "/job/" h)
          then links_loop rest processedIds jobs
          else
            match match_job_id h with
            | None => links_loop rest processedIds jobs
            | Some jobId =>
                if decide (jobId ∈ processedIds)
                then links_loop rest processedIds jobs
                else
                  let text := match textContent link with
                              | Some t => t
                              | None => ""
                              end in
                  links_loop rest ({[jobId]} ∪ processedIds)
                    (jobs ++ [Queue.mkDesc jobId (absolute_url h)
                                           (preview_of text)])
            end
      end
  end.

(** [parseJobList(html)] over the elements the selector finds, each given by
    the url it carries ([$el.attr('href')] or that of its first job link;
    [None] when it has neither): the [id] and [jobUrl] of the jobs
    returned. *)
Fixpoint parseJobList (elements : list (option string))
    : list (string * string) :=
  match elements with
  | [] => []
  | None :: rest => parseJobList rest
  | Some u :: rest =>
      if String.eqb u "" then parseJobList rest
      else
        let jobUrl := absolute_url u in
        match match_job_id jobUrl with
        | None => parseJobList rest
        | Some jobId => (jobId, jobUrl) :: parseJobList rest
        end
  end.

(** [extractJobsFromPage]: the links when the driver answers the query
    ([Some links]), the fallback on [parseJobList] when it throws
    ([None]). *)
Definition extractJobsFromPage (query : option (list Link))
    (elements : list (option string)) : list Queue.JobDesc :=
  match query with
  | Some links => links_loop links ∅ []
  | None =>
      (fun job => Queue.mkDesc job.1 job.2 []) <$>
      filter (fun job => negb (String.eqb job.1 "")
                         && negb (String.eqb job.2 "") = true)
             (parseJobList elements)
  end.

End Extract.

End Links.

(* ===================================================================== *)
(** ** Search url (scraper.js, buildSearchUrl) *)
(* ===================================================================== *)

(** Strings stand for their UTF-8 bytes here, which is what
    [encodeURIComponent] escapes. *)
Module Search.

Record SearchConfig := mkSearch {
  searchMode : option string;
  keyword : option string;
  bts_mrt : option string;
  custom_url : option string
}.

Definition is_alpha (c : ascii) : bool :=
  ((65 <=? nat_of_ascii c)%nat && (nat_of_ascii c <=? 90)%nat)
  || ((97 <=? nat_of_ascii c)%nat && (nat_of_ascii c <=? 122)%nat).

(** The characters [encodeURIComponent] leaves alone. *)
Definition unreserved (c : ascii) : bool :=
  is_alpha c || Links.is_digit c || Store.has_char c "-_.!~*'()".

Definition hex_digit (n : nat) : ascii :=
  match String.get n "0123456789ABCDEF" with
  | Some c => c
  | None => "0"%char
  end.

(** [%XX] for a byte. *)
Definition percent (c : ascii) : string :=
  String "%" (String (hex_digit (nat_of_ascii c / 16))
                     (String (hex_digit (nat_of_ascii c mod 16)) "")).

Fixpoint encodeURIComponent (s : string) : string :=
  match s with
  | EmptyString => EmptyString
  | String c t =>
      (if unreserved c then String c "" else percent c)
      +:+ encodeURIComponent t
  end.

(** A value that is neither [undefined] nor the empty string. *)
Definition given (v : option string) : option string :=
  match v with
  | Some s => if String.eqb s "" then None else Some s
  | None => None
  end.

Definition mode_is (m : string) (cfg : SearchConfig) : bool :=
  match searchMode cfg with
  | Some s => String.eqb s m
  | None => false
  end.

Definition all_jobs_url : string := "https://www.jobthai.com/th/jobs".

(** [buildSearchUrl()] *)
Definition buildSearchUrl (cfg : SearchConfig) : string :=
  match mode_is "custom_url" cfg, given (custom_url cfg) with
  | true, Some u => u
  | _, _ =>
      match mode_is "bts_mrt" cfg, given (bts_mrt cfg) with
      | true, Some line => "https://www.jobthai.com/หางาน/" +:+ line
      | _, _ =>
          match mode_is "keyword" cfg, given (keyword cfg) with
          | true, Some kw =>
              "https://www.jobthai.com/th/jobs?keyword="
              +:+ encodeURIComponent kw
          | _, _ => all_jobs_url
          end
      end
  end.

(** Reading [%XX] back, to tell encoded keywords apart. *)
Definition hex_value (c : ascii) : nat :=
  if Links.is_digit c then nat_of_ascii c - 48 else nat_of_ascii c - 55.

Fixpoint decode (s : string) : string :=
  match s with
  | String "%" (String a (String b t)) =>
      String (ascii_of_nat (hex_value a * 16 + hex_value b)) (decode t)
  | String c t => String c (decode t)
  | EmptyString => EmptyString
  end.

End Search.

(* ===================================================================== *)
(** ** Sample data *)
(* ===================================================================== *)

Module Samples.

Definition job1 : Queue.JobDesc :=
  Queue.mkDesc "1" "https://www.jobthai.com/th/job/1" [].

Definition job2 : Queue.JobDesc :=
  Queue.mkDesc "2" "https://www.jobthai.com/th/job/2" [].

Definition rec1 : Store.JobRecord := Store.mkRecord "1" "IT Support" [].

Definition rec2 : Store.JobRecord := Store.mkRecord "2" "Accountant" [].

Definition three_pages : Config.Config :=
  Config.mkConfig 3 "./output/jobs.json" 1000 3000 3 3.

(** A driver whose every page yields a title and no other field. *)
Definition always_yields (job : Queue.Job)
    : string + (string * list (string * string)) :=
  inr ("IT Support", []).

(** A queue with two pending jobs, and the same with the first handed out. *)
Definition two_pending : Queue.JobQueue :=
  (Queue.addBulk 0 [job1; job2] Queue.empty).2.

Definition one_taken : Queue.JobQueue := (Queue.getNext 1 two_pending).2.

(** An initialised handler on an empty file system, and a pool over it. *)
Definition fresh_store : Store.FileHandler * Store.World :=
  Store.init "2025-12-02T05:00:00.000Z" (Store.new "./output/jobs.json")
             (Store.mkWorld ∅ [] ∅).

Definition fresh_pool : Pool.PoolState :=
  Pool.mkPool two_pending fresh_store.1 fresh_store.2.

(** Two runs over one catalog file: a bulk add, then a new run that adds a
    record again. *)
Definition two_runs : list Store.Call :=
  [Store.call_init "2025-12-02T05:00:00.000Z";
   Store.call_addJobs "2025-12-02T05:00:02.000Z" [rec1; rec2; rec1];
   Store.call_restart;
   Store.call_addJob "2025-12-03T05:00:00.000Z" rec2].

Definition keyword_search : Search.SearchConfig :=
  Search.mkSearch (Some "keyword") (Some "C++ & C#") None None.

End Samples.

(* ===================================================================== *)
(** ** Facts about the queue *)
(* ===================================================================== *)

Section QueueFacts.

Import Queue.

Lemma some_id_elem jobId l : some_id jobId l = true <-> jobId ∈ ids l.
Proof.
  unfold some_id, ids. induction l as [|j l IH]; simpl.
  - split; [discriminate | intros H; inversion H].
  - rewrite orb_true_iff, IH, elem_of_cons, String.eqb_eq.
    split; intros [H|H]; auto.
Qed.

Lemma some_id_false jobId l : some_id jobId l = false <-> jobId ∉ ids l.
Proof.
  rewrite <- some_id_elem. destruct (some_id jobId l); split; congruence.
Qed.

Lemma exists_elem jobId q : exists_ jobId q = true <-> jobId ∈ all_ids q.
Proof.
  unfold exists_, all_ids.
  rewrite !orb_true_iff, !some_id_elem, !elem_of_app. tauto.
Qed.

Lemma exists_false jobId q : exists_ jobId q = false <-> jobId ∉ all_ids q.
Proof.
  rewrite <- exists_elem. destruct (exists_ jobId q); split; congruence.
Qed.

(** [findIndex] returns the position of the first job with the id. *)
Lemma findIndex_Some jobId l i :
  findIndex jobId l = Some i ->
  exists l1 j l2,
    l = l1 ++ j :: l2 /\ length l1 = i /\ job_id j = jobId
    /\ jobId ∉ ids l1.
Proof.
  revert i. induction l as [|a l IH]; simpl; intros i H; [discriminate|].
  destruct (String.eqb (job_id a) jobId) eqn:E.
  - inversion H; subst. apply String.eqb_eq in E.
    exists [], a, l. repeat split; auto. unfold ids; simpl. apply not_elem_of_nil.
  - destruct (findIndex jobId l) as [k|] eqn:F; [|discriminate].
    inversion H; subst. destruct (IH k eq_refl) as (l1 & j & l2 & -> & <- & Hj & Hn).
    exists (a :: l1), j, l2. repeat split; auto.
    unfold ids in *; simpl. rewrite elem_of_cons. intros [->|Hin]; [|tauto].
    rewrite String.eqb_refl in E. discriminate.
Qed.

Lemma findIndex_first jobId l1 j l2 :
  job_id j = jobId -> jobId ∉ ids l1 ->
  findIndex jobId (l1 ++ j :: l2) = Some (length l1).
Proof.
  intros Hj. induction l1 as [|a l1 IH]; simpl; intros Hn.
  - subst. now rewrite String.eqb_refl.
  - unfold ids in Hn; simpl in Hn. rewrite not_elem_of_cons in Hn.
    destruct Hn as [Hne Hn]. destruct (String.eqb (job_id a) jobId) eqn:E.
    + apply String.eqb_eq in E. congruence.
    + now rewrite (IH Hn).
Qed.

Lemma findIndex_None jobId l : findIndex jobId l = None <-> jobId ∉ ids l.
Proof.
  unfold ids. induction l as [|a l IH]; simpl.
  - split; auto. intros _. apply not_elem_of_nil.
  - rewrite not_elem_of_cons. destruct (String.eqb (job_id a) jobId) eqn:E.
    + apply String.eqb_eq in E. split; [discriminate | intros [H _]; congruence].
    + apply String.eqb_neq in E.
      destruct (findIndex jobId l); split; try discriminate; try tauto.
      * intros [_ H]. apply IH in H. discriminate.
      * intros _. split; [congruence | now apply IH].
Qed.

Lemma lookup_middle_job (l1 : list Job) j l2 :
  (l1 ++ j :: l2) !! length l1 = Some j.
Proof. apply list_lookup_middle. reflexivity. Qed.

Lemma delete_middle_job (l1 : list Job) j l2 :
  delete (length l1) (l1 ++ j :: l2) = l1 ++ l2.
Proof. induction l1; simpl; [reflexivity | now f_equal]. Qed.

End QueueFacts.

Section QueueOperations.

Import Queue.

(** C5. [add] refuses an id held by any of the four partitions, returning
    [false] and leaving the queue as it was; an id held by none is pushed at
    the back of [pending] with [attempts = 0] and [add] returns [true], the
    other three partitions unchanged. Hence a second [add] of an id just
    offered returns [false] and leaves the sizes reported by [getStats]
    unchanged. *)
Theorem add_dedup (now now' : Z) (job job' : JobDesc) (q : JobQueue) :
  (d_id job ∈ all_ids q -> add now job q = (false, q))
  /\ (d_id job ∉ all_ids q ->
      exists q1,
        add now job q = (true, q1)
        /\ pending q1 = pending q ++ [fresh_job now job]
        /\ job_id (fresh_job now job) = d_id job
        /\ attempts (fresh_job now job) = 0
        /\ processing q1 = processing q
        /\ completed q1 = completed q
        /\ failed q1 = failed q)
  /\ (d_id job' = d_id job ->
      let q1 := (add now job q).2 in
      add now' job' q1 = (false, q1)
      /\ getStats (add now' job' q1).2 = getStats q1).
Proof.
  split; [|split].
  - intros H. unfold add. apply exists_elem in H. now rewrite H.
  - intros H. unfold add. apply exists_false in H. rewrite H.
    eexists. repeat split.
  - intros Hid q1.
    assert (Hin : d_id job' ∈ all_ids q1).
    { subst q1. unfold add. destruct (exists_ (d_id job) q) eqn:E; simpl.
      - rewrite Hid. now apply exists_elem.
      - unfold all_ids, ids; simpl. rewrite fmap_app, !elem_of_app; simpl.
        left. right. rewrite Hid. apply list_elem_of_here. }
    apply exists_elem in Hin.
    assert (Hadd : add now' job' q1 = (false, q1)).
    { unfold add. now rewrite Hin. }
    now rewrite Hadd.
Qed.

(** C8. [getNext] hands out nothing, and changes nothing, while the queue
    is paused or [pending] is empty; otherwise it takes the head of
    [pending], adds one to its [attempts], stamps [startedAt], pushes it at
    the back of [processing] and returns it. The job returned is the head
    job itself: apart from [attempts] and [startedAt] every property it had
    is kept. *)
Theorem getNext_fifo (now : Z) (q : JobQueue) :
  (paused q = true \/ pending q = [] -> getNext now q = (None, q))
  /\ (forall j rest,
        paused q = false -> pending q = j :: rest ->
        exists j1 q1,
          getNext now q = (Some j1, q1)
          /\ j1 = start_job now j
          /\ job_id j1 = job_id j
          /\ url j1 = url j
          /\ preview j1 = preview j
          /\ addedAt j1 = addedAt j
          /\ completedAt j1 = completedAt j
          /\ result j1 = result j
          /\ error j1 = error j
          /\ failedAt j1 = failedAt j
          /\ attempts j1 = S (attempts j)
          /\ startedAt j1 = Some now
          /\ pending q1 = rest
          /\ processing q1 = processing q ++ [j1]
          /\ completed q1 = completed q
          /\ failed q1 = failed q
          /\ paused q1 = false
          /\ emitted q1 = emitted q ++ [job_started j1]).
Proof.
  split.
  - intros [H|H]; unfold getNext; rewrite H; simpl; [reflexivity|].
    now rewrite orb_true_r.
  - intros j rest Hp Hl. unfold getNext. rewrite Hp, Hl. simpl.
    exists (start_job now j). eexists. split; [reflexivity|].
    split_and!; reflexivity.
Qed.

(** [checkDone] and [emit] only add to the event log. *)
Lemma checkDone_fields q :
  pending (checkDone q) = pending q
  /\ processing (checkDone q) = processing q
  /\ completed (checkDone q) = completed q
  /\ failed (checkDone q) = failed q
  /\ paused (checkDone q) = paused q.
Proof. unfold checkDone. destruct (_ && _); simpl; auto. Qed.


End QueueOperations.

Section QueueInvariants.

Import Queue.

(** The push loop of [retryFailed] in closed form. *)
Lemma retryFailed_eq (q : JobQueue) :
  retryFailed q
  = (length (failed q),
     mkQueue (pending q ++ (reset_job <$> failed q)) (processing q)
             (completed q) [] (paused q) (emitted q)).
Proof.
  unfold retryFailed. f_equal.
  generalize (pending q) as p. induction (failed q) as [|a l IH]; intros p; simpl.
  - now rewrite app_nil_r.
  - rewrite IH, <- app_assoc. reflexivity.
Qed.

(** C10. [retryFailed] empties [failed], puts every job it held at the back
    of [pending] in the same order with [attempts] reset to 0 and the
    [error] and [failedAt] properties removed, leaves [processing] and
    [completed] alone, and returns the number of jobs moved; so a job that
    was in [failed] is in [pending] again afterwards. *)
Theorem retryFailed_requeues_all (q : JobQueue) :
  let '(n, q1) := retryFailed q in
  n = length (failed q)
  /\ failed q1 = []
  /\ pending q1 = pending q ++ (reset_job <$> failed q)
  /\ processing q1 = processing q
  /\ completed q1 = completed q
  /\ Forall (fun j => attempts j = 0 /\ error j = None /\ failedAt j = None)
            (reset_job <$> failed q)
  /\ (forall j, j ∈ failed q ->
        job_id j ∈ ids (pending q1) /\ job_id j ∉ ids (failed q1)).
Proof.
  rewrite retryFailed_eq. simpl. split_and!; auto.
  - apply Forall_fmap, Forall_forall. intros j _. simpl. auto.
  - intros j Hj. split; [|apply not_elem_of_nil].
    unfold ids. rewrite fmap_app, elem_of_app. right.
    rewrite <- list_fmap_compose.
    change (job_id j) with ((job_id ∘ reset_job) j).
    now apply list_elem_of_fmap_2.
Qed.

Lemma all_ids_emit e q : all_ids (emit e q) = all_ids q.
Proof. reflexivity. Qed.

Lemma all_ids_checkDone q : all_ids (checkDone q) = all_ids q.
Proof. unfold checkDone. now destruct (_ && _). Qed.

Lemma add_all_ids now job q :
  all_ids (add now job q).2
  ≡ₚ all_ids q ++ (if exists_ (d_id job) q then [] else [d_id job]).
Proof.
  unfold add. destruct (exists_ (d_id job) q); simpl.
  - now rewrite app_nil_r.
  - unfold all_ids, ids. simpl. rewrite !fmap_app. simpl. solve_Permutation.
Qed.

Lemma getNext_all_ids now q : all_ids (getNext now q).2 ≡ₚ all_ids q.
Proof.
  unfold getNext. destruct (paused q || _); [reflexivity|].
  destruct (pending q) as [|j rest] eqn:E; [reflexivity|].
  unfold all_ids, ids. simpl. rewrite E, !fmap_app. simpl. solve_Permutation.
Qed.

Lemma complete_all_ids now jobId res q :
  all_ids (complete now jobId res q).2 ≡ₚ all_ids q.
Proof.
  unfold complete. destruct (findIndex jobId (processing q)) as [i|] eqn:F;
    [|reflexivity].
  destruct (findIndex_Some _ _ _ F) as (l1 & j & l2 & Hp & <- & _ & _).
  rewrite Hp, lookup_middle_job, delete_middle_job. simpl.
  rewrite all_ids_checkDone, all_ids_emit.
  unfold all_ids, ids. simpl. rewrite Hp, !fmap_app. simpl. solve_Permutation.
Qed.

Lemma fail_all_ids now jobId message retry q :
  all_ids (fail now jobId message retry q).2 ≡ₚ all_ids q.
Proof.
  unfold fail. destruct (findIndex jobId (processing q)) as [i|] eqn:F;
    [|reflexivity].
  destruct (findIndex_Some _ _ _ F) as (l1 & j & l2 & Hp & <- & _ & _).
  rewrite Hp, lookup_middle_job, delete_middle_job. simpl.
  rewrite all_ids_checkDone.
  destruct (retry && _); rewrite all_ids_emit;
    unfold all_ids, ids; simpl; rewrite Hp, !fmap_app; simpl;
    solve_Permutation.
Qed.

Lemma retryFailed_all_ids q : all_ids (retryFailed q).2 ≡ₚ all_ids q.
Proof.
  rewrite retryFailed_eq. unfold all_ids, ids. simpl.
  rewrite fmap_app, <- list_fmap_compose.
  change (job_id ∘ reset_job) with job_id. solve_Permutation.
Qed.

Lemma addBulk_loop_all_ids now jobs : forall added q,
  NoDup (all_ids q) ->
  let q1 := (addBulk_loop now jobs added q).2 in
  NoDup (all_ids q1)
  /\ (forall x, x ∈ all_ids q1 <-> x ∈ all_ids q \/ x ∈ d_id <$> jobs).
Proof.
  induction jobs as [|job rest IH]; intros added q Hnd; simpl.
  - split; [assumption|]. intros x. rewrite elem_of_nil. tauto.
  - pose proof (add_all_ids now job q) as Hadd.
    destruct (add now job q) as [ok q1] eqn:E. simpl in Hadd.
    assert (Hnd1 : NoDup (all_ids q1)).
    { rewrite Hadd. destruct (exists_ (d_id job) q) eqn:Ex.
      - now rewrite app_nil_r.
      - apply exists_false in Ex. apply NoDup_app. split_and!; auto.
        + intros x Hx. rewrite list_elem_of_singleton. congruence.
        + apply NoDup_singleton. }
    destruct (IH (if ok then S added else added) q1 Hnd1) as [Hn Hm].
    split; [assumption|]. intros x. rewrite Hm, Hadd, elem_of_app, elem_of_cons.
    destruct (exists_ (d_id job) q) eqn:Ex.
    + apply exists_elem in Ex. rewrite elem_of_nil.
      split; [tauto|]. intros [H|[->|H]]; auto.
    + rewrite list_elem_of_singleton. tauto.
Qed.

(** Each call keeps the ids apart and only adds the ids it was offered. *)
Lemma apply_op_ids op q :
  NoDup (all_ids q) ->
  NoDup (all_ids (apply_op op q))
  /\ (forall x, x ∈ all_ids (apply_op op q) <-> x ∈ all_ids q \/ x ∈ offered op).
Proof.
  intros Hnd.
  assert (Hperm : forall q1, all_ids q1 ≡ₚ all_ids q ->
            NoDup (all_ids q1)
            /\ (forall x, x ∈ all_ids q1 <-> x ∈ all_ids q \/ x ∈ @nil string)).
  { intros q1 Hp. split; [now rewrite Hp|].
    intros x. rewrite Hp, elem_of_nil. tauto. }
  destruct op; simpl.
  - destruct (addBulk_loop_all_ids now [job] 0 q Hnd) as [H1 H2].
    simpl in H1, H2. destruct (add now job q); auto.
  - apply addBulk_loop_all_ids; assumption.
  - apply Hperm, getNext_all_ids.
  - apply Hperm, complete_all_ids.
  - apply Hperm, fail_all_ids.
  - apply Hperm. reflexivity.
  - apply Hperm. reflexivity.
  - apply Hperm, retryFailed_all_ids.
Qed.

Lemma run_ids ops : forall q,
  NoDup (all_ids q) ->
  NoDup (all_ids (run ops q))
  /\ (forall x, x ∈ all_ids (run ops q)
                <-> x ∈ all_ids q \/ x ∈ concat (offered <$> ops)).
Proof.
  unfold run. induction ops as [|op ops IH]; intros q Hnd; simpl.
  - split; [assumption|]. intros x. rewrite elem_of_nil. tauto.
  - destruct (apply_op_ids op q Hnd) as [H1 H2].
    destruct (IH _ H1) as [H3 H4]. split; [assumption|].
    intros x. rewrite H4, H2, elem_of_app. tauto.
Qed.

Lemma NoDup_pairwise_disjoint q : NoDup (all_ids q) -> pairwise_disjoint q.
Proof.
  unfold all_ids, pairwise_disjoint, disjoint_ids. intros H.
  apply NoDup_app in H. destruct H as (_ & H12 & H).
  apply NoDup_app in H. destruct H as (_ & H23 & H).
  apply NoDup_app in H. destruct H as (_ & H34 & _).
  split_and!; intros x Hx Hy.
  - apply (H12 x Hx). rewrite !elem_of_app. auto.
  - apply (H12 x Hx). rewrite !elem_of_app. auto.
  - apply (H12 x Hx). rewrite !elem_of_app. auto.
  - apply (H23 x Hx). rewrite !elem_of_app. auto.
  - apply (H23 x Hx). rewrite !elem_of_app. auto.
  - apply (H34 x Hx Hy).
Qed.

Lemma pairwise_disjoint_one_partition q x :
  pairwise_disjoint q -> x ∈ all_ids q -> partitions_holding x q = 1.
Proof.
  unfold pairwise_disjoint, disjoint_ids, all_ids, partitions_holding.
  intros (H12 & H13 & H14 & H23 & H24 & H34) Hx.
  rewrite !elem_of_app in Hx.
  rewrite !filter_cons, filter_nil.
  unfold not in *.
  repeat case_decide; simpl; try reflexivity; exfalso; try tauto; eauto.
Qed.

(** C2. From a queue whose partitions share no id (the empty queue of the
    constructor is one), any sequence of [add], [addBulk], [getNext],
    [complete], [fail], [pause], [resume] and [retryFailed] calls leads to
    a queue whose four partitions are pairwise disjoint, which holds exactly
    the ids it held before together with the ids offered to [add] and
    [addBulk], each of them in exactly one partition. *)
Theorem partition_invariant (ops : list Op) (q : JobQueue) :
  NoDup (all_ids q) ->
  let q1 := run ops q in
  NoDup (all_ids q1)
  /\ pairwise_disjoint q1
  /\ (forall x, x ∈ all_ids q1
                <-> x ∈ all_ids q \/ x ∈ concat (offered <$> ops))
  /\ (forall x, x ∈ all_ids q \/ x ∈ concat (offered <$> ops) ->
                partitions_holding x q1 = 1).
Proof.
  intros Hnd q1. destruct (run_ids ops q Hnd) as [H1 H2].
  split_and!; auto.
  - now apply NoDup_pairwise_disjoint.
  - intros x Hx. apply pairwise_disjoint_one_partition.
    + now apply NoDup_pairwise_disjoint.
    + now apply H2.
Qed.

End QueueInvariants.

Section RetryBound.

Import Queue.

Lemma attempts_ok_add now job q :
  attempts_ok q -> attempts_ok (add now job q).2.
Proof.
  unfold add, attempts_ok. destruct (exists_ (d_id job) q); simpl; auto.
  intros (Hp & Hr & Hc & Hf). split_and!; auto.
  apply Forall_app. split; [assumption|]. apply Forall_singleton. simpl. lia.
Qed.

Lemma attempts_ok_addBulk_loop now jobs : forall added q,
  attempts_ok q -> attempts_ok (addBulk_loop now jobs added q).2.
Proof.
  induction jobs as [|job rest IH]; intros added q H; simpl; [assumption|].
  pose proof (attempts_ok_add now job q H) as H1.
  destruct (add now job q) as [ok q1]. now apply IH.
Qed.

Lemma attempts_ok_checkDone q : attempts_ok q -> attempts_ok (checkDone q).
Proof. unfold checkDone. now destruct (_ && _). Qed.

Lemma attempts_ok_getNext now q :
  attempts_ok q -> attempts_ok (getNext now q).2.
Proof.
  unfold getNext. destruct (paused q || _); [auto|].
  destruct (pending q) as [|j rest] eqn:E; [auto|].
  unfold attempts_ok. rewrite E. simpl. intros (Hp & Hr & Hc & Hf).
  apply Forall_cons in Hp. destruct Hp as [Hj Hp]. split_and!; auto.
  apply Forall_app. split; [assumption|]. apply Forall_singleton. simpl. lia.
Qed.

Lemma attempts_ok_complete now jobId res q :
  attempts_ok q -> attempts_ok (complete now jobId res q).2.
Proof.
  unfold complete. destruct (findIndex jobId (processing q)) as [i|] eqn:F;
    [|auto].
  destruct (findIndex_Some _ _ _ F) as (l1 & j & l2 & Hp & <- & _ & _).
  rewrite Hp, lookup_middle_job, delete_middle_job. simpl. intros H.
  apply attempts_ok_checkDone. revert H. unfold attempts_ok. rewrite Hp. simpl.
  rewrite !Forall_app, Forall_cons, Forall_singleton. simpl. tauto.
Qed.

Lemma attempts_ok_fail now jobId message q :
  attempts_ok q -> attempts_ok (fail now jobId message true q).2.
Proof.
  unfold fail. destruct (findIndex jobId (processing q)) as [i|] eqn:F;
    [|auto].
  destruct (findIndex_Some _ _ _ F) as (l1 & j & l2 & Hp & <- & _ & _).
  rewrite Hp, lookup_middle_job, delete_middle_job. simpl. intros H.
  apply attempts_ok_checkDone. revert H. unfold attempts_ok. rewrite Hp.
  destruct (attempts j <? 3)%nat eqn:E; simpl;
    rewrite ?Forall_app, ?Forall_cons, ?Forall_singleton; simpl.
  - apply Nat.ltb_lt in E. tauto.
  - apply Nat.ltb_ge in E. intros (? & (? & ? & ?) & ? & ?).
    split_and!; auto. lia.
Qed.

Lemma attempts_ok_empty : attempts_ok Queue.empty.
Proof. unfold attempts_ok. simpl. split_and!; apply Forall_nil_2. Qed.

(** Under the calls the scraper and its workers make, a job in [failed] was
    handed out three times, whatever the configuration says. *)
Lemma worker_run_attempts ops : forall q,
  forallb worker_op ops = true -> attempts_ok q -> attempts_ok (run ops q).
Proof.
  unfold run. induction ops as [|op ops IH]; intros q Hw Hq; simpl; [assumption|].
  simpl in Hw. apply andb_true_iff in Hw. destruct Hw as [Hop Hw].
  apply IH; [assumption|].
  destruct op; simpl in *; try discriminate.
  - now apply attempts_ok_add.
  - now apply attempts_ok_addBulk_loop.
  - now apply attempts_ok_getNext.
  - now apply attempts_ok_complete.
  - subst retry. now apply attempts_ok_fail.
  - assumption.
  - assumption.
Qed.

Import Config Pool.

(** C1 (the code, for every configured value). Whatever [retryAttempts]
    the worker is configured with, 5 say, when every navigation throws it
    takes the single queued job three times and then leaves it in [failed]
    with [attempts = 3]: the limit is the literal 3 of [fail], not the
    configured value. *)
Theorem retry_limit_ignores_config (configured : nat) :
  let cfg := mkConfig 1 "./output/jobs.json" 1000 3000 0 configured in
  let s0 := mkPool (add 0 Samples.job1 Queue.empty).2
                   (Store.new (output cfg)) (Store.mkWorld ∅ [] ∅) in
  exists wk s,
    Pool.start always_throws 0 "2025-12-02T05:00:00.000Z" 10
               (Pool.new 1 cfg) s0 = Some (wk, s)
    /\ retryAttempts (config wk) = configured
    /\ pending (queue s) = [] /\ processing (queue s) = []
    /\ completed (queue s) = []
    /\ ((fun j => (job_id j, attempts j)) <$> failed (queue s)) = [("1", 3)]
    /\ times_started "1" (queue s) = 3.
Proof.
  simpl. eexists _, _. split; [vm_compute; reflexivity|].
  vm_compute. repeat split.
Qed.

End RetryBound.

(* ===================================================================== *)
(** ** Facts about the file handler *)
(* ===================================================================== *)

Section StoreFacts.

Import Store.

Lemma append_cons c s t : String c s +:+ t = String c (s +:+ t).
Proof. reflexivity. Qed.

Lemma length_append s t :
  String.length (s +:+ t) = String.length s + String.length t.
Proof.
  induction s as [|c s IH]; [reflexivity|].
  rewrite append_cons. simpl. now rewrite IH.
Qed.

Lemma starts_with_split pat : forall s,
  starts_with pat s = true -> s = pat +:+ drop_chars (String.length pat) s.
Proof.
  induction pat as [|a p IH]; intros s H; [reflexivity|].
  destruct s as [|b t]; simpl in H; [discriminate|].
  apply andb_true_iff in H. destruct H as [Hab Hp].
  apply Ascii.eqb_eq in Hab. subst b.
  rewrite append_cons. simpl. f_equal. now apply IH.
Qed.

(** [replace] rewrites the first occurrence and keeps what surrounds it. *)
Lemma replace_first_includes pat rep : forall s,
  includes pat s = true ->
  exists pre post,
    s = pre +:+ pat +:+ post /\ replace_first pat rep s = pre +:+ rep +:+ post.
Proof.
  assert (Hhere : forall s, starts_with pat s = true ->
            exists pre post,
              s = pre +:+ pat +:+ post
              /\ replace_first pat rep s = pre +:+ rep +:+ post).
  { intros s E. exists "", (drop_chars (String.length pat) s). split.
    - now apply starts_with_split.
    - destruct s; simpl; now rewrite E. }
  induction s as [|c t IH]; intros H.
  - apply Hhere. simpl in H. now rewrite orb_false_r in H.
  - destruct (starts_with pat (String c t)) eqn:E; [now apply Hhere|].
    simpl in H. rewrite E in H. simpl in H.
    destruct (IH H) as (pre & post & Hs & Hr).
    exists (String c pre), post. simpl replace_first. rewrite E.
    rewrite !append_cons, <- Hs, <- Hr. auto.
Qed.

Lemma has_char_append c s t :
  has_char c (s +:+ t) = has_char c s || has_char c t.
Proof.
  induction s as [|a s IH]; [reflexivity|].
  rewrite append_cons. simpl. now rewrite IH, orb_assoc.
Qed.

Lemma has_char_drop c n : forall s,
  has_char c s = false -> has_char c (drop_chars n s) = false.
Proof.
  induction n as [|n IH]; intros s H; [assumption|].
  destruct s as [|a t]; simpl; [reflexivity|].
  simpl in H. apply orb_false_iff in H. now apply IH.
Qed.

Lemma has_char_replace_first c pat rep : forall s,
  has_char c s = false -> has_char c rep = false ->
  has_char c (replace_first pat rep s) = false.
Proof.
  induction s as [|a t IH]; intros Hs Hr.
  - simpl. destruct (starts_with pat ""); [|reflexivity].
    rewrite has_char_append, Hr. simpl. now apply has_char_drop.
  - simpl. destruct (starts_with pat (String a t)).
    + rewrite has_char_append, Hr. simpl. now apply has_char_drop.
    + simpl in *. apply orb_false_iff in Hs. destruct Hs as [-> Hs].
      simpl. now apply IH.
Qed.

Lemma has_char_before_Z c : forall s,
  has_char c s = false -> has_char c (before_Z s) = false.
Proof.
  induction s as [|a t IH]; simpl; intros H; [reflexivity|].
  apply orb_false_iff in H. destruct H as [Ha Ht].
  destruct (Ascii.eqb a "Z"); simpl; [reflexivity|]. now rewrite Ha, IH.
Qed.

(** Characters other than [-] are not brought in by the timestamp. *)
Lemma has_char_dash_keeps c : forall s,
  c <> "-"%char -> has_char c s = false ->
  has_char c (dash_colons_dots s) = false.
Proof.
  intros s Hc. induction s as [|a t IH]; simpl; intros H; [reflexivity|].
  apply orb_false_iff in H. destruct H as [Ha Ht]. rewrite (IH Ht), orb_false_r.
  destruct (Ascii.eqb a ":" || Ascii.eqb a "."); [|assumption].
  apply Ascii.eqb_neq. congruence.
Qed.

Lemma backup_timestamp_no_slash now :
  has_char "/" now = false -> has_char "/" (backup_timestamp now) = false.
Proof.
  intros H. unfold backup_timestamp.
  apply has_char_before_Z, has_char_replace_first; [|reflexivity].
  apply has_char_dash_keeps; [discriminate|assumption].
Qed.

Lemma starts_with_append pat post : starts_with pat (pat +:+ post) = true.
Proof.
  induction pat as [|a p IH]; [reflexivity|].
  rewrite append_cons. simpl. now rewrite Ascii.eqb_refl, IH.
Qed.

Lemma drop_chars_append pat post :
  drop_chars (String.length pat) (pat +:+ post) = post.
Proof. induction pat as [|a p IH]; [reflexivity|]. now rewrite append_cons. Qed.

(** [index_of] finds an occurrence when there is one, and no occurrence
    begins before it. *)
Lemma index_of_includes pat : forall s,
  includes pat s = true ->
  exists pre post,
    s = pre +:+ pat +:+ post /\ index_of pat s = Some (String.length pre).
Proof.
  assert (Hhere : forall s, starts_with pat s = true ->
            exists pre post,
              s = pre +:+ pat +:+ post
              /\ index_of pat s = Some (String.length pre)).
  { intros s E. exists "", (drop_chars (String.length pat) s). split.
    - now apply starts_with_split.
    - destruct s; simpl; now rewrite E. }
  induction s as [|c t IH]; intros H.
  - apply Hhere. simpl in H. now rewrite orb_false_r in H.
  - destruct (starts_with pat (String c t)) eqn:E; [now apply Hhere|].
    simpl in H. rewrite E in H. simpl in H.
    destruct (IH H) as (pre & post & Hs & Hi).
    exists (String c pre), post. simpl index_of. rewrite E, Hi.
    rewrite append_cons, <- Hs. auto.
Qed.

Lemma index_of_first pat : forall s n pre' post',
  index_of pat s = Some n -> s = pre' +:+ pat +:+ post' ->
  n <= String.length pre'.
Proof.
  induction s as [|c t IH]; intros n pre' post' Hi Hdec.
  - simpl in Hi. destruct (starts_with pat ""); [|discriminate].
    inversion Hi. lia.
  - simpl in Hi. destruct (starts_with pat (String c t)) eqn:E.
    + inversion Hi. lia.
    + destruct pre' as [|c' pre'].
      * exfalso. change (String c t = pat +:+ post') in Hdec.
        rewrite Hdec, starts_with_append in E. discriminate.
      * rewrite append_cons in Hdec. inversion Hdec; subst c'.
        destruct (index_of pat t) as [m|] eqn:Em; [|discriminate].
        inversion Hi. simpl. apply le_n_S. now apply (IH m pre' post').
Qed.

(** [replace] rewrites the occurrence that [index_of] finds. *)
Lemma replace_first_at_index pat rep : forall pre post,
  index_of pat (pre +:+ pat +:+ post) = Some (String.length pre) ->
  replace_first pat rep (pre +:+ pat +:+ post) = pre +:+ rep +:+ post.
Proof.
  induction pre as [|c pre IH]; intros post Hi.
  - change (replace_first pat rep (pat +:+ post) = rep +:+ post).
    assert (E : starts_with pat (pat +:+ post) = true)
      by apply starts_with_append.
    destruct (pat +:+ post) as [|a t] eqn:Es; simpl; rewrite E;
      now rewrite <- Es, drop_chars_append.
  - rewrite !append_cons in *. simpl in Hi. simpl.
    destruct (starts_with pat (String c (pre +:+ pat +:+ post)));
      [discriminate|].
    destruct (index_of pat (pre +:+ pat +:+ post)) as [m|] eqn:Em;
      [|discriminate].
    inversion Hi; subst m. now rewrite IH.
Qed.

(** [path.dirname] of a path that ends in a name depends only on what
    comes before the name. *)
Lemma list_ascii_of_string_append s t :
  list_ascii_of_string (s +:+ t)
  = list_ascii_of_string s ++ list_ascii_of_string t.
Proof.
  induction s as [|c s IH]; [reflexivity|].
  rewrite append_cons. simpl. now rewrite IH.
Qed.

Lemma has_char_no_slash x :
  has_char "/" x = false ->
  Forall (fun c => is_slash c = false) (list_ascii_of_string x).
Proof.
  induction x as [|a t IH]; simpl; intros H; [constructor|].
  apply orb_false_iff in H. destruct H as [Ha Ht]. constructor; auto.
Qed.

Lemma drop_while_name (a m : list ascii) :
  Forall (fun c => is_slash c = false) a ->
  drop_while (fun c => negb (is_slash c)) (a ++ m)
  = drop_while (fun c => negb (is_slash c)) m.
Proof.
  induction 1 as [|c a Hc Ha IH]; [reflexivity|]. simpl. now rewrite Hc.
Qed.

Lemma drop_while_no_slash (a m : list ascii) :
  Forall (fun c => is_slash c = false) a -> a <> [] ->
  drop_while is_slash (a ++ m) = a ++ m.
Proof.
  intros Ha Hne. destruct Ha as [|c a Hc Ha]; [congruence|].
  simpl. now rewrite Hc.
Qed.

Lemma dirname_of_name pre x :
  x <> "" -> has_char "/" x = false ->
  dirname (pre +:+ x)
  = match pre with
    | EmptyString => "."
    | String c0 before =>
        match drop_while (fun c => negb (is_slash c))
                         (rev (list_ascii_of_string before)) with
        | [] => if is_slash c0 then "/" else "."
        | _ :: dir_back =>
            if is_slash c0 && (length dir_back =? 0)%nat then "//"
            else String c0 (string_of_list_ascii (rev dir_back))
        end
    end.
Proof.
  intros Hne Hx. destruct pre as [|c0 before].
  - destruct x as [|cx rx]; [congruence|].
    change ("" +:+ String cx rx) with (String cx rx). cbn [dirname].
    simpl in Hx. apply orb_false_iff in Hx. destruct Hx as [Hcx Hrx].
    pose proof (has_char_no_slash rx Hrx) as Hall.
    apply Forall_rev in Hall.
    destruct (rev (list_ascii_of_string rx)) as [|c l] eqn:E.
    + simpl. unfold is_slash. now rewrite Hcx.
    + rewrite <- (app_nil_r (c :: l)).
      rewrite (drop_while_no_slash (c :: l) []) by (auto; discriminate).
      rewrite (drop_while_name (c :: l) []) by assumption.
      simpl. unfold is_slash. now rewrite Hcx.
  - rewrite append_cons. cbn [dirname].
    rewrite list_ascii_of_string_append, rev_app_distr.
    pose proof (has_char_no_slash x Hx) as Hall. apply Forall_rev in Hall.
    assert (Hnil : rev (list_ascii_of_string x) <> []).
    { destruct x; [congruence|]. simpl. intros H.
      apply app_eq_nil in H. destruct H. discriminate. }
    rewrite drop_while_no_slash, drop_while_name by assumption.
    reflexivity.
Qed.

Lemma dirname_same_name pre x y :
  x <> "" -> has_char "/" x = false ->
  y <> "" -> has_char "/" y = false ->
  dirname (pre +:+ x) = dirname (pre +:+ y).
Proof. intros. now rewrite !dirname_of_name. Qed.

Lemma replace_first_absent pat rep : forall s,
  includes pat s = false -> replace_first pat rep s = s.
Proof.
  induction s as [|c t IH]; simpl; intros H.
  - rewrite orb_false_r in H. now rewrite H.
  - apply orb_false_iff in H. destruct H as [-> H]. now rewrite IH.
Qed.

Lemma backupPath_shape now fh :
  includes ".json" (outputPath fh) = true ->
  exists pre post,
    outputPath fh = pre +:+ ".json" +:+ post
    /\ backupPath now fh
       = pre +:+ ("-backup-" +:+ backup_timestamp now +:+ ".json") +:+ post.
Proof. intros H. unfold backupPath. now apply replace_first_includes. Qed.

Lemma backupPath_fresh now fh :
  includes ".json" (outputPath fh) = true -> backupPath now fh <> outputPath fh.
Proof.
  intros H. destruct (backupPath_shape now fh H) as (pre & post & Ho & Hb).
  intros Heq. apply (f_equal String.length) in Heq.
  rewrite Hb, Ho, !length_append in Heq. simpl in Heq. lia.
Qed.

Lemma hasJob_elem jobId fh : hasJob jobId fh = true <-> jobId ∈ rec_ids (jobs fh).
Proof.
  unfold hasJob, rec_ids. induction (jobs fh) as [|j l IH]; simpl.
  - split; [discriminate | intros H; inversion H].
  - rewrite orb_true_iff, IH, elem_of_cons, String.eqb_eq.
    split; intros [H|H]; auto.
Qed.

Lemma hasJob_false jobId fh : hasJob jobId fh = false <-> jobId ∉ rec_ids (jobs fh).
Proof.
  rewrite <- hasJob_elem. destruct (hasJob jobId fh); split; congruence.
Qed.

(** The document [save] writes is a well-formed catalog as soon as the
    records held have distinct ids, and it is what the catalog file holds
    afterwards. *)
Lemma save_catalog_ok now fh w :
  files (save now fh w) !! outputPath fh = Some (Parsed (save_doc now fh))
  /\ writes (save now fh w) = writes w ++ [outputPath fh]
  /\ assoc "totalJobs" (metadata (save_doc now fh))
     = Some (JNum (length (jobs fh)))
  /\ (NoDup (rec_ids (jobs fh)) -> catalog_ok (save_doc now fh)).
Proof.
  unfold save, writeFileSync. simpl. rewrite lookup_insert_eq.
  split_and!; auto. intros H. exists (jobs fh). auto.
Qed.

End StoreFacts.

Section StoreClaims.

Import Store.

(** Making the directory touches neither the files nor the log of writes,
    and no directory is lost. *)
Lemma ensure_dir_files dir w : files (ensure_dir dir w) = files w.
Proof. unfold ensure_dir. now case_decide. Qed.

Lemma ensure_dir_writes dir w : writes (ensure_dir dir w) = writes w.
Proof. unfold ensure_dir. now case_decide. Qed.

Lemma dir_chain_head fuel dir : dir ∈ dir_chain fuel dir.
Proof. destruct fuel; simpl; apply list_elem_of_here. Qed.

Lemma ensure_dir_dirs dir w :
  dir ∈ dirs (ensure_dir dir w) /\ dirs w ⊆ dirs (ensure_dir dir w).
Proof.
  unfold ensure_dir. case_decide as H; [split; [assumption|reflexivity]|].
  simpl. split.
  - apply elem_of_union_l, elem_of_list_to_set, dir_chain_head.
  - apply union_subseteq_r.
Qed.

Lemma store_ok_save now fh w :
  NoDup (rec_ids (jobs fh)) -> store_ok (fh, save now fh w).
Proof.
  intros Hnd. split; [assumption|]. intros doc Hdoc.
  destruct (save_catalog_ok now fh w) as (Hf & _ & _ & Hok).
  change (files (save now fh w) !! outputPath fh = Some (Parsed doc)) in Hdoc.
  rewrite Hf in Hdoc. inversion Hdoc; subst. auto.
Qed.

(** [init] loads distinct ids from a well-formed catalog and writes them
    back. *)
Lemma store_ok_init now fh w :
  store_ok (fh, w) ->
  store_ok (init now fh w)
  /\ outputPath (init now fh w).1 = outputPath fh
  /\ isInitialized (init now fh w).1 = true.
Proof.
  intros [Hm Hd]. simpl in Hm, Hd. unfold init.
  split; [|split; reflexivity].
  apply (store_ok_save now (mkHandler _ _ _) (ensure_dir _ w)). simpl.
  rewrite ensure_dir_files.
  destruct (files w !! outputPath fh) as [[|doc]|] eqn:E;
    [apply NoDup_nil_2 | | assumption].
  destruct (Hd doc eq_refl) as (js & -> & _ & Hjs). assumption.
Qed.

(** The batch loop keeps the ids distinct. *)
Lemma addJobs_loop_NoDup new_jobs : forall known acc n,
  NoDup (rec_ids acc) ->
  (forall x, x ∈ known <-> x ∈ rec_ids acc) ->
  NoDup (rec_ids (addJobs_loop new_jobs known acc n).1).
Proof.
  induction new_jobs as [|job rest IH]; intros known acc n Hnd Hk; simpl;
    [assumption|].
  case_decide as Hin; [now apply IH|].
  apply IH.
  - unfold rec_ids. rewrite fmap_app. apply NoDup_app. split_and!; auto.
    + intros x Hx. simpl. rewrite list_elem_of_singleton. intros ->.
      apply Hin, Hk, Hx.
    + apply NoDup_singleton.
  - intros x. unfold rec_ids. rewrite fmap_app, elem_of_app, elem_of_union,
      elem_of_singleton, Hk. simpl. rewrite list_elem_of_singleton. tauto.
Qed.

Lemma NoDup_push_record (l : list JobRecord) job :
  NoDup (rec_ids l) -> r_id job ∉ rec_ids l -> NoDup (rec_ids (l ++ [job])).
Proof.
  intros Hnd Hn. unfold rec_ids. rewrite fmap_app. apply NoDup_app.
  split_and!; auto.
  - intros x Hx. simpl. rewrite list_elem_of_singleton. intros ->. tauto.
  - apply NoDup_singleton.
Qed.

(** Every call keeps the handler on its output path and the catalog well
    formed. *)
Lemma store_ok_apply_call c st :
  store_ok st ->
  store_ok (apply_call c st)
  /\ outputPath (apply_call c st).1 = outputPath st.1.
Proof.
  destruct st as [fh w]. intros Hst.
  assert (Hlazy : forall now,
            let st1 := if negb (isInitialized fh) then init now fh w
                       else (fh, w) in
            store_ok st1 /\ outputPath st1.1 = outputPath fh).
  { intros now. destruct (isInitialized fh); simpl; [auto|].
    destruct (store_ok_init now fh w Hst) as (H1 & H2 & _). auto. }
  destruct c as [now|now job|now new_jobs|now_name now_date|]; simpl.
  - destruct (store_ok_init now fh w Hst) as (H1 & H2 & _). auto.
  - unfold addJob. destruct (Hlazy now) as [Hok Hpath].
    destruct (if negb (isInitialized fh) then init now fh w else (fh, w))
      as [fh1 w1]. simpl in Hpath.
    destruct (hasJob (r_id job) fh1) eqn:E; [auto|].
    apply hasJob_false in E. split; [|assumption].
    apply (store_ok_save now (mkHandler _ _ _) w1). simpl.
    apply NoDup_push_record; [apply Hok | assumption].
  - unfold addJobs. destruct (Hlazy now) as [Hok Hpath].
    destruct (if negb (isInitialized fh) then init now fh w else (fh, w))
      as [fh1 w1]. simpl in Hpath.
    pose proof (addJobs_loop_NoDup new_jobs (getExistingIds fh1) (jobs fh1) 0
                  (proj1 Hok)) as Hloop.
    destruct (addJobs_loop _ _ _ _) as [js n]. simpl in Hloop.
    assert (Hjs : NoDup (rec_ids js)).
    { apply Hloop. intros x. unfold getExistingIds, rec_ids.
      now rewrite elem_of_list_to_set. }
    destruct (0 <? n)%nat; simpl; (split; [|assumption]).
    + now apply (store_ok_save now (mkHandler _ _ _) w1).
    + split; [assumption|]. apply Hok.
  - unfold backup. destruct (length (jobs fh) =? 0)%nat; [auto|].
    case_decide as Hdir; [|auto].
    split; [|reflexivity]. split; [apply Hst|].
    simpl. unfold writeFileSync. simpl. intros doc Hdoc.
    destruct (decide (backupPath now_name fh = outputPath fh)) as [Heq|Hne].
    + rewrite Heq, lookup_insert_eq in Hdoc. inversion Hdoc; subst.
      exists (jobs fh). split_and!; auto. apply Hst.
    + rewrite lookup_insert_ne in Hdoc by assumption. now apply Hst.
  - split; [|reflexivity]. split; [apply NoDup_nil_2|]. apply Hst.
Qed.

(** Over any sequence of calls, new runs included, a catalog file that
    started out absent, unparsable or well formed is well formed whenever it
    parses, and the records held have distinct ids. *)
Lemma catalog_invariant cs : forall st,
  store_ok st -> store_ok (run_calls cs st).
Proof.
  unfold run_calls. induction cs as [|c cs IH]; intros st Hst; simpl;
    [assumption|].
  apply IH. now apply store_ok_apply_call.
Qed.

Lemma store_ok_fresh path :
  store_ok (Store.new path, mkWorld ∅ [] ∅).
Proof.
  split; simpl; [apply NoDup_nil_2|]. intros doc H.
  rewrite lookup_empty in H. discriminate.
Qed.

(** C6 (amended). On an initialised handler, [addJob] of a record whose id
    is held returns [false] and changes neither the handler nor the file
    system; for an id not held it pushes the record, writes the whole
    catalog once to the output path and returns [true], and the document
    written has [totalJobs] equal to the number of records and is the
    content of the catalog file afterwards. Records with distinct ids stay
    so, and the catalog of such records is well formed. A handler not yet
    initialised first runs [init], which writes the catalog file, and then
    proceeds as above. *)
Theorem addJob_initialized (now : string) (job : JobRecord)
    (fh : FileHandler) (w : World) :
  (isInitialized fh = true ->
   let '(ok, fh1, w1) := addJob now job fh w in
   (r_id job ∈ rec_ids (jobs fh) -> ok = false /\ fh1 = fh /\ w1 = w)
   /\ (r_id job ∉ rec_ids (jobs fh) ->
       ok = true
       /\ jobs fh1 = jobs fh ++ [job]
       /\ writes w1 = writes w ++ [outputPath fh]
       /\ files w1 !! outputPath fh = Some (Parsed (save_doc now fh1))
       /\ doc_jobs (save_doc now fh1) = Some (jobs fh1)
       /\ assoc "totalJobs" (metadata (save_doc now fh1))
          = Some (JNum (length (jobs fh1))))
   /\ (NoDup (rec_ids (jobs fh)) ->
       NoDup (rec_ids (jobs fh1)) /\ catalog_ok (save_doc now fh1)))
  /\ (isInitialized fh = false ->
      addJob now job fh w = addJob now job (init now fh w).1 (init now fh w).2
      /\ isInitialized (init now fh w).1 = true
      /\ writes (init now fh w).2 = writes w ++ [outputPath fh]).
Proof.
  split.
  - intros Hi. unfold addJob. rewrite Hi. simpl.
    destruct (hasJob (r_id job) fh) eqn:E.
    + apply hasJob_elem in E. split_and!; auto; [tauto|].
      intros Hnd. split; [assumption|]. now apply save_catalog_ok.
    + apply hasJob_false in E. split_and!; [tauto| |].
      * intros _.
        destruct (save_catalog_ok now
                    (mkHandler (outputPath fh) (jobs fh ++ [job])
                               (isInitialized fh)) w) as (H1 & H2 & H3 & H4).
        simpl in *. split_and!; auto.
      * intros Hnd.
        assert (Hnd1 : NoDup (rec_ids (jobs fh ++ [job]))).
        { now apply NoDup_push_record. }
        split; [assumption|].
        now apply (save_catalog_ok now (mkHandler _ _ _) w).
  - intros Hi. unfold addJob. rewrite Hi. simpl.
    split_and!; [reflexivity..|]. now rewrite ensure_dir_writes.
Qed.

(** C9 (amended). [backup] does nothing while no record is held. Otherwise
    its path is the output path with its first [.json] replaced by
    [-backup-<timestamp>.json]. When the directory of that path stands, one
    file is written there, holding the records under a metadata object made
    of [totalJobs] and [backupDate] only; the handler is unchanged, and when
    the output path contains [.json] the backup file is not the catalog
    file, which keeps its content. [backup] makes no directory: when the
    directory of its path is missing the write throws and nothing is
    changed. The directory is that of the catalog whenever the first
    [.json] of the output path lies in its file name. *)
Theorem backup_snapshot (now_name now_date : string) (fh : FileHandler)
    (w : World) :
  (jobs fh = [] -> backup now_name now_date fh w = (fulfilled, fh, w))
  /\ (jobs fh <> [] -> dirname (backupPath now_name fh) ∉ dirs w ->
      backup now_name now_date fh w = (rejected "ENOENT", fh, w))
  /\ (jobs fh <> [] -> dirname (backupPath now_name fh) ∈ dirs w ->
      exists w1,
        backup now_name now_date fh w = (fulfilled, fh, w1)
        /\ writes w1 = writes w ++ [backupPath now_name fh]
        /\ files w1
           = <[backupPath now_name fh := Parsed (backup_doc now_date fh)]>
               (files w)
        /\ dirs w1 = dirs w
        /\ files w1 !! backupPath now_name fh
           = Some (Parsed (backup_doc now_date fh))
        /\ metadata (backup_doc now_date fh)
           = [("totalJobs", JNum (length (jobs fh)));
              ("backupDate", JStr now_date)]
        /\ doc_jobs (backup_doc now_date fh) = Some (jobs fh)
        /\ (includes ".json" (outputPath fh) = true ->
            files w1 !! outputPath fh = files w !! outputPath fh))
  /\ (includes ".json" (outputPath fh) = true ->
      backupPath now_name fh <> outputPath fh
      /\ exists pre post,
           outputPath fh = pre +:+ ".json" +:+ post
           /\ index_of ".json" (outputPath fh) = Some (String.length pre))
  /\ (forall pre post,
        outputPath fh = pre +:+ ".json" +:+ post ->
        index_of ".json" (outputPath fh) = Some (String.length pre) ->
        (forall pre' post',
           outputPath fh = pre' +:+ ".json" +:+ post' ->
           String.length pre <= String.length pre')
        /\ backupPath now_name fh
           = pre +:+ ("-backup-" +:+ backup_timestamp now_name +:+ ".json")
                 +:+ post
        /\ (has_char "/" post = false -> has_char "/" now_name = false ->
            dirname (backupPath now_name fh) = dirname (outputPath fh))).
Proof.
  unfold backup. split_and!.
  - intros ->. reflexivity.
  - intros Hne Hdir. destruct (jobs fh) as [|j l] eqn:E; [congruence|]. simpl.
    now rewrite decide_False.
  - intros Hne Hdir. destruct (jobs fh) as [|j l] eqn:E; [congruence|]. simpl.
    rewrite decide_True by assumption.
    eexists. split; [reflexivity|]. unfold writeFileSync. simpl.
    rewrite lookup_insert_eq. split_and!; auto.
    + unfold backup_doc. now rewrite E.
    + unfold backup_doc. now rewrite E.
    + intros Hinc. apply lookup_insert_ne. now apply backupPath_fresh.
  - intros Hinc. split; [now apply backupPath_fresh|].
    now apply index_of_includes.
  - intros pre post Ho Hi.
    assert (Hb : backupPath now_name fh
                 = pre +:+ ("-backup-" +:+ backup_timestamp now_name
                                       +:+ ".json") +:+ post).
    { unfold backupPath. rewrite Ho in Hi |- *.
      now apply replace_first_at_index. }
    split_and!.
    + intros pre' post' Hdec. now apply (index_of_first _ _ _ _ _ Hi Hdec).
    + exact Hb.
    + intros Hpost Hnow. rewrite Hb, Ho. apply dirname_same_name.
      * discriminate.
      * rewrite !has_char_append, Hpost.
        now rewrite (backup_timestamp_no_slash now_name Hnow).
      * discriminate.
      * now rewrite has_char_append, Hpost.
Qed.

End StoreClaims.

Section StoreCounterexamples.

Import Store.

(** C6 (as stated). A handler that was never initialised, over a catalog
    file that holds the record with id 1: [addJob] of that record loads the
    file, rewrites it, and returns [false]. Read with "stored" as held in
    memory, the id is fresh and [true] was promised; read with "stored" as
    present in the catalog, the rejection was promised to write nothing. *)
Lemma addJob_uninitialized_counterexample :
  let path := "./output/jobs.json" in
  let rec1 := mkRecord "1" "IT Support" [] in
  let fh0 := Store.new path in
  let w0 :=
    mkWorld {[ path := Parsed (save_doc "2025-12-02T05:00:00.000Z"
                                        (mkHandler path [rec1] true)) ]} []
            {["./output"]} in
  ~ add_as_stated stored_in_memory "2025-12-03T05:00:00.000Z" rec1 fh0 w0
  /\ ~ add_as_stated stored_on_disk "2025-12-03T05:00:00.000Z" rec1 fh0 w0.
Proof.
  intros path rec1 fh0 w0.
  assert (Hrun : exists fh1 w1,
            addJob "2025-12-03T05:00:00.000Z" rec1 fh0 w0 = (false, fh1, w1)
            /\ jobs fh1 = [rec1] /\ writes w1 = [path]).
  { exists (addJob "2025-12-03T05:00:00.000Z" rec1 fh0 w0).1.2,
           (addJob "2025-12-03T05:00:00.000Z" rec1 fh0 w0).2.
    split_and!; vm_compute; reflexivity. }
  destruct Hrun as (fh1 & w1 & Hrun & Hj & Hw).
  split; unfold add_as_stated; rewrite Hrun.
  - unfold stored_in_memory, hasJob, fh0. simpl. intros [H _]. discriminate.
  - unfold stored_on_disk, fh0, w0. simpl. rewrite lookup_singleton_eq. simpl.
    rewrite Hw. intros [_ H]. discriminate.
Qed.

(** C9 (as stated). A handler holding one record: the backup file written
    carries [totalJobs] and [backupDate] but neither [lastUpdated] nor
    [version], so it does not have the catalog's metadata shape. *)
Lemma backup_shape_counterexample :
  let path := "./output/jobs.json" in
  let rec1 := mkRecord "1" "IT Support" [] in
  let fh := mkHandler path [rec1] true in
  let w := save "2025-12-02T05:00:00.000Z" fh (mkWorld ∅ [] {["./output"]}) in
  dirname (backupPath "2025-12-02T06:00:00.000Z" fh) ∈ dirs w
  /\ ~ backup_as_stated "2025-12-02T06:00:00.000Z" "2025-12-02T06:00:00.001Z"
                        fh w.
Proof.
  intros path rec1 fh w.
  assert (Hdir : dirname (backupPath "2025-12-02T06:00:00.000Z" fh) ∈ dirs w).
  { change ("./output" ∈ ({["./output"]} : gset string)).
    now apply elem_of_singleton_2. }
  split; [exact Hdir|].
  unfold backup_as_stated, backup.
  change (length (jobs fh) =? 0)%nat with false. cbv iota zeta.
  rewrite decide_True by exact Hdir.
  intros (_ & _ & H). destruct H as (p & doc & Hw & _ & Hf & _ & Hk & _);
    [discriminate|].
  simpl in Hw. inversion Hw; subst p.
  unfold writeFileSync in Hf. simpl in Hf. rewrite lookup_insert_eq in Hf.
  inversion Hf; subst doc.
  destruct (Hk "lastUpdated") as [v Hv].
  - rewrite !elem_of_cons. auto.
  - discriminate.
Qed.

(** [backup] on an output path whose first [.json] lies in a directory
    name: the handler is initialised and holds a record, the directory of
    the catalog stands, that of the backup path does not, and the write
    throws. *)
Lemma backup_missing_directory :
  let path := "./data.json.d/jobs.json" in
  let rec1 := mkRecord "1" "IT Support" [] in
  let st := addJob "2025-12-02T05:00:00.000Z" rec1 (Store.new path)
                   (mkWorld ∅ [] ∅) in
  dirname path = "./data.json.d"
  /\ dirname (backupPath "2025-12-02T06:00:00.000Z" st.1.2)
     = "./data-backup-2025-12-02_06-00-00-000.json.d"
  /\ backup "2025-12-02T06:00:00.000Z" "2025-12-02T06:00:00.001Z"
            st.1.2 st.2
     = (rejected "ENOENT", st.1.2, st.2).
Proof. vm_compute. auto. Qed.

(** An output path without [.json] is left as it is by [replace], so the
    backup is written over the catalog file. *)
Lemma backupPath_without_json now fh :
  includes ".json" (outputPath fh) = false -> backupPath now fh = outputPath fh.
Proof. intros H. unfold backupPath. now apply replace_first_absent. Qed.

End StoreCounterexamples.

(* ===================================================================== *)
(** ** Facts about the listing walk *)
(* ===================================================================== *)

Section WalkFacts.

Import Config Crawl.

Variable cfg : Config.
Variable site : Site.
Variable now : Z.

(** The three ways a turn on a page that loaded can go. *)
Lemma walk_turn_ok u s total js pg :
  site (fetches s) u = page_ok total js pg ->
  exists s1,
    fetches s1 = S (fetches s)
    /\ jobQueue s1
       = (Queue.addBulk now
            (filter (fun job => Queue.d_id job ∉ existingIds s) js)
            (jobQueue s)).2
    /\ ((walk_turn cfg site now u s = break_loop s1
         /\ 0 < maxPages cfg <= pageNum s /\ pageNum s1 = pageNum s)
        \/ (walk_turn cfg site now u s = next_turn s1
            /\ (maxPages cfg = 0 \/ pageNum s < maxPages cfg)
            /\ has_next (page_ok total js pg) = true
            /\ truthy (currentUrl s1) = true
            /\ pageNum s1 = S (pageNum s))
        \/ (walk_turn cfg site now u s = next_turn s1
            /\ has_next (page_ok total js pg) = false
            /\ currentUrl s1 = None /\ pageNum s1 = pageNum s)).
Proof.
  intros Hs. unfold walk_turn. rewrite Hs.
  destruct (Queue.addBulk now _ (jobQueue s)) as [added q1] eqn:Eq. simpl.
  destruct ((0 <? maxPages cfg)%nat && (maxPages cfg <=? pageNum s)%nat) eqn:Ecap.
  - apply andb_true_iff in Ecap. destruct Ecap as [H1 H2].
    apply Nat.ltb_lt in H1. apply Nat.leb_le in H2.
    eexists. split_and!; [| |left; split_and!; [reflexivity|..]]; simpl; auto.
  - assert (Hcap : maxPages cfg = 0 \/ pageNum s < maxPages cfg).
    { apply andb_false_iff in Ecap. destruct Ecap as [H|H].
      - apply Nat.ltb_ge in H. lia.
      - apply Nat.leb_gt in H. lia. }
    destruct (hasNext pg && truthy (nextPageUrl pg)) eqn:En.
    + eexists. split_and!; [| |right; left; split_and!; [reflexivity|..]];
        simpl; auto.
      apply andb_true_iff in En. tauto.
    + eexists. split_and!; [| |right; right; split_and!; [reflexivity|..]];
        simpl; auto.
Qed.

(** A turn on a page that fails to load leaves the queue alone: it goes
    round again on the same url after a 5 s pause when [retryAttempts] is
    positive, and leaves the loop when it is 0. *)
Lemma walk_turn_error u s message :
  site (fetches s) u = page_error message ->
  (0 < retryAttempts cfg ->
   walk_turn cfg site now u s
   = next_turn (mkWalk (currentUrl s) (pageNum s) (jobQueue s)
                       (existingIds s) (totalJobsFound s) (S (fetches s))
                       (slept s ++ [fixed_delay 5000])))
  /\ (retryAttempts cfg = 0 ->
      walk_turn cfg site now u s
      = break_loop (mkWalk (currentUrl s) (pageNum s) (jobQueue s)
                           (existingIds s) (totalJobsFound s) (S (fetches s))
                           (slept s))).
Proof.
  intros Hs. unfold walk_turn. rewrite Hs. split; intros H.
  - apply Nat.ltb_lt in H. now rewrite H.
  - now rewrite H.
Qed.

Lemma walk_no_url fuel s :
  truthy (currentUrl s) = false -> walk cfg site now fuel s = finished s.
Proof.
  intros H. destruct fuel; cbn [walk]; destruct (currentUrl s); auto;
    now rewrite H.
Qed.

Lemma walk_step fuel s u :
  currentUrl s = Some u -> truthy (Some u) = true ->
  walk cfg site now (S fuel) s
  = match walk_turn cfg site now u s with
    | next_turn s1 => walk cfg site now fuel s1
    | break_loop s1 => finished s1
    end.
Proof. intros Hu Ht. cbn [walk]. now rewrite Hu, Ht. Qed.

(** Either no navigation throws, or a throw ends the walk. *)
Hypothesis errors_abort :
  forall k u, is_error (site k u) = true -> retryAttempts cfg = 0.

Lemma walk_abort fuel s u message :
  currentUrl s = Some u -> truthy (Some u) = true ->
  site (fetches s) u = page_error message ->
  exists s1,
    walk cfg site now (S fuel) s = finished s1
    /\ pageNum s1 = pageNum s /\ fetches s1 = S (fetches s)
    /\ jobQueue s1 = jobQueue s.
Proof.
  intros Eu Et Es. rewrite (walk_step fuel s u Eu Et).
  rewrite (proj2 (walk_turn_error u s message Es)).
  - eexists. split_and!; reflexivity.
  - apply (errors_abort (fetches s) u). now rewrite Es.
Qed.

(** With a page cap, the walk is over within [maxPages - pageNum + 1]
    turns. *)
Lemma walk_capped : forall m s,
  0 < maxPages cfg -> pageNum s + m = S (maxPages cfg) -> 0 < m ->
  exists fuel s1,
    fuel <= m /\ walk cfg site now fuel s = finished s1
    /\ pageNum s1 <= maxPages cfg /\ fetches s1 <= fetches s + m.
Proof.
  induction m as [|m IH]; intros s Hcap Hm Hpos; [lia|].
  destruct (truthy (currentUrl s)) eqn:Et.
  2:{ exists 0, s. rewrite walk_no_url by assumption. split_and!; auto; lia. }
  destruct (currentUrl s) as [u|] eqn:Eu; [|discriminate].
  destruct (site (fetches s) u) as [message|total js pg] eqn:Es.
  { destruct (walk_abort 0 s u message Eu Et Es) as (s1 & Hw & Hp & Hf & _).
    exists 1, s1. split_and!; auto; lia. }
  destruct (walk_turn_ok u s total js pg Es)
    as (s1 & Hf & _ & [(Ht & Hc & Hp)|[(Ht & Hc & _ & _ & Hp)|(Ht & _ & Hu & Hp)]]).
  - exists 1, s1. rewrite (walk_step 0 s u Eu Et), Ht. split_and!; auto; lia.
  - destruct m as [|m'].
    + lia.
    + destruct (IH s1 Hcap) as (fuel & s2 & Hle & Hw & Hp2 & Hf2); [lia|lia|].
      exists (S fuel), s2. rewrite (walk_step fuel s u Eu Et), Ht.
      split_and!; auto; lia.
  - exists 1, s1. rewrite (walk_step 0 s u Eu Et), Ht.
    rewrite walk_no_url by (now rewrite Hu). split_and!; auto; lia.
Qed.

(** Without a next page at the [k]-th navigation, the walk is over by
    then. *)
Lemma walk_exhausted k : forall n s,
  (forall u, has_next (site k u) = false) ->
  fetches s + n = k ->
  exists fuel s1,
    fuel <= S n /\ walk cfg site now fuel s = finished s1
    /\ fetches s1 <= S k.
Proof.
  intros n s Hlast. revert s.
  induction n as [|n IH]; intros s Hk.
  - destruct (truthy (currentUrl s)) eqn:Et.
    2:{ exists 0, s. rewrite walk_no_url by assumption. split_and!; auto; lia. }
    destruct (currentUrl s) as [u|] eqn:Eu; [|discriminate].
    destruct (site (fetches s) u) as [message|total js pg] eqn:Es.
    { destruct (walk_abort 0 s u message Eu Et Es) as (s1 & Hw & _ & Hf & _).
      exists 1, s1. split_and!; auto; lia. }
    assert (Hn : has_next (page_ok total js pg) = false).
    { rewrite <- Es. replace (fetches s) with k by lia. apply Hlast. }
    destruct (walk_turn_ok u s total js pg Es)
      as (s1 & Hf & _ & [(Ht & _)|[(Ht & _ & Hn' & _)|(Ht & _ & Hu & _)]]).
    + exists 1, s1. rewrite (walk_step 0 s u Eu Et), Ht. split_and!; auto; lia.
    + congruence.
    + exists 1, s1. rewrite (walk_step 0 s u Eu Et), Ht.
      rewrite walk_no_url by (now rewrite Hu). split_and!; auto; lia.
  - destruct (truthy (currentUrl s)) eqn:Et.
    2:{ exists 0, s. rewrite walk_no_url by assumption. split_and!; auto; lia. }
    destruct (currentUrl s) as [u|] eqn:Eu; [|discriminate].
    destruct (site (fetches s) u) as [message|total js pg] eqn:Es.
    { destruct (walk_abort 0 s u message Eu Et Es) as (s1 & Hw & _ & Hf & _).
      exists 1, s1. split_and!; auto; lia. }
    destruct (walk_turn_ok u s total js pg Es)
      as (s1 & Hf & _ & [(Ht & _)|[(Ht & _)|(Ht & _ & Hu & _)]]).
    + exists 1, s1. rewrite (walk_step 0 s u Eu Et), Ht. split_and!; auto; lia.
    + destruct (IH s1) as (fuel & s2 & Hle & Hw & Hf2); [lia|].
      exists (S fuel), s2. rewrite (walk_step fuel s u Eu Et), Ht.
      split_and!; auto; lia.
    + exists 1, s1. rewrite (walk_step 0 s u Eu Et), Ht.
      rewrite walk_no_url by (now rewrite Hu). split_and!; auto; lia.
Qed.

End WalkFacts.

Section WalkClaims.

Import Config Crawl.

(** C3 (amended). When no navigation throws, or [retryAttempts] is 0 so
    that a throw ends the walk, the walk ends once a page offers no next
    page, and it ends within [maxPages] pages when [maxPages] is positive;
    there is no other bound on the number of pages. *)
Theorem walk_ends_when_capped_or_exhausted (cfg : Config) (site : Site)
    (now : Z) (startUrl : string) (q : Queue.JobQueue)
    (fh : Store.FileHandler) :
  (forall k u, is_error (site k u) = true -> retryAttempts cfg = 0) ->
  (0 < maxPages cfg ->
   exists fuel s1,
     fuel <= maxPages cfg
     /\ scrapeJobListings cfg site now fuel startUrl q fh = finished s1
     /\ pageNum s1 <= maxPages cfg
     /\ fetches s1 <= maxPages cfg)
  /\ (forall k, (forall u, has_next (site k u) = false) ->
      exists fuel s1,
        fuel <= S k
        /\ scrapeJobListings cfg site now fuel startUrl q fh = finished s1
        /\ fetches s1 <= S k).
Proof.
  intros Hok. unfold scrapeJobListings. split.
  - intros Hcap.
    destruct (walk_capped cfg site now Hok (maxPages cfg)
                (walk_init startUrl q fh) Hcap)
      as (fuel & s1 & H1 & H2 & H3 & H4); simpl; try lia.
    exists fuel, s1. simpl in H4. auto.
  - intros k Hlast.
    destruct (walk_exhausted cfg site now Hok k k (walk_init startUrl q fh) Hlast)
      as (fuel & s1 & H1 & H2 & H3); [reflexivity|].
    exists fuel, s1. auto.
Qed.

(** With [maxPages = 0] and a next page on every page there is always one
    more turn. *)
Lemma walk_endless fuel : forall s,
  truthy (currentUrl s) = true ->
  exists s1, walk defaultConfig endless_site 0 fuel s = still_walking s1.
Proof.
  induction fuel as [|fuel IH]; intros s Ht.
  - destruct (currentUrl s) as [u|] eqn:Eu; [|discriminate].
    exists s. cbn [walk]. now rewrite Eu, Ht.
  - destruct (currentUrl s) as [u|] eqn:Eu; [|discriminate].
    rewrite (walk_step defaultConfig endless_site 0 fuel s u Eu Ht).
    unfold walk_turn, endless_site. simpl. apply IH. reflexivity.
Qed.

(** C3 (as stated). Under the default configuration ([maxPages = 0]) on a
    site whose every page links to a next page, the walk never ends: no
    ceiling stops it. *)
Lemma walk_endless_counterexample :
  ~ walk_terminates defaultConfig endless_site 0
      (walk_init "https://www.jobthai.com/th/jobs" Queue.empty
                 (Store.new "./output/jobs.json")).
Proof.
  intros (fuel & s1 & H).
  destruct (walk_endless fuel
              (walk_init "https://www.jobthai.com/th/jobs" Queue.empty
                         (Store.new "./output/jobs.json")) eq_refl)
    as [s2 H2].
  congruence.
Qed.

(** On a site that cannot be reached, with a positive [retryAttempts], every
    turn navigates to the same url again after a 5 s pause. *)
Lemma walk_retries_forever (cfg : Config) (now : Z) fuel : forall s,
  0 < retryAttempts cfg ->
  truthy (currentUrl s) = true ->
  walk cfg unreachable_site now fuel s
  = still_walking
      (mkWalk (currentUrl s) (pageNum s) (jobQueue s) (existingIds s)
              (totalJobsFound s) (fetches s + fuel)
              (slept s ++ repeat (fixed_delay 5000) fuel)).
Proof.
  induction fuel as [|fuel IH]; intros s Hr Ht.
  - destruct s as [[u|] ? ? ? ? ? ?]; [|discriminate]. simpl in *.
    cbn [walk currentUrl]. rewrite Ht, Nat.add_0_r, app_nil_r. reflexivity.
  - destruct (currentUrl s) as [u|] eqn:Eu; [|discriminate].
    rewrite (walk_step cfg unreachable_site now fuel s u Eu Ht).
    rewrite (proj1 (walk_turn_error cfg unreachable_site now u s
                      "Navigation timeout" eq_refl) Hr).
    rewrite IH by (simpl; rewrite ?Eu; auto). simpl.
    rewrite Eu, <- app_assoc. simpl. do 2 f_equal. lia.
Qed.

(** C4 (the code at [retryAttempts = 3]). With the default configuration
    ([retryAttempts = 3]) on a site that cannot be reached, the walk is
    still in its loop after any number of turns, having navigated to the
    start url once per turn, 5 s apart: the page is retried without bound
    and the walk never aborts. The queue is as it was. *)
Theorem page_retry_never_gives_up (now : Z) (q : Queue.JobQueue)
    (fh : Store.FileHandler) (fuel : nat) :
  retryAttempts defaultConfig = 3
  /\ scrapeJobListings defaultConfig unreachable_site now fuel
                       "https://www.jobthai.com/th/jobs" q fh
     = still_walking
         (mkWalk (Some "https://www.jobthai.com/th/jobs") 1 q
                 (Store.getExistingIds fh) 0 fuel
                 (repeat (fixed_delay 5000) fuel)).
Proof.
  split; [reflexivity|]. unfold scrapeJobListings.
  rewrite walk_retries_forever; [reflexivity| simpl; lia | reflexivity].
Qed.

(** Scenario E: [maxPages = 3] on the endless site stops after exactly three
    pages. *)
Example walk_three_pages :
  exists s1,
    scrapeJobListings Samples.three_pages
                      endless_site 0 3 "https://www.jobthai.com/th/jobs"
                      Queue.empty (Store.new "./output/jobs.json")
    = finished s1
    /\ pageNum s1 = 3 /\ fetches s1 = 3.
Proof. eexists. split; [vm_compute; reflexivity|]. split; reflexivity. Qed.

End WalkClaims.

(* ===================================================================== *)
(** ** The statements at concrete inputs *)
(* ===================================================================== *)

Section Instances.

Import Config Queue Samples.

(** Two jobs queued: offering the first again is refused, a third id is
    accepted, and a repeated offer changes no size. *)
Lemma add_dedup_witness :
  let q := (addBulk 0 [job1; job2] empty).2 in
  let job3 := mkDesc "3" "https://www.jobthai.com/th/job/3" [] in
  add 1 job1 q = (false, q)
  /\ (exists q1, add 1 job3 q = (true, q1)
                 /\ pending q1 = pending q ++ [fresh_job 1 job3])
  /\ getStats (add 2 job3 (add 1 job3 q).2).2 = getStats (add 1 job3 q).2.
Proof.
  intros q job3.
  destruct (add_dedup 1 2 job1 job1 q) as (Hdup & _ & _).
  destruct (add_dedup 1 2 job3 job3 q) as (_ & Hnew & Htwice).
  split; [|split].
  - apply Hdup. vm_compute. apply list_elem_of_here.
  - destruct Hnew as (q1 & H1 & H2 & _).
    + vm_compute. intros H. repeat (apply elem_of_cons in H; destruct H as [H|H];
        [discriminate|]). inversion H.
    + exists q1. auto.
  - apply (Htwice eq_refl).
Defined.

(** The head of a two-job queue is handed out; a paused queue hands out
    nothing. *)
Lemma getNext_fifo_witness :
  let q := (addBulk 0 [job1; job2] empty).2 in
  getNext 1 (pause q) = (None, pause q)
  /\ (exists j1 q1, getNext 1 q = (Some j1, q1)
                    /\ job_id j1 = "1" /\ attempts j1 = 1
                    /\ startedAt j1 = Some 1%Z
                    /\ url j1 = d_url job1
                    /\ preview j1 = d_preview job1
                    /\ addedAt j1 = 0%Z
                    /\ ids (pending q1) = ["2"]
                    /\ processing q1 = [j1]).
Proof.
  intros q. split.
  - apply (proj1 (getNext_fifo 1 (pause q))). left. reflexivity.
  - destruct (proj2 (getNext_fifo 1 q) (fresh_job 0 job1) [fresh_job 0 job2]
                    eq_refl eq_refl)
      as (j1 & q1 & H & _ & Hid & Hu & Hpv & Had & _ & _ & _ & _ & Ha & Hs
          & Hp & Hr & _).
    exists j1, q1. rewrite Hp. split_and!; auto.
Defined.


(** A short run from the empty queue. *)
Lemma partition_invariant_witness :
  let ops := [op_addBulk 0 [job1; job2; job1]; op_getNext 1;
              op_fail 2 "1" "Navigation timeout" true; op_getNext 3;
              op_complete 4 "1" None; op_add 5 job2] in
  let q1 := run ops empty in
  NoDup (all_ids q1)
  /\ pairwise_disjoint q1
  /\ (forall x, x ∈ all_ids q1
                <-> x ∈ all_ids empty \/ x ∈ concat (offered <$> ops))
  /\ (forall x, x ∈ all_ids empty \/ x ∈ concat (offered <$> ops) ->
                partitions_holding x q1 = 1).
Proof.
  intros ops. apply (partition_invariant ops empty). apply NoDup_nil_2.
Defined.

Import Store.

(** An initialised handler holding record 1 refuses it and takes record 2. *)
Lemma addJob_initialized_witness :
  let fh := mkHandler "./output/jobs.json" [rec1] true in
  let w := save "2025-12-02T05:00:00.000Z" fh
                (mkWorld ∅ [] {["./output"]}) in
  addJob "2025-12-02T06:00:00.000Z" rec1 fh w = (false, fh, w)
  /\ (let '(ok, fh1, w1) := addJob "2025-12-02T06:00:00.000Z" rec2 fh w in
      ok = true /\ jobs fh1 = [rec1; rec2]
      /\ writes w1 = writes w ++ ["./output/jobs.json"]).
Proof.
  intros fh w.
  pose proof (proj1 (addJob_initialized "2025-12-02T06:00:00.000Z" rec1 fh w)
                eq_refl) as H1.
  pose proof (proj1 (addJob_initialized "2025-12-02T06:00:00.000Z" rec2 fh w)
                eq_refl) as H2.
  split.
  - destruct (addJob _ rec1 fh w) as [[ok fh1] w1].
    destruct H1 as (H1 & _). destruct H1 as (-> & -> & ->); [|reflexivity].
    apply list_elem_of_here.
  - destruct (addJob _ rec2 fh w) as [[ok fh1] w1].
    destruct H2 as (_ & H2 & _). destruct H2 as (-> & -> & -> & _); [|auto].
    simpl. rewrite list_elem_of_singleton. discriminate.
Defined.

(** A backup of a one-record catalog, after [addJob] has initialised the
    handler and made the output directory. *)
Lemma backup_snapshot_witness :
  let st := addJob "2025-12-02T05:00:00.000Z" rec1
                   (Store.new "./output/jobs.json") (mkWorld ∅ [] ∅) in
  let fh := st.1.2 in
  let w := st.2 in
  (exists w1,
     backup "2025-12-02T06:00:00.000Z" "2025-12-02T06:00:00.001Z" fh w
     = (fulfilled, fh, w1)
     /\ writes w1
        = writes w ++ [backupPath "2025-12-02T06:00:00.000Z" fh]
     /\ files w1 !! "./output/jobs.json" = files w !! "./output/jobs.json")
  /\ backupPath "2025-12-02T06:00:00.000Z" fh
     = "./output/jobs-backup-2025-12-02_06-00-00-000.json"
  /\ dirname (backupPath "2025-12-02T06:00:00.000Z" fh) = "./output".
Proof.
  intros st fh w.
  destruct (backup_snapshot "2025-12-02T06:00:00.000Z"
              "2025-12-02T06:00:00.001Z" fh w)
    as (_ & _ & Hwrite & _ & Hpath).
  destruct (Hpath "./output/jobs" "" eq_refl eq_refl) as (_ & Hb & Hdir).
  split_and!.
  - destruct Hwrite as (w1 & H & Hw & _ & _ & _ & _ & _ & Hkeep).
    + intros H. vm_compute in H. discriminate.
    + apply (bool_decide_unpack _). vm_compute. exact I.
    + exists w1. split_and!; auto.
  - rewrite Hb. reflexivity.
  - rewrite (Hdir eq_refl eq_refl). reflexivity.
Defined.

Import Crawl.

(** The endless site under a cap of three pages. *)
Lemma walk_ends_when_capped_or_exhausted_witness :
  exists fuel s1,
    fuel <= 3
    /\ scrapeJobListings three_pages
                         endless_site 0 fuel "https://www.jobthai.com/th/jobs"
                         Queue.empty (Store.new "./output/jobs.json")
       = finished s1
    /\ pageNum s1 <= 3 /\ fetches s1 <= 3.
Proof.
  apply (proj1 (walk_ends_when_capped_or_exhausted
                  three_pages
                  endless_site 0 "https://www.jobthai.com/th/jobs"
                  Queue.empty (Store.new "./output/jobs.json")
                  (fun _ _ H => False_ind _ (Bool.diff_false_true H)))).
  simpl. lia.
Defined.

End Instances.

(* ===================================================================== *)
(** ** Further facts about the queue *)
(* ===================================================================== *)

Section QueueMore.

Import Queue.

(** X1. [complete] on an id that no job in [processing] has returns [false]
    and changes nothing; otherwise it takes the first job with the id out of
    [processing], stamps [completedAt], stores the result, pushes the job at
    the back of [completed] and returns [true], leaving [pending], [failed]
    and the pause flag alone. *)
Theorem complete_moves_job (now : Z) (jobId : string) (res : option string)
    (q : JobQueue) :
  (jobId ∉ ids (processing q) -> complete now jobId res q = (false, q))
  /\ (forall l1 j l2,
        processing q = l1 ++ j :: l2 -> job_id j = jobId -> jobId ∉ ids l1 ->
        exists q1,
          complete now jobId res q = (true, q1)
          /\ processing q1 = l1 ++ l2
          /\ completed q1 = completed q ++ [finish_job now res j]
          /\ job_id (finish_job now res j) = jobId
          /\ completedAt (finish_job now res j) = Some now
          /\ result (finish_job now res j) = res
          /\ attempts (finish_job now res j) = attempts j
          /\ pending q1 = pending q /\ failed q1 = failed q
          /\ paused q1 = paused q).
Proof.
  split.
  - intros H. unfold complete. apply findIndex_None in H. now rewrite H.
  - intros l1 j l2 Hp Hj Hn. unfold complete.
    rewrite Hp, (findIndex_first jobId l1 j l2 Hj Hn), lookup_middle_job,
      delete_middle_job.
    eexists. split; [reflexivity|].
    match goal with |- context [checkDone ?q0] =>
      destruct (checkDone_fields q0) as (-> & -> & -> & -> & ->) end.
    simpl. split_and!; auto.
Qed.

(** X2. A job whose ids in [processing] are distinct can be settled once:
    after a successful [complete], a second [complete] and a [fail] on the
    same id both return [false] and change nothing. *)
Theorem settle_once (now now' : Z) (jobId message : string)
    (res res' : option string) (retry : bool) (q q1 : JobQueue) :
  NoDup (ids (processing q)) ->
  complete now jobId res q = (true, q1) ->
  complete now' jobId res' q1 = (false, q1)
  /\ fail now' jobId message retry q1 = (false, q1).
Proof.
  intros Hnd Hc. unfold complete in Hc.
  destruct (findIndex jobId (processing q)) as [i|] eqn:F; [|discriminate].
  destruct (findIndex_Some _ _ _ F) as (l1 & j & l2 & Hp & <- & Hj & Hn).
  rewrite Hp, lookup_middle_job, delete_middle_job in Hc.
  inversion Hc as [Hq1]. clear Hc. rewrite Hq1.
  assert (Hgone : jobId ∉ ids (processing q1)).
  { rewrite <- Hq1.
    match goal with |- context [checkDone ?q0] =>
      destruct (checkDone_fields q0) as (_ & -> & _) end.
    simpl. rewrite Hp in Hnd. unfold ids in *. rewrite fmap_app in *.
    simpl in Hnd. apply NoDup_app in Hnd. destruct Hnd as (_ & Hd & Hnd).
    apply NoDup_cons in Hnd. destruct Hnd as [Hnd _].
    rewrite elem_of_app. subst jobId. tauto. }
  apply findIndex_None in Hgone. unfold complete, fail. now rewrite Hgone.
Qed.

Lemma add_fields now job q :
  processing (add now job q).2 = processing q
  /\ completed (add now job q).2 = completed q
  /\ failed (add now job q).2 = failed q
  /\ paused (add now job q).2 = paused q.
Proof. unfold add. destruct (exists_ (d_id job) q); simpl; auto. Qed.

Lemma addBulk_loop_grows now jobs : forall added q,
  exists new,
    pending (addBulk_loop now jobs added q).2 = pending q ++ new
    /\ (addBulk_loop now jobs added q).1 = added + length new
    /\ length new <= length jobs
    /\ processing (addBulk_loop now jobs added q).2 = processing q
    /\ completed (addBulk_loop now jobs added q).2 = completed q
    /\ failed (addBulk_loop now jobs added q).2 = failed q
    /\ Forall (fun j => (job_id j ∉ all_ids q) /\ attempts j = 0
                        /\ exists d, d ∈ jobs /\ j = fresh_job now d) new
    /\ NoDup (ids new).
Proof.
  induction jobs as [|job rest IH]; intros added q; simpl.
  - exists []. rewrite app_nil_r. split_and!; auto; try lia.
    apply NoDup_nil_2.
  - pose proof (add_fields now job q) as (Hr & Hc & Hf & _).
    pose proof (add_all_ids now job q) as Hids.
    unfold add in *. destruct (exists_ (d_id job) q) eqn:E; simpl in *.
    + destruct (IH added q) as (new & H1 & H2 & H3 & H4 & H5 & H6 & H7 & H8).
      exists new. split_and!; auto.
      eapply Forall_impl; [exact H7|]. simpl.
      intros j (Ha & Hb & d & Hd & ->). split_and!; auto.
      exists d. split; [now apply list_elem_of_further|reflexivity].
    + match goal with |- context [addBulk_loop now rest (S added) ?q0] =>
        destruct (IH (S added) q0)
          as (new & H1 & H2 & H3 & H4 & H5 & H6 & H7 & H8);
        set (q1 := q0) in * end.
      simpl in H1, H4, H5, H6.
      exists (fresh_job now job :: new).
      rewrite H1, H2, <- app_assoc. simpl.
      apply exists_false in E.
      assert (Hnew : Forall (fun j => job_id j ∈ all_ids q1 -> False) new).
      { eapply Forall_impl; [exact H7|]. simpl. tauto. }
      split_and!; auto; try lia.
      * apply Forall_cons. split.
        -- split_and!; auto. exists job. split; [apply list_elem_of_here|auto].
        -- rewrite Forall_forall in H7 |- *. intros j Hj.
           destruct (H7 j Hj) as (Ha & Hb & d & Hd & ->).
           split_and!; auto.
           ++ intros Hin. apply Ha. rewrite Hids, elem_of_app. now left.
           ++ exists d. split; [now apply list_elem_of_further|reflexivity].
      * unfold ids. simpl. apply NoDup_cons. split; [|exact H8].
        intros Hin. apply list_elem_of_fmap in Hin.
        destruct Hin as (j & Hj & Hjn).
        rewrite Forall_forall in Hnew. apply (Hnew j Hjn).
        rewrite Hids, elem_of_app. right. rewrite <- Hj.
        apply list_elem_of_here.
Qed.

(** X3. [addBulk] returns the number of jobs it pushed onto [pending]: the
    new jobs sit behind the old ones, are at most as many as the jobs
    offered, carry pairwise distinct ids that the queue did not hold, start
    with [attempts = 0], and the other three arrays are untouched. *)
Theorem addBulk_count (now : Z) (jobs : list JobDesc) (q : JobQueue) :
  exists new,
    pending (addBulk now jobs q).2 = pending q ++ new
    /\ (addBulk now jobs q).1 = length new
    /\ length new <= length jobs
    /\ processing (addBulk now jobs q).2 = processing q
    /\ completed (addBulk now jobs q).2 = completed q
    /\ failed (addBulk now jobs q).2 = failed q
    /\ Forall (fun j => (job_id j ∉ all_ids q) /\ attempts j = 0
                        /\ exists d, d ∈ jobs /\ j = fresh_job now d) new
    /\ NoDup (ids new).
Proof.
  unfold addBulk. destruct (addBulk_loop_grows now jobs 0 q) as (new & H).
  exists new. exact H.
Qed.

Lemma total_all_ids q : st_total (getStats q) = length (all_ids q).
Proof.
  unfold getStats, all_ids, ids. simpl. rewrite !length_app, !length_fmap. lia.
Qed.

(** X4. No call loses or duplicates a job: [getNext], [complete], [fail],
    [pause], [resume] and [retryFailed] leave the total reported by
    [getStats] unchanged, and [add] raises it by one exactly when it returns
    [true]. *)
Theorem stats_total_conserved (op : Op) (now : Z) (job : JobDesc)
    (q : JobQueue) :
  (offered op = [] ->
   st_total (getStats (apply_op op q)) = st_total (getStats q))
  /\ st_total (getStats (add now job q).2)
     = st_total (getStats q) + (if (add now job q).1 then 1 else 0).
Proof.
  rewrite !total_all_ids. split.
  - intros Hoff. destruct op; cbn [apply_op]; try discriminate.
    + destruct jobs; [reflexivity|discriminate].
    + now rewrite getNext_all_ids.
    + now rewrite complete_all_ids.
    + now rewrite fail_all_ids.
    + reflexivity.
    + reflexivity.
    + now rewrite retryFailed_all_ids.
  - rewrite add_all_ids, length_app. unfold add.
    destruct (exists_ (d_id job) q); simpl; lia.
Qed.

(** X5. [getNext] hands out a job exactly when [hasAvailable] says so, and
    never on a queue that [isDone]. *)
Theorem getNext_iff_hasAvailable (now : Z) (q : JobQueue) :
  (is_Some (getNext now q).1 <-> hasAvailable q = true)
  /\ (isDone q = true -> getNext now q = (None, q)).
Proof.
  unfold getNext, hasAvailable, isDone. split.
  - destruct (paused q); simpl.
    + split; [intros [x H]; discriminate | discriminate].
    + destruct (pending q) as [|j rest]; simpl.
      * split; [intros [x H]; discriminate | discriminate].
      * split; [reflexivity | intros _; eexists; reflexivity].
  - intros H. apply andb_true_iff in H. destruct H as [H _]. rewrite H.
    now rewrite orb_true_r.
Qed.

(** X6. After a successful [complete] or [fail], the last event emitted is
    [queue:done], carrying the sizes of [completed] and [failed], exactly
    when no job is left in [pending] or [processing]; otherwise it is the
    event of the job itself. *)
Theorem queue_done_signal (now : Z) (jobId message : string)
    (res : option string) (retry : bool) (q q1 : JobQueue) :
  complete now jobId res q = (true, q1)
  \/ fail now jobId message retry q = (true, q1) ->
  if isDone q1
  then last (emitted q1)
       = Some (queue_done (length (completed q1)) (length (failed q1)))
  else exists j, job_id j = jobId
                 /\ (last (emitted q1) = Some (job_completed j)
                     \/ last (emitted q1) = Some (job_retry j)
                     \/ last (emitted q1) = Some (job_failed j)).
Proof.
  assert (Hcd : forall q0 e,
            if isDone (checkDone (emit e q0))
            then last (emitted (checkDone (emit e q0)))
                 = Some (queue_done
                           (length (completed (checkDone (emit e q0))))
                           (length (failed (checkDone (emit e q0)))))
            else last (emitted (checkDone (emit e q0))) = Some e).
  { intros q0 e. unfold checkDone, isDone.
    destruct ((length (pending (emit e q0)) =? 0)%nat
              && (length (processing (emit e q0)) =? 0)%nat) eqn:E.
    - cbn [emit pending processing completed failed emitted] in *.
      rewrite E. now rewrite last_snoc.
    - rewrite E. cbn [emit emitted]. now rewrite last_snoc. }
  intros [H|H].
  - unfold complete in H.
    destruct (findIndex jobId (processing q)) as [i|] eqn:F; [|discriminate].
    destruct (findIndex_Some _ _ _ F) as (l1 & j & l2 & Hp & <- & Hj & Hn).
    rewrite Hp, lookup_middle_job, delete_middle_job in H.
    inversion H as [Hq1]. clear H.
    match goal with |- context [checkDone (emit ?e ?q0)] =>
      pose proof (Hcd q0 e) as H0 end.
    destruct (isDone _); [assumption|].
    exists (finish_job now res j). auto.
  - unfold fail in H.
    destruct (findIndex jobId (processing q)) as [i|] eqn:F; [|discriminate].
    destruct (findIndex_Some _ _ _ F) as (l1 & j & l2 & Hp & <- & Hj & Hn).
    rewrite Hp, lookup_middle_job, delete_middle_job in H. cbv zeta in H.
    inversion H as [Hq1]. clear H.
    destruct (retry && (attempts j <? 3)%nat).
    + match goal with |- context [checkDone (emit ?e ?q0)] =>
        pose proof (Hcd q0 e) as H0 end.
      destruct (isDone _); [assumption|].
      exists (mark_failed now message j). auto.
    + match goal with |- context [checkDone (emit ?e ?q0)] =>
        pose proof (Hcd q0 e) as H0 end.
      destruct (isDone _); [assumption|].
      exists (mark_failed now message j). auto.
Qed.

(** X7. Pausing only stops [getNext]: a paused queue hands out nothing,
    [complete] and [fail] do to its arrays what they do to those of the
    queue as it was, and once resumed the queue hands out the head of
    [pending] again. *)
Theorem pause_blocks_getNext_only (now : Z) (jobId message : string)
    (res : option string) (retry : bool) (q : JobQueue) :
  getNext now (pause q) = (None, pause q)
  /\ (complete now jobId res (pause q)).1 = (complete now jobId res q).1
  /\ partitions (complete now jobId res (pause q)).2
     = partitions (complete now jobId res q).2
  /\ (fail now jobId message retry (pause q)).1
     = (fail now jobId message retry q).1
  /\ partitions (fail now jobId message retry (pause q)).2
     = partitions (fail now jobId message retry q).2
  /\ (getNext now (resume (pause q))).1 = start_job now <$> head (pending q).
Proof.
  assert (Hpart : forall q0, partitions (checkDone q0) = partitions q0).
  { intros q0. unfold partitions.
    destruct (checkDone_fields q0) as (-> & -> & -> & -> & _). reflexivity. }
  split_and!.
  - reflexivity.
  - unfold complete. simpl.
    destruct (findIndex jobId (processing q)); [|reflexivity].
    destruct (processing q !! n); reflexivity.
  - unfold complete. simpl.
    destruct (findIndex jobId (processing q)); [|reflexivity].
    destruct (processing q !! n); [|reflexivity]. simpl.
    now rewrite !Hpart.
  - unfold fail. simpl.
    destruct (findIndex jobId (processing q)); [|reflexivity].
    destruct (processing q !! n); reflexivity.
  - unfold fail. simpl.
    destruct (findIndex jobId (processing q)); [|reflexivity].
    destruct (processing q !! n); [|reflexivity]. simpl.
    rewrite !Hpart. destruct (retry && _); reflexivity.
  - unfold getNext. simpl. destruct (pending q); reflexivity.
Qed.

End QueueMore.

(* ===================================================================== *)
(** ** Facts about the page queue *)
(* ===================================================================== *)

Section PageFacts.

Import Pages.

(** X8. [getNextPage] returns nothing and changes nothing on an empty page
    queue; otherwise it takes the head page, makes its number the current
    page and records it as processed, after which [addPage] with that number
    is ignored. *)
Theorem getNextPage_marks_processed (pq : PageQueue) (u : string) :
  (pages pq = [] -> getNextPage pq = (None, pq))
  /\ (forall page rest,
        pages pq = page :: rest ->
        exists pq1,
          getNextPage pq = (Some page, pq1)
          /\ pages pq1 = rest
          /\ currentPage pq1 = pageNum page
          /\ pageNum page ∈ processedPages pq1
          /\ totalPages pq1 = totalPages pq
          /\ addPage (pageNum page) u pq1 = pq1).
Proof.
  split.
  - intros H. unfold getNextPage. now rewrite H.
  - intros page rest H. unfold getNextPage. rewrite H. simpl.
    eexists. split; [reflexivity|]. simpl.
    assert (Hin : pageNum page ∈ {[pageNum page]} ∪ processedPages pq)
      by set_solver.
    split_and!; auto. unfold addPage. simpl. now rewrite decide_True.
Qed.

Lemma apply_page_op_processed op pq n :
  n ∈ processedPages pq ->
  n ∈ processedPages (apply_page_op op pq)
  /\ queued n (apply_page_op op pq) <= queued n pq.
Proof.
  intros Hn. destruct op as [total|m u| |found]; simpl.
  - split; [assumption|reflexivity].
  - unfold addPage. case_decide as Hm; [split; [assumption|reflexivity]|].
    simpl. split; [assumption|]. unfold queued. simpl.
    rewrite filter_app, length_app. simpl.
    rewrite filter_cons. simpl. case_decide as Heq.
    + subst m. contradiction.
    + rewrite filter_nil. simpl. lia.
  - unfold getNextPage. destruct (pages pq) as [|page rest] eqn:E; simpl.
    + split; [assumption|reflexivity].
    + split; [set_solver|]. unfold queued. rewrite E. simpl.
      rewrite filter_cons. case_decide; simpl; lia.
  - split; [assumption|reflexivity].
Qed.

(** X9. A page number that was processed stays processed, and whatever calls
    follow, no further page with that number enters the queue: the number of
    queued pages carrying it never grows. *)
Theorem processed_page_never_requeued (ops : list PageOp) (pq : PageQueue)
    (n : nat) :
  n ∈ processedPages pq ->
  n ∈ processedPages (run_pages ops pq)
  /\ queued n (run_pages ops pq) <= queued n pq.
Proof.
  unfold run_pages. revert pq.
  induction ops as [|op ops IH]; intros pq Hn; simpl.
  - split; [assumption|reflexivity].
  - destruct (apply_page_op_processed op pq n Hn) as [H1 H2].
    destruct (IH _ H1) as [H3 H4]. split; [assumption|lia].
Qed.

(** X10. [addPage] does not look at the pages already queued: a number not
    yet processed that is added twice to an empty page queue is handed out
    twice by [getNextPage], first with the first url, then with the
    second. *)
Theorem page_added_twice_is_handed_out_twice (n : nat) (u u' : string)
    (pq : PageQueue) :
  pages pq = [] -> n ∉ processedPages pq ->
  let pq2 := addPage n u' (addPage n u pq) in
  (getNextPage pq2).1 = Some (mkPage n u)
  /\ (getNextPage (getNextPage pq2).2).1 = Some (mkPage n u')
  /\ pages (getNextPage (getNextPage pq2).2).2 = []
  /\ current (getProgress (getNextPage (getNextPage pq2).2).2)
     = S (current (getProgress pq)).
Proof.
  intros Hp Hn pq2. subst pq2.
  assert (H1 : addPage n u pq
               = mkPageQueue (pages pq ++ [mkPage n u]) (currentPage pq)
                             (totalPages pq) (processedPages pq)
                             (page_events pq)).
  { unfold addPage. now rewrite decide_False by assumption. }
  rewrite H1. unfold addPage. simpl.
  rewrite decide_False by assumption. simpl.
  unfold getNextPage. rewrite Hp. simpl. split_and!; auto.
  unfold getProgress. simpl.
  rewrite (assoc_L (∪)), (idemp_L (∪)), size_union, size_singleton;
    [reflexivity | now apply disjoint_singleton_l].
Qed.

End PageFacts.

(* ===================================================================== *)
(** ** Further facts about the file handler *)
(* ===================================================================== *)

Section StoreMore.

Import Store.

Lemma synced_save now fh w : synced (fh, save now fh w).
Proof.
  exists (save_doc now fh). split; [|reflexivity].
  apply (save_catalog_ok now fh w).
Qed.

Lemma init_fields now fh w :
  isInitialized (init now fh w).1 = true
  /\ outputPath (init now fh w).1 = outputPath fh
  /\ synced (init now fh w).
Proof.
  unfold init. split_and!; try reflexivity.
  apply (synced_save now (mkHandler _ _ _) (ensure_dir _ w)).
Qed.

(** The batch loop appends the records it counts. *)
Lemma addJobs_loop_appends new_jobs : forall known acc n,
  exists new,
    (addJobs_loop new_jobs known acc n).1 = acc ++ new
    /\ (addJobs_loop new_jobs known acc n).2 = n + length new.
Proof.
  induction new_jobs as [|job rest IH]; intros known acc n; simpl.
  - exists []. now rewrite app_nil_r, Nat.add_0_r.
  - case_decide.
    + apply IH.
    + destruct (IH ({[r_id job]} ∪ known) (acc ++ [job]) (S n))
        as (new & H1 & H2).
      exists (job :: new). rewrite H1, H2, <- app_assoc. simpl. split; [auto|lia].
Qed.

(** Once initialised, the handler and the catalog file stay in step. *)
Lemma synced_apply_call c st :
  (isInitialized st.1 = true -> synced st) ->
  isInitialized (apply_call c st).1 = true -> synced (apply_call c st).
Proof.
  destruct st as [fh w]. simpl. intros Hst.
  assert (Hlazy : forall now,
            let st1 := if negb (isInitialized fh) then init now fh w
                       else (fh, w) in
            isInitialized st1.1 = true /\ synced st1).
  { intros now. destruct (isInitialized fh) eqn:E; simpl; [auto|].
    destruct (init_fields now fh w) as (H1 & _ & H2). auto. }
  destruct c as [now|now job|now new_jobs|now_name now_date|]; simpl.
  - intros _. apply init_fields.
  - unfold addJob. destruct (Hlazy now) as [Hi Hs].
    destruct (if negb (isInitialized fh) then init now fh w else (fh, w))
      as [fh1 w1]. simpl in Hi.
    destruct (hasJob (r_id job) fh1); intros _; [assumption|].
    apply (synced_save now (mkHandler _ _ _) w1).
  - unfold addJobs. destruct (Hlazy now) as [Hi Hs].
    destruct (if negb (isInitialized fh) then init now fh w else (fh, w))
      as [fh1 w1]. simpl in Hi.
    destruct (addJobs_loop_appends new_jobs (getExistingIds fh1) (jobs fh1) 0)
      as (new & H1 & H2).
    destruct (addJobs_loop _ _ _ _) as [js n]. simpl in H1, H2. subst js n.
    destruct new as [|r new]; simpl; intros _.
    + rewrite app_nil_r. destruct fh1; simpl in *. subst. assumption.
    + apply (synced_save now (mkHandler _ _ _) w1).
  - unfold backup. destruct (length (jobs fh) =? 0)%nat; simpl; [auto|].
    case_decide as Hdir; simpl; [|auto].
    intros Hi. destruct (Hst Hi) as (doc & Hd & Hj). unfold synced. simpl.
    destruct (decide (backupPath now_name fh = outputPath fh)) as [Heq|Hne].
    + exists (backup_doc now_date fh). rewrite Heq, lookup_insert_eq. auto.
    + exists doc. rewrite lookup_insert_ne by assumption. auto.
  - discriminate.
Qed.

Lemma synced_run_calls cs : forall st,
  (isInitialized st.1 = true -> synced st) ->
  isInitialized (run_calls cs st).1 = true -> synced (run_calls cs st).
Proof.
  unfold run_calls. induction cs as [|c cs IH]; intros st Hst; simpl;
    [assumption|].
  apply IH. now apply synced_apply_call.
Qed.

Lemma apply_call_path c st : outputPath (apply_call c st).1 = outputPath st.1.
Proof.
  destruct st as [fh w].
  destruct c as [now|now job|now new_jobs|now_name now_date|]; simpl.
  - reflexivity.
  - unfold addJob. destruct (isInitialized fh); simpl;
      destruct (hasJob _ _); reflexivity.
  - unfold addJobs. destruct (isInitialized fh); simpl;
      destruct (addJobs_loop _ _ _ _) as [js n]; destruct (0 <? n)%nat;
      reflexivity.
  - unfold backup. destruct (_ =? _)%nat; [reflexivity|].
    now case_decide.
  - reflexivity.
Qed.

Lemma run_calls_path cs : forall st,
  outputPath (run_calls cs st).1 = outputPath st.1.
Proof.
  unfold run_calls. induction cs as [|c cs IH]; intros st; simpl; [reflexivity|].
  now rewrite IH, apply_call_path.
Qed.

(** X11. Nothing held is lost by stopping: after any sequence of [init],
    [addJob], [addJobs] and [backup] calls and new runs on a handler that
    was in step with its catalog file, a new handler started on the files
    left behind loads exactly the records the initialised handler held. *)
Theorem restart_recovers_records (cs : list Call)
    (st : FileHandler * World) (now : string) :
  (isInitialized st.1 = true -> synced st) ->
  isInitialized (run_calls cs st).1 = true ->
  jobs (init now (new (outputPath st.1)) (run_calls cs st).2).1
  = jobs (run_calls cs st).1.
Proof.
  intros Hst Hi.
  destruct (synced_run_calls cs st Hst Hi) as (doc & Hd & Hj).
  rewrite run_calls_path in Hd. unfold init. simpl.
  now rewrite ensure_dir_files, Hd, Hj.
Qed.

Lemma addJob_initialized_step now job fh w :
  isInitialized fh = true ->
  addJob now job fh w
  = if hasJob (r_id job) fh then (false, fh, w)
    else (true, mkHandler (outputPath fh) (jobs fh ++ [job]) true,
          save now (mkHandler (outputPath fh) (jobs fh ++ [job]) true) w).
Proof. intros Hi. unfold addJob. rewrite Hi. simpl. now rewrite Hi. Qed.

Lemma addJobs_loop_each now new_jobs : forall fh w known n0,
  isInitialized fh = true ->
  (forall x, x ∈ known <-> x ∈ rec_ids (jobs fh)) ->
  let '(js, n) := addJobs_loop new_jobs known (jobs fh) n0 in
  let '(k, fh2, w2) := addJob_each now new_jobs fh w in
  js = jobs fh2 /\ n = n0 + k
  /\ outputPath fh2 = outputPath fh /\ isInitialized fh2 = true
  /\ files w2 = (if (0 <? k)%nat
                 then <[outputPath fh := Parsed (save_doc now fh2)]> (files w)
                 else files w)
  /\ writes w2 = writes w ++ repeat (outputPath fh) k.
Proof.
  induction new_jobs as [|job rest IH]; intros fh w known n0 Hi Hk; simpl.
  - rewrite app_nil_r. split_and!; auto.
  - rewrite (addJob_initialized_step now job fh w Hi).
    case_decide as Hin.
    + assert (Hhas : hasJob (r_id job) fh = true) by (apply hasJob_elem, Hk, Hin).
      rewrite Hhas. specialize (IH fh w known n0 Hi Hk).
      destruct (addJobs_loop rest known (jobs fh) n0) as [js n].
      destruct (addJob_each now rest fh w) as [[k fh2] w2]. exact IH.
    + assert (Hhas : hasJob (r_id job) fh = false).
      { apply hasJob_false. intros H. apply Hin, Hk, H. }
      rewrite Hhas.
      set (fh1 := mkHandler (outputPath fh) (jobs fh ++ [job]) true).
      specialize (IH fh1 (save now fh1 w) ({[r_id job]} ∪ known) (S n0) eq_refl).
      change (jobs fh ++ [job]) with (jobs fh1).
      destruct (addJobs_loop_appends rest ({[r_id job]} ∪ known) (jobs fh1)
                  (S n0)) as (new & Ha & Hb).
      destruct (addJobs_loop rest _ (jobs fh1) (S n0)) as [js n].
      simpl in Ha, Hb.
      destruct (addJob_each now rest fh1 (save now fh1 w)) as [[k fh2] w2].
      destruct IH as (H1 & H2 & H3 & H4 & H5 & H6).
      { intros x. unfold fh1, rec_ids. simpl.
        rewrite fmap_app, elem_of_app, elem_of_union, elem_of_singleton, Hk.
        simpl. rewrite list_elem_of_singleton. tauto. }
      simpl in H3, H5, H6. split_and!; auto; try lia.
      * rewrite H5. simpl. destruct (0 <? k)%nat eqn:Ek.
        -- apply insert_insert_eq.
        -- apply Nat.ltb_ge in Ek. assert (k = 0) by lia. subst k.
           assert (new = []) by (apply length_zero_iff_nil; lia). subst new.
           rewrite app_nil_r in Ha. unfold save_doc.
           now rewrite <- H1, Ha.
      * rewrite H6. simpl. rewrite <- app_assoc. reflexivity.
Qed.

(** X12. On an initialised handler [addJobs] keeps what calling [addJob] on
    each record in turn keeps: the same records in memory, the same count
    of records added, the same files; but it writes the catalog once, and
    only when a record was added, where the single calls write once per
    record added. *)
Theorem addJobs_as_single_adds (now : string) (new_jobs : list JobRecord)
    (fh : FileHandler) (w : World) :
  isInitialized fh = true ->
  let '(n, fh1, w1) := addJobs now new_jobs fh w in
  let '(k, fh2, w2) := addJob_each now new_jobs fh w in
  n = k /\ fh1 = fh2 /\ files w1 = files w2
  /\ writes w1 = writes w ++ (if (0 <? n)%nat then [outputPath fh] else [])
  /\ writes w2 = writes w ++ repeat (outputPath fh) n
  /\ length (jobs fh1) = length (jobs fh) + n.
Proof.
  intros Hi. unfold addJobs. rewrite Hi. simpl.
  pose proof (addJobs_loop_each now new_jobs fh w (getExistingIds fh) 0 Hi)
    as H.
  destruct (addJobs_loop_appends new_jobs (getExistingIds fh) (jobs fh) 0)
    as (new & Ha & Hb).
  destruct (addJobs_loop _ _ _ _) as [js n]. simpl in Ha, Hb.
  destruct (addJob_each now new_jobs fh w) as [[k fh2] w2].
  destruct H as (H1 & H2 & H3 & H4 & H5 & H6).
  { intros x. unfold getExistingIds, rec_ids. now rewrite elem_of_list_to_set. }
  simpl in H2. subst k.
  assert (Hfh : mkHandler (outputPath fh) js (isInitialized fh) = fh2).
  { destruct fh2 as [p2 j2 i2]. simpl in *. subst. now rewrite Hi. }
  assert (Hlen : length js = length (jobs fh) + n).
  { rewrite Ha, length_app. lia. }
  destruct (0 <? n)%nat eqn:En; simpl.
  - split_and!; auto.
    + rewrite H5, Hfh. reflexivity.
    + now rewrite En.
  - split_and!; auto. rewrite ?En. now rewrite app_nil_r.
Qed.

Lemma has_char_dash c : forall s,
  c = ":"%char \/ c = "."%char -> has_char c (dash_colons_dots s) = false.
Proof.
  intros s Hc. induction s as [|a t IH]; simpl; [reflexivity|].
  rewrite IH, orb_false_r.
  destruct (Ascii.eqb a ":" || Ascii.eqb a ".") eqn:E.
  - destruct Hc; subst c; reflexivity.
  - apply orb_false_iff in E. destruct E as [E1 E2].
    destruct Hc; subst c; assumption.
Qed.

Lemma before_Z_no_Z : forall s, has_char "Z" (before_Z s) = false.
Proof.
  induction s as [|a t IH]; simpl; [reflexivity|].
  destruct (Ascii.eqb a "Z") eqn:E; simpl; [reflexivity|]. now rewrite E, IH.
Qed.

(** X13. Whatever the clock string, the timestamp put into a backup file
    name holds no colon, no dot and no [Z]. *)
Theorem backup_timestamp_is_plain (now : string) :
  has_char ":" (backup_timestamp now) = false
  /\ has_char "." (backup_timestamp now) = false
  /\ has_char "Z" (backup_timestamp now) = false.
Proof.
  unfold backup_timestamp. split_and!.
  - apply has_char_before_Z, has_char_replace_first; [|reflexivity].
    apply has_char_dash. now left.
  - apply has_char_before_Z, has_char_replace_first; [|reflexivity].
    apply has_char_dash. now right.
  - apply before_Z_no_Z.
Qed.

(** X28. The catalog file never holds an id twice and never miscounts:
    starting from a handler whose records have distinct ids over a catalog
    file that is absent, unparsable or well formed, after any sequence of
    [init], [addJob], [addJobs] and [backup] calls and new runs the records
    held have distinct ids, and the catalog file, whenever it parses, holds
    records with distinct ids and a [totalJobs] equal to their number. *)
Theorem catalog_file_stays_well_formed (cs : list Call)
    (st : FileHandler * World) (doc : Document) :
  NoDup (rec_ids (jobs st.1)) ->
  (forall doc0, files st.2 !! outputPath st.1 = Some (Parsed doc0) ->
                exists js, doc_jobs doc0 = Some js
                           /\ assoc "totalJobs" (metadata doc0)
                              = Some (JNum (length js))
                           /\ NoDup (rec_ids js)) ->
  NoDup (rec_ids (jobs (run_calls cs st).1))
  /\ (files (run_calls cs st).2 !! outputPath st.1 = Some (Parsed doc) ->
      exists js, doc_jobs doc = Some js
                 /\ assoc "totalJobs" (metadata doc) = Some (JNum (length js))
                 /\ NoDup (rec_ids js)).
Proof.
  intros Hnd Hfile.
  destruct (catalog_invariant cs st (conj Hnd Hfile)) as [H1 H2].
  split; [exact H1|]. intros Hdoc. apply H2. now rewrite run_calls_path.
Qed.

End StoreMore.

(* ===================================================================== *)
(** ** Facts about the worker loop *)
(* ===================================================================== *)

Section WorkerFacts.

Import Queue Pool.

Variable scrape : Job -> string + (string * list (string * string)).
Variable now : Z.
Variable iso_now : string.

Lemma findIndex_is_Some jobId l :
  jobId ∈ ids l -> exists i, findIndex jobId l = Some i.
Proof.
  intros H. destruct (findIndex jobId l) as [i|] eqn:F; [eauto|].
  apply findIndex_None in F. contradiction.
Qed.

Lemma addJob_keeps now' job fh w :
  Store.isInitialized fh = true ->
  let '(ok, fh1, w1) := Store.addJob now' job fh w in
  Store.isInitialized fh1 = true
  /\ Store.r_id job ∈ Store.rec_ids (Store.jobs fh1)
  /\ (forall x, x ∈ Store.rec_ids (Store.jobs fh) ->
                x ∈ Store.rec_ids (Store.jobs fh1)).
Proof.
  intros Hi. unfold Store.addJob. rewrite Hi. simpl.
  destruct (Store.hasJob (Store.r_id job) fh) eqn:E.
  - apply hasJob_elem in E. auto.
  - simpl. unfold Store.rec_ids. rewrite fmap_app. split_and!; auto.
    + rewrite elem_of_app. right. apply list_elem_of_here.
    + intros x Hx. rewrite elem_of_app. now left.
Qed.

(** What one turn with a job does to the queue and the store. *)
Lemma handle_job_cases job wk q fh w :
  job_id job ∈ ids (processing q) ->
  exists wk1 q2 fh2 w2,
    handle_job scrape now iso_now job wk (mkPool q fh w) = (wk1, mkPool q2 fh2 w2)
    /\ isRunning wk1 = isRunning wk /\ config wk1 = config wk
    /\ ((exists message,
           scrape job = inl message
           /\ q2 = (fail now (job_id job) message true q).2
           /\ (fail now (job_id job) message true q).1 = true
           /\ wk1 = wk /\ fh2 = fh /\ w2 = w)
        \/ (exists title fields,
              scrape job = inr (title, fields)
              /\ q2 = (complete now (job_id job) None q).2
              /\ (complete now (job_id job) None q).1 = true
              /\ processedCount wk1 = S (processedCount wk)
              /\ (fh2, w2)
                 = (let '(_, fh1, w1) :=
                      Store.addJob iso_now
                        (Store.mkRecord (job_id job) title fields) fh w in
                    (fh1, w1)))).
Proof.
  intros Hin. destruct (findIndex_is_Some _ _ Hin) as [i Hi].
  destruct (findIndex_Some _ _ _ Hi) as (l1 & j & l2 & Hp & <- & Hj & Hn).
  unfold handle_job, processJob. destruct (scrape job) as [message|[title fields]] eqn:Es.
  - simpl. destruct (fail now (job_id job) message true q) as [ok q2] eqn:Ef.
    exists wk, q2, fh, w. split_and!; auto. left.
    exists message. rewrite ?Ef. simpl. split_and!; auto.
    unfold fail in Ef. rewrite Hi, Hp, lookup_middle_job in Ef.
    now inversion Ef.
  - simpl. destruct (Store.addJob iso_now _ fh w) as [[ok0 fh1] w1] eqn:Ea.
    simpl. destruct (complete now (job_id job) None q) as [ok q2] eqn:Ec.
    eexists _, q2, fh1, w1. split_and!; try reflexivity. right.
    exists title, fields. rewrite ?Ec, ?Ea. simpl. split_and!; auto.
    unfold complete in Ec. rewrite Hi, Hp, lookup_middle_job in Ec.
    now inversion Ec.
Qed.

Lemma getNext_cases q :
  (getNext now q = (None, q) /\ hasAvailable q = false)
  \/ (exists j rest,
        pending q = j :: rest /\ paused q = false
        /\ getNext now q
           = (Some (start_job now j),
              emit (job_started (start_job now j))
                   (mkQueue rest (processing q ++ [start_job now j])
                            (completed q) (failed q) (paused q) (emitted q)))).
Proof.
  unfold getNext, hasAvailable. destruct (paused q); simpl; [auto|].
  destruct (pending q) as [|j rest]; simpl; [auto|].
  right. exists j, rest. auto.
Qed.

Lemma complete_lengths jobId res q :
  (complete now jobId res q).1 = true ->
  length (completed (complete now jobId res q).2) = S (length (completed q))
  /\ (forall x, x ∈ ids (completed (complete now jobId res q).2)
                -> x ∈ ids (completed q) \/ x = jobId).
Proof.
  unfold complete. destruct (findIndex jobId (processing q)) as [i|] eqn:F;
    [|discriminate].
  destruct (findIndex_Some _ _ _ F) as (l1 & j & l2 & Hp & <- & Hj & Hn).
  rewrite Hp, lookup_middle_job. intros _. simpl.
  match goal with |- context [checkDone ?q0] =>
    destruct (checkDone_fields q0) as (_ & _ & -> & _) end.
  simpl. rewrite length_app. simpl. split; [lia|].
  intros x. unfold ids. rewrite fmap_app, elem_of_app. simpl.
  rewrite list_elem_of_singleton. intros [H|H]; [now left|right; congruence].
Qed.

Lemma fail_completed jobId message retry q :
  completed (fail now jobId message retry q).2 = completed q.
Proof.
  unfold fail. destruct (findIndex jobId (processing q)); [|reflexivity].
  destruct (processing q !! n); [|reflexivity]. simpl.
  match goal with |- context [checkDone ?q0] =>
    destruct (checkDone_fields q0) as (_ & _ & -> & _) end.
  destruct (retry && _); reflexivity.
Qed.

(** X14. The count a worker keeps is the number of jobs it completed:
    whenever its loop ends, [processedCount] has grown by exactly as much as
    the [completed] array. *)
Theorem processed_count_is_completed (fuel : nat) (wk wk1 : Worker)
    (s s1 : PoolState) :
  start_loop scrape now iso_now fuel wk s = Some (wk1, s1) ->
  processedCount wk1 + length (completed (queue s))
  = processedCount wk + length (completed (queue s1)).
Proof.
  revert wk s. induction fuel as [|fuel IH]; intros wk s H; simpl in H.
  - destruct (negb (isRunning wk)); [|discriminate]. now inversion H.
  - destruct (negb (isRunning wk)); [now inversion H|].
    destruct (getNext_cases (queue s)) as [[Hg _]|(j & rest & Hp & Hpa & Hg)];
      rewrite Hg in H.
    + destruct (isDone (queue s)); [now inversion H|].
      apply IH in H. simpl in H. exact H.
    + match type of H with context [handle_job _ _ _ ?job wk (mkPool ?q1 ?fh ?w)] =>
        destruct (handle_job_cases job wk q1 fh w)
          as (wk2 & q2 & fh2 & w2 & Hh & _ & _ & Hcase) end.
      { unfold ids. simpl. rewrite fmap_app, elem_of_app. right.
        apply list_elem_of_here. }
      rewrite Hh in H. apply IH in H. simpl in H.
      destruct Hcase as [(message & _ & -> & _ & -> & _)
                        |(title & fields & _ & -> & Hok & Hcnt & _)].
      * rewrite fail_completed in H. simpl in H. exact H.
      * destruct (complete_lengths _ _ _ Hok) as [Hlen _].
        rewrite Hlen in H. simpl in H. lia.
Qed.

(** X15. A job is marked completed only once its record is in the store:
    when an initialised handler holds the ids of all completed jobs before
    the loop, it holds the ids of all completed jobs when the loop ends. *)
Theorem completed_jobs_are_stored (fuel : nat) (wk wk1 : Worker)
    (s s1 : PoolState) :
  Store.isInitialized (fileHandler s) = true ->
  (forall x, x ∈ ids (completed (queue s)) ->
             x ∈ Store.rec_ids (Store.jobs (fileHandler s))) ->
  start_loop scrape now iso_now fuel wk s = Some (wk1, s1) ->
  Store.isInitialized (fileHandler s1) = true
  /\ (forall x, x ∈ ids (completed (queue s1)) ->
                x ∈ Store.rec_ids (Store.jobs (fileHandler s1))).
Proof.
  revert wk s. induction fuel as [|fuel IH]; intros wk s Hi Hs H; simpl in H.
  - destruct (negb (isRunning wk)); [|discriminate]. inversion H; subst. auto.
  - destruct (negb (isRunning wk)); [inversion H; subst; auto|].
    destruct (getNext_cases (queue s)) as [[Hg _]|(j & rest & Hp & Hpa & Hg)];
      rewrite Hg in H.
    + destruct (isDone (queue s)).
      * inversion H; subst. simpl. auto.
      * apply IH in H; auto.
    + match type of H with context [handle_job _ _ _ ?job wk (mkPool ?q1 ?fh ?w)] =>
        destruct (handle_job_cases job wk q1 fh w)
          as (wk2 & q2 & fh2 & w2 & Hh & _ & _ & Hcase) end.
      { unfold ids. simpl. rewrite fmap_app, elem_of_app. right.
        apply list_elem_of_here. }
      rewrite Hh in H. apply IH in H; [exact H| |]; simpl.
      * destruct Hcase as [(message & _ & _ & _ & _ & -> & _)
                          |(title & fields & _ & _ & _ & _ & Hst)];
          [assumption|].
        pose proof (addJob_keeps iso_now
                      (Store.mkRecord (job_id (start_job now j)) title fields)
                      (fileHandler s) (world s) Hi) as Hk.
        destruct (Store.addJob _ _ _ _) as [[ok fh1] w1].
        inversion Hst; subst. tauto.
      * destruct Hcase as [(message & _ & -> & _ & _ & -> & _)
                          |(title & fields & _ & -> & Hok & _ & Hst)].
        -- rewrite fail_completed. simpl. exact Hs.
        -- pose proof (addJob_keeps iso_now
                         (Store.mkRecord (job_id (start_job now j)) title fields)
                         (fileHandler s) (world s) Hi) as Hk.
           destruct (Store.addJob _ _ _ _) as [[ok fh1] w1].
           inversion Hst; subst. destruct Hk as (_ & Hnew & Hold).
           intros x Hx. apply (complete_lengths _ _ _ Hok) in Hx.
           simpl in Hx. destruct Hx as [Hx| ->]; [auto|exact Hnew].
Qed.

(** X16. A worker that finds no job while the queue is not done keeps
    polling: with the queue paused, or with jobs left in [processing] that
    nobody settles, its loop never ends. *)
Theorem worker_polls_forever (fuel : nat) (wk : Worker) (s : PoolState) :
  isRunning wk = true ->
  hasAvailable (queue s) = false ->
  isDone (queue s) = false ->
  start_loop scrape now iso_now fuel wk s = None.
Proof.
  intros Hr Ha Hd. revert s Ha Hd.
  induction fuel as [|fuel IH]; intros s Ha Hd; simpl; rewrite Hr; simpl;
    [reflexivity|].
  destruct (getNext_cases (queue s)) as [[Hg _]|(j & rest & Hp & Hpa & Hg)].
  - rewrite Hg, Hd. destruct s. apply IH; assumption.
  - unfold hasAvailable in Ha. rewrite Hpa, Hp in Ha. discriminate.
Qed.

Lemma complete_single res q j :
  processing q = [j] ->
  let q2 := (complete now (job_id j) res q).2 in
  processing q2 = [] /\ paused q2 = paused q /\ pending q2 = pending q
  /\ failed q2 = failed q /\ completed q2 = completed q ++ [finish_job now res j].
Proof.
  intros Hp. unfold complete. rewrite Hp. simpl. rewrite String.eqb_refl. simpl.
  match goal with |- context [checkDone ?q0] =>
    destruct (checkDone_fields q0) as (-> & -> & -> & -> & ->) end.
  simpl. auto.
Qed.

Lemma fail_single message q j :
  processing q = [j] ->
  let q2 := (fail now (job_id j) message true q).2 in
  processing q2 = [] /\ paused q2 = paused q /\ completed q2 = completed q
  /\ ((attempts j < 3 /\ pending q2 = mark_failed now message j :: pending q
       /\ failed q2 = failed q)
      \/ (3 <= attempts j /\ pending q2 = pending q
          /\ failed q2 = failed q ++ [mark_failed now message j])).
Proof.
  intros Hp. unfold fail. rewrite Hp. simpl. rewrite String.eqb_refl. simpl.
  match goal with |- context [checkDone ?q0] =>
    destruct (checkDone_fields q0) as (-> & -> & -> & -> & ->) end.
  destruct (attempts j <? 3)%nat eqn:E; simpl.
  - apply Nat.ltb_lt in E. split_and!; auto.
  - apply Nat.ltb_ge in E. split_and!; auto.
Qed.

(** On its own, with nothing in [processing], a worker empties an unpaused
    queue; each turn uses up one of the attempts the queued jobs have
    left. *)
Lemma start_loop_idle m wk q fh w :
  isRunning wk = true -> paused q = false -> pending q = [] ->
  processing q = [] ->
  start_loop scrape now iso_now (S m) wk (mkPool q fh w)
  = Some (wk, mkPool q fh w).
Proof.
  intros Hr Hpa Hp Hpr. cbn [start_loop]. rewrite Hr. cbn [negb queue].
  assert (Hg : getNext now q = (None, q)).
  { unfold getNext. now rewrite Hpa, Hp. }
  assert (Hd : isDone q = true).
  { unfold isDone. now rewrite Hp, Hpr. }
  rewrite Hg. cbn [fileHandler world]. now rewrite Hd.
Qed.

Lemma worker_loop_ends : forall m wk q fh w,
  isRunning wk = true -> paused q = false -> processing q = [] ->
  sum_list_with (fun j => Nat.max 1 (3 - attempts j)) (pending q) <= m ->
  exists wk1 s1,
    start_loop scrape now iso_now (S m) wk (mkPool q fh w) = Some (wk1, s1)
    /\ pending (queue s1) = [] /\ processing (queue s1) = []
    /\ length (completed (queue s1)) + length (failed (queue s1))
       = length (completed q) + length (failed q) + length (pending q).
Proof.
  induction m as [|m IH]; intros wk q fh w Hr Hpa Hpr Hm.
  - destruct (pending q) as [|j rest] eqn:Hp; [|simpl in Hm; lia].
    rewrite (start_loop_idle 0 wk q fh w Hr Hpa Hp Hpr).
    eexists _, _. split; [reflexivity|]. simpl. rewrite Hp, Hpr. auto.
  - destruct (pending q) as [|j rest] eqn:Hp.
    + rewrite (start_loop_idle (S m) wk q fh w Hr Hpa Hp Hpr).
      eexists _, _. split; [reflexivity|]. simpl. rewrite Hp, Hpr. auto.
    + remember (S m) as fuel. cbn [start_loop]. rewrite Hr.
      cbn [negb queue fileHandler world].
      destruct (getNext_cases q) as [[_ Ha]|(j' & rest' & Hp' & _ & Hg)].
      { unfold hasAvailable in Ha. rewrite Hpa, Hp in Ha. discriminate. }
      rewrite Hp in Hp'. inversion Hp'; subst j' rest'. clear Hp'.
      rewrite Hg, Hpr. cbn [app].
      set (j1 := start_job now j).
      set (q1 := emit (job_started j1)
                      (mkQueue rest [j1] (completed q) (failed q) (paused q)
                               (emitted q))).
      destruct (handle_job_cases j1 wk q1 fh w)
        as (wk2 & q2 & fh2 & w2 & Hh & Hr2 & _ & Hcase).
      { unfold ids. simpl. apply list_elem_of_here. }
      rewrite Hh. subst fuel.
      assert (Hq2 : paused q2 = false /\ processing q2 = []
                    /\ sum_list_with (fun j => Nat.max 1 (3 - attempts j))
                                     (pending q2) <= m
                    /\ length (completed q2) + length (failed q2)
                       + length (pending q2)
                       = length (completed q) + length (failed q)
                         + S (length rest)).
      { simpl in Hm.
        destruct Hcase as [(message & _ & -> & _)|(title & fields & _ & -> & _)].
        - destruct (fail_single message q1 j1 eq_refl)
            as (H1 & H2 & H3 & [(Ha & H4 & H5)|(Ha & H4 & H5)]);
            rewrite H1, H2, H3, H4, H5; simpl in *; rewrite ?length_app; simpl;
            split_and!; auto; lia.
        - destruct (complete_single None q1 j1 eq_refl)
            as (H1 & H2 & H3 & H4 & H5).
          rewrite H1, H2, H3, H4, H5; simpl; rewrite ?length_app; simpl.
          split_and!; auto; lia. }
      destruct Hq2 as (Hpa2 & Hpr2 & Hm2 & Hlen).
      destruct (IH wk2 q2 fh2 w2) as (wk3 & s3 & Hl & H1 & H2 & H3); auto.
      { now rewrite Hr2. }
      exists wk3, s3. split_and!; auto. simpl. lia.
Qed.

Lemma sum_cost_bound (l : list Job) :
  sum_list_with (fun j => Nat.max 1 (3 - attempts j)) l <= 3 * length l.
Proof. induction l as [|j l IH]; simpl; lia. Qed.

(** X17. A single worker started on an unpaused queue with nothing in
    [processing] always finishes, whatever the pages do: within three turns
    per pending job and one more, its loop ends with [pending] and
    [processing] empty and every job that was pending either completed or
    failed. *)
Theorem worker_finishes (id : nat) (cfg : Config.Config) (s : PoolState) :
  paused (queue s) = false ->
  processing (queue s) = [] ->
  exists wk1 s1,
    start scrape now iso_now (S (3 * length (pending (queue s))))
          (Pool.new id cfg) s = Some (wk1, s1)
    /\ isDone (queue s1) = true
    /\ pending (queue s1) = [] /\ processing (queue s1) = []
    /\ length (completed (queue s1)) + length (failed (queue s1))
       = length (completed (queue s)) + length (failed (queue s))
         + length (pending (queue s)).
Proof.
  intros Hpa Hpr. unfold start. simpl. destruct s as [q fh w]. simpl in *.
  destruct (worker_loop_ends (3 * length (pending q))
              (mkWorker id cfg true 0) q fh w eq_refl Hpa Hpr
              (sum_cost_bound (pending q)))
    as (wk1 & s1 & Hl & H1 & H2 & H3).
  exists wk1, s1. split_and!; auto. unfold isDone. now rewrite H1, H2.
Qed.

End WorkerFacts.

(* ===================================================================== *)
(** ** Further facts about the listing walk *)
(* ===================================================================== *)

Section WalkMore.

Import Config Crawl.

Variable cfg : Config.
Variable site : Site.
Variable now : Z.

Lemma add_ids_grows js : forall (known : gset string) x,
  x ∈ known -> x ∈ add_ids js known.
Proof.
  unfold add_ids. induction js as [|j js IH]; intros known x Hx; simpl;
    [assumption|].
  apply IH. apply elem_of_union. now right.
Qed.

Lemma grown_from_refl s : grown_from cfg s s.
Proof.
  unfold grown_from. split_and!; auto.
  exists []. rewrite app_nil_r. split; [reflexivity|apply Forall_nil_2].
Qed.

Lemma grown_from_trans s1 s2 s3 :
  grown_from cfg s1 s2 -> grown_from cfg s2 s3 -> grown_from cfg s1 s3.
Proof.
  intros ((n1 & Hp1 & Hf1) & Hr1 & Hc1 & Hx1 & Hk1 & Hd1 & Hn1 & Hm1)
         ((n2 & Hp2 & Hf2) & Hr2 & Hc2 & Hx2 & Hk2 & Hd2 & Hn2 & Hm2).
  unfold grown_from. split_and!; try congruence; auto; try lia.
  exists (n1 ++ n2). rewrite Hp2, Hp1, <- app_assoc. split; [reflexivity|].
  apply Forall_app. split; [assumption|].
  eapply Forall_impl; [exact Hf2|]. simpl. intros j [Ha Hb]. split; auto.
Qed.

(** A turn of the loop only adds to the queue and to the known ids. *)
Lemma walk_turn_grows u s :
  grown_from cfg s (outcome_state (walk_turn cfg site now u s)).
Proof.
  unfold walk_turn. destruct (site (fetches s) u) as [message|total js pg].
  - destruct (0 <? retryAttempts cfg)%nat; simpl;
      unfold grown_from; simpl; split_and!; auto;
      exists []; rewrite app_nil_r; (split; [reflexivity|apply Forall_nil_2]).
  - set (newJobs := filter (fun job => Queue.d_id job ∉ existingIds s) js).
    destruct (addBulk_loop_grows now newJobs 0 (jobQueue s))
      as (new & H1 & _ & _ & H4 & H5 & H6 & H7 & _).
    pose proof (fun H => proj1 (addBulk_loop_all_ids now newJobs 0
                                  (jobQueue s) H)) as Hnd.
    fold (Queue.addBulk now newJobs (jobQueue s)) in *.
    destruct (Queue.addBulk now newJobs (jobQueue s)) as [added q1].
    simpl in H1, H4, H5, H6, Hnd.
    assert (Hnew : Forall (fun j => (Queue.job_id j ∉ existingIds s)
                                    /\ Queue.attempts j = 0) new).
    { eapply Forall_impl; [exact H7|]. simpl.
      intros j (_ & Ha & d & Hd & ->). split; [|assumption]. simpl.
      apply list_elem_of_filter in Hd. tauto. }
    assert (Hcap : 0 < maxPages cfg -> pageNum s <= maxPages cfg ->
              ((0 <? maxPages cfg)%nat && (maxPages cfg <=? pageNum s)%nat)
              = false ->
              S (pageNum s) <= maxPages cfg).
    { intros H0 Hle E. apply andb_false_iff in E. destruct E as [E|E].
      - apply Nat.ltb_ge in E. lia.
      - apply Nat.leb_gt in E. lia. }
    destruct ((0 <? maxPages cfg)%nat && (maxPages cfg <=? pageNum s)%nat)
      eqn:Ecap; [|destruct (hasNext pg && truthy (nextPageUrl pg))];
      simpl; unfold grown_from; simpl; split_and!;
      eauto using add_ids_grows.
Qed.

Lemma walk_grows fuel : forall s,
  grown_from cfg s (run_state (walk cfg site now fuel s)).
Proof.
  induction fuel as [|fuel IH]; intros s; cbn [walk].
  - destruct (currentUrl s) as [u|]; [|apply grown_from_refl].
    destruct (truthy (Some u)); apply grown_from_refl.
  - destruct (currentUrl s) as [u|]; [|apply grown_from_refl].
    destruct (truthy (Some u)); [|apply grown_from_refl].
    pose proof (walk_turn_grows u s) as Ht.
    destruct (walk_turn cfg site now u s) as [s1|s1]; simpl in Ht.
    + eapply grown_from_trans; [exact Ht|apply IH].
    + exact Ht.
Qed.

(** X18. However far the listing walk gets, and whether it ends, aborts on
    an error or is still retrying, it has only pushed jobs at the back of
    [pending]: the jobs queued before are still there in order,
    [processing], [completed] and [failed] are untouched, and every job
    pushed is on its first attempt with an id that the catalog did not hold
    when the walk began. Ids that were distinct in the queue stay
    distinct. *)
Theorem walk_only_enqueues_unknown_jobs (fuel : nat) (startUrl : string)
    (q : Queue.JobQueue) (fh : Store.FileHandler) :
  let s1 := run_state (scrapeJobListings cfg site now fuel startUrl q fh) in
  (exists new,
     Queue.pending (jobQueue s1) = Queue.pending q ++ new
     /\ Forall (fun j => (Queue.job_id j ∉ Store.rec_ids (Store.jobs fh))
                         /\ Queue.attempts j = 0) new)
  /\ Queue.processing (jobQueue s1) = Queue.processing q
  /\ Queue.completed (jobQueue s1) = Queue.completed q
  /\ Queue.failed (jobQueue s1) = Queue.failed q
  /\ (NoDup (Queue.all_ids q) -> NoDup (Queue.all_ids (jobQueue s1))).
Proof.
  intros s1. subst s1. unfold scrapeJobListings.
  destruct (walk_grows fuel (walk_init startUrl q fh))
    as ((new & Hp & Hf) & Hr & Hc & Hx & _ & Hd & _).
  simpl in *. split_and!; auto.
  exists new. split; [assumption|].
  eapply Forall_impl; [exact Hf|]. simpl. intros j [Ha Hb]. split; [|assumption].
  intros Hin. apply Ha. unfold Store.getExistingIds.
  now apply elem_of_list_to_set.
Qed.

(** X19. With a positive [maxPages] the walk never moves past that page,
    whatever the site answers and however often a page is retried. *)
Theorem walk_stays_within_maxPages (fuel : nat) (startUrl : string)
    (q : Queue.JobQueue) (fh : Store.FileHandler) :
  0 < maxPages cfg ->
  1 <= pageNum (run_state (scrapeJobListings cfg site now fuel startUrl q fh))
    <= maxPages cfg.
Proof.
  intros Hmax. unfold scrapeJobListings.
  destruct (walk_grows fuel (walk_init startUrl q fh))
    as (_ & _ & _ & _ & _ & _ & Hn & Hm).
  simpl in *. split; [assumption|]. apply Hm; [assumption|lia].
Qed.

End WalkMore.

(* ===================================================================== *)
(** ** Facts about job links and the search url *)
(* ===================================================================== *)

Section LinkFacts.

Import Links.

Lemma take_digits_all_digits s : all_digits (take_digits s) = true.
Proof.
  induction s as [|c t IH]; simpl; [reflexivity|].
  destruct (is_digit c) eqn:E; simpl; [now rewrite E|reflexivity].
Qed.

Lemma match_job_id_digits s : forall d,
  match_job_id s = Some d -> all_digits d = true /\ d <> "".
Proof.
  induction s as [|c t IH]; intros d H; [discriminate|].
  cbn [match_job_id] in H.
  destruct (Store.starts_with "/job/" (String c t)); [|now apply IH].
  destruct (take_digits (Store.drop_chars 5 (String c t))) as [|a r] eqn:E;
    [now apply IH|].
  inversion H; subst d. split; [|discriminate].
  rewrite <- E. apply take_digits_all_digits.
Qed.

Lemma includes_cons_r pat c t :
  Store.includes pat t = true -> Store.includes pat (String c t) = true.
Proof. intros H. simpl. rewrite H. apply orb_true_r. Qed.

Lemma match_job_id_includes s : forall d,
  match_job_id s = Some d -> Store.includes "/job/" s = true.
Proof.
  induction s as [|c t IH]; intros d H; [discriminate|].
  cbn [match_job_id] in H.
  destruct (Store.starts_with "/job/" (String c t)) eqn:Es.
  - cbn [Store.includes]. now rewrite Es.
  - apply includes_cons_r. now apply (IH d).
Qed.

Lemma match_job_id_absolute h :
  match_job_id (absolute_url h) = match_job_id h.
Proof.
  unfold absolute_url. destruct (Store.starts_with "http" h); reflexivity.
Qed.

Lemma absolute_url_http h : Store.starts_with "http" (absolute_url h) = true.
Proof.
  unfold absolute_url. destruct (Store.starts_with "http" h) eqn:E;
    [assumption|reflexivity].
Qed.

Lemma take_digits_append d rest :
  all_digits d = true -> take_digits rest = "" ->
  take_digits (d +:+ rest) = d.
Proof.
  intros Hd Hr. induction d as [|c d IH]; [exact Hr|].
  rewrite append_cons. simpl in *. apply andb_true_iff in Hd.
  destruct Hd as [Hc Hd]. rewrite Hc. now rewrite IH.
Qed.

(** X20. The id read from the url of a job page is the job's number: for a
    non-empty run of digits followed by something that does not begin with
    a digit, [/\/job\/(\d+)/] on [https://www.jobthai.com/th/job/<digits>...]
    captures exactly those digits. *)
Theorem match_job_id_of_job_url (d rest : string) :
  all_digits d = true -> d <> "" -> take_digits rest = "" ->
  match_job_id ("https://www.jobthai.com/th/job/" +:+ d +:+ rest) = Some d.
Proof.
  intros Hd Hne Hr.
  change (match_job_id ("https://www.jobthai.com/th/job/" +:+ d +:+ rest))
    with (match take_digits (d +:+ rest) with
          | "" => match_job_id ("job/" +:+ d +:+ rest)
          | String a r => Some (String a r)
          end).
  rewrite (take_digits_append d rest Hd Hr).
  destruct d; [contradiction|reflexivity].
Qed.

Variable preview_of : string -> list (string * string).

Lemma links_loop_inv links : forall (known : gset string) jobs,
  (forall x, x ∈ known <-> x ∈ Queue.d_id <$> jobs) ->
  NoDup (Queue.d_id <$> jobs) ->
  Forall (fun d => all_digits (Queue.d_id d) = true /\ Queue.d_id d <> ""
                   /\ Store.starts_with "http" (Queue.d_url d) = true
                   /\ match_job_id (Queue.d_url d) = Some (Queue.d_id d)) jobs ->
  let out := links_loop preview_of links known jobs in
  NoDup (Queue.d_id <$> out)
  /\ Forall (fun d => all_digits (Queue.d_id d) = true /\ Queue.d_id d <> ""
                      /\ Store.starts_with "http" (Queue.d_url d) = true
                      /\ match_job_id (Queue.d_url d) = Some (Queue.d_id d))
            out
  /\ (forall x, x ∈ Queue.d_id <$> out
                <-> x ∈ Queue.d_id <$> jobs
                    \/ exists l h, l ∈ links /\ href l = attr_value h
                                   /\ match_job_id h = Some x).
Proof.
  induction links as [|link rest IH]; intros known jobs Hk Hnd Hall; simpl.
  - split_and!; auto. intros x. split; [auto|].
    intros [H|(l & h & Hl & _)]; [assumption|]. inversion Hl.
  - assert (Hskip :
      (forall x h, href link = attr_value h -> match_job_id h = Some x ->
                   x ∈ Queue.d_id <$> jobs) ->
      let out := links_loop preview_of rest known jobs in
      NoDup (Queue.d_id <$> out)
      /\ Forall (fun d => all_digits (Queue.d_id d) = true
                          /\ Queue.d_id d <> ""
                          /\ Store.starts_with "http" (Queue.d_url d) = true
                          /\ match_job_id (Queue.d_url d) = Some (Queue.d_id d))
                out
      /\ (forall x, x ∈ Queue.d_id <$> out
                    <-> x ∈ Queue.d_id <$> jobs
                        \/ exists l h, l ∈ link :: rest
                                       /\ href l = attr_value h
                                       /\ match_job_id h = Some x)).
    { intros Hold. destruct (IH known jobs Hk Hnd Hall) as (H1 & H2 & H3).
      split_and!; auto. intros x. rewrite H3. split.
      - intros [H|(l & h & Hl & Hh & Hm)]; [now left|right].
        exists l, h. split; [now apply list_elem_of_further|auto].
      - intros [H|(l & h & Hl & Hh & Hm)]; [now left|].
        apply elem_of_cons in Hl. destruct Hl as [ ->|Hl].
        + left. eapply Hold; eauto.
        + right. exists l, h. auto. }
    destruct (href link) as [| |h] eqn:Eh.
    + apply Hskip. intros x h H. discriminate.
    + apply Hskip. intros x h H. discriminate.
    + destruct (String.eqb h "" || negb (Store.includes "/job/" h)) eqn:Eg.
      { apply Hskip. intros x h' H Hm. inversion H; subst h'.
        apply orb_true_iff in Eg. destruct Eg as [Eg|Eg].
        - apply String.eqb_eq in Eg. subst h. discriminate.
        - rewrite (match_job_id_includes h x Hm) in Eg. discriminate. }
      destruct (match_job_id h) as [jobId|] eqn:Em.
      2:{ apply Hskip. intros x h' H Hm. inversion H; subst h'. congruence. }
      case_decide as Hin.
      { apply Hskip. intros x h' H Hm. inversion H; subst h'.
        rewrite Em in Hm. inversion Hm; subst x. now apply Hk. }
      destruct (match_job_id_digits h jobId Em) as [Hd Hne].
      destruct (IH ({[jobId]} ∪ known)
                   (jobs ++ [Queue.mkDesc jobId (absolute_url h)
                               (preview_of match textContent link with
                                           | Some t => t
                                           | None => ""
                                           end)]))
        as (H1 & H2 & H3).
      * intros x. rewrite fmap_app, elem_of_app, elem_of_union,
          elem_of_singleton, Hk. simpl. rewrite list_elem_of_singleton. tauto.
      * rewrite fmap_app. apply NoDup_app. split_and!; auto.
        -- intros x Hx. simpl. rewrite list_elem_of_singleton. intros ->.
           apply Hin, Hk, Hx.
        -- apply NoDup_singleton.
      * apply Forall_app. split; [assumption|]. apply Forall_singleton.
        simpl. split_and!; auto.
        -- apply absolute_url_http.
        -- now rewrite match_job_id_absolute.
      * split_and!; auto. intros x. rewrite H3, fmap_app, elem_of_app. simpl.
        rewrite list_elem_of_singleton. split.
        -- intros [[H| ->]|(l & h' & Hl & Hh & Hm)].
           ++ now left.
           ++ right. exists link, h. split; [apply list_elem_of_here|auto].
           ++ right. exists l, h'. split; [now apply list_elem_of_further|auto].
        -- intros [H|(l & h' & Hl & Hh & Hm)]; [now left; left|].
           apply elem_of_cons in Hl. destruct Hl as [ ->|Hl].
           ++ left. right. rewrite Eh in Hh. inversion Hh; subst h'. congruence.
           ++ right. exists l, h'. auto.
Qed.

(** X21. When the driver answers the link query, [extractJobsFromPage]
    returns each job once: the ids are pairwise distinct non-empty runs of
    digits, every url is absolute and carries the id of its job, and the ids
    returned are exactly those that some link's [href] yields. *)
Theorem extracted_jobs_are_distinct (links : list Link)
    (elements : list (option string)) :
  let out := extractJobsFromPage preview_of (Some links) elements in
  NoDup (Queue.d_id <$> out)
  /\ Forall (fun d => all_digits (Queue.d_id d) = true /\ Queue.d_id d <> ""
                      /\ Store.starts_with "http" (Queue.d_url d) = true
                      /\ match_job_id (Queue.d_url d) = Some (Queue.d_id d))
            out
  /\ (forall x, x ∈ Queue.d_id <$> out
                <-> exists l h, l ∈ links /\ href l = attr_value h
                                /\ match_job_id h = Some x).
Proof.
  simpl. destruct (links_loop_inv links ∅ []) as (H1 & H2 & H3).
  - intros x. simpl. rewrite elem_of_nil. split; [|tauto].
    intros H. now apply not_elem_of_empty in H.
  - apply NoDup_nil_2.
  - apply Forall_nil_2.
  - split_and!; auto. intros x. rewrite H3. simpl. rewrite elem_of_nil. tauto.
Qed.

Lemma parseJobList_ids elements : forall x,
  x ∈ (parseJobList elements).*1
  <-> exists u, Some u ∈ elements /\ match_job_id u = Some x.
Proof.
  induction elements as [|[u|] rest IH]; intros x; simpl.
  - rewrite elem_of_nil. split; [tauto|]. intros (u & H & _). inversion H.
  - assert (Hrest : (exists u0, Some u0 ∈ rest /\ match_job_id u0 = Some x)
                    -> exists u0, Some u0 ∈ Some u :: rest
                                  /\ match_job_id u0 = Some x).
    { intros (u0 & H & Hm). exists u0. split; [now apply list_elem_of_further|auto]. }
    destruct (String.eqb u "") eqn:Eu.
    + apply String.eqb_eq in Eu. subst u. rewrite IH. split; [auto|].
      intros (u0 & H & Hm). apply elem_of_cons in H. destruct H as [H|H].
      * inversion H; subst u0. discriminate.
      * exists u0. auto.
    + rewrite match_job_id_absolute.
      destruct (match_job_id u) as [jobId|] eqn:Em; simpl.
      * rewrite elem_of_cons, IH. split.
        -- intros [ ->|H]; [|auto]. exists u. split; [apply list_elem_of_here|auto].
        -- intros (u0 & H & Hm). apply elem_of_cons in H. destruct H as [H|H].
           ++ inversion H; subst u0. left. congruence.
           ++ right. exists u0. auto.
      * rewrite IH. split; [auto|].
        intros (u0 & H & Hm). apply elem_of_cons in H. destruct H as [H|H].
        -- inversion H; subst u0. congruence.
        -- exists u0. auto.
  - rewrite IH. split.
    + intros (u0 & H & Hm). exists u0. split; [now apply list_elem_of_further|auto].
    + intros (u0 & H & Hm). apply elem_of_cons in H. destruct H as [H|H];
        [discriminate|]. exists u0. auto.
Qed.

Lemma parseJobList_keeps_all elements :
  filter (fun job => negb (String.eqb job.1 "")
                     && negb (String.eqb job.2 "") = true)
         (parseJobList elements)
  = parseJobList elements.
Proof.
  induction elements as [|[u|] rest IH]; simpl; auto.
  destruct (String.eqb u "") eqn:Eu; [assumption|].
  destruct (match_job_id (absolute_url u)) as [jobId|] eqn:Em; [|assumption].
  rewrite filter_cons_True, IH; [reflexivity|]. simpl.
  destruct (match_job_id_digits _ _ Em) as [_ Hne].
  apply String.eqb_neq in Hne. rewrite Hne. simpl.
  unfold absolute_url. destruct (Store.starts_with "http" u).
  - now rewrite Eu.
  - reflexivity.
Qed.

(** X22. The fallback finds the same jobs as the driver: over the same
    urls, the ids [extractJobsFromPage] returns when the link query throws
    are the ids it returns when the query is answered (the fallback may list
    an id more than once). *)
Theorem fallback_finds_same_ids (urls : list string) (x : string) :
  x ∈ Queue.d_id <$>
        extractJobsFromPage preview_of None (Some <$> urls)
  <-> x ∈ Queue.d_id <$>
            extractJobsFromPage preview_of
              (Some ((fun u => mkLink (attr_value u) (Some "")) <$> urls)) [].
Proof.
  unfold extractJobsFromPage.
  rewrite parseJobList_keeps_all, <- list_fmap_compose.
  change (Queue.d_id ∘ (fun job : string * string => Queue.mkDesc job.1 job.2 []))
    with (@fst string string).
  rewrite parseJobList_ids.
  destruct (links_loop_inv
              ((fun u => mkLink (attr_value u) (Some "")) <$> urls) ∅ [])
    as (_ & _ & H3).
  - intros y. simpl. rewrite elem_of_nil. split; [|tauto].
    intros H. now apply not_elem_of_empty in H.
  - apply NoDup_nil_2.
  - apply Forall_nil_2.
  - rewrite H3. simpl. rewrite elem_of_nil. split.
    + intros (u & Hu & Hm). right.
      apply list_elem_of_fmap in Hu. destruct Hu as (u' & Heq & Hu').
      inversion Heq; subst u'.
      exists (mkLink (attr_value u) (Some "")), u. split_and!; auto.
      apply list_elem_of_fmap. exists u. auto.
    + intros [H|(l & h & Hl & Hh & Hm)]; [contradiction|].
      apply list_elem_of_fmap in Hl. destruct Hl as (u & -> & Hu).
      simpl in Hh. inversion Hh; subst h. exists u. split; [|assumption].
      apply list_elem_of_fmap. exists u. auto.
Qed.

End LinkFacts.

Section SearchFacts.

Import Search.

Lemma hex_digit_unreserved n : unreserved (hex_digit n) = true.
Proof.
  do 16 (destruct n as [|n]; [reflexivity|]). reflexivity.
Qed.

Lemma unreserved_neq c c' :
  unreserved c = true -> unreserved c' = false -> Ascii.eqb c c' = false.
Proof.
  intros H H'. destruct (Ascii.eqb c c') eqn:E; [|reflexivity].
  apply Ascii.eqb_eq in E. congruence.
Qed.

(** The escaped text holds nothing but unreserved characters and [%]. *)
Lemma encode_has_no c s :
  unreserved c = false -> c <> "%"%char ->
  Store.has_char c (encodeURIComponent s) = false.
Proof.
  intros Hc Hp. induction s as [|a t IH]; [reflexivity|].
  cbn [encodeURIComponent]. rewrite has_char_append, IH, orb_false_r.
  destruct (unreserved a) eqn:Ea.
  - cbn [Store.has_char]. now rewrite (unreserved_neq a c Ea Hc).
  - unfold percent.
    assert (E : Ascii.eqb "%" c = false).
    { apply Ascii.eqb_neq. congruence. }
    cbn [Store.has_char].
    now rewrite E, (unreserved_neq _ c (hex_digit_unreserved _) Hc),
      (unreserved_neq _ c (hex_digit_unreserved _) Hc).
Qed.

Lemma decode_percent c t :
  decode (percent c +:+ t) = String c (decode t).
Proof.
  destruct c as [[] [] [] [] [] [] [] []]; reflexivity.
Qed.

Lemma decode_unreserved c t :
  unreserved c = true -> decode (String c t) = String c (decode t).
Proof.
  destruct c as [[] [] [] [] [] [] [] []]; intros H;
    try reflexivity; discriminate.
Qed.

Lemma decode_encode s : decode (encodeURIComponent s) = s.
Proof.
  induction s as [|c t IH]; [reflexivity|].
  cbn [encodeURIComponent]. destruct (unreserved c) eqn:E.
  - change (String c "" +:+ encodeURIComponent t)
      with (String c (encodeURIComponent t)).
    now rewrite decode_unreserved, IH.
  - now rewrite decode_percent, IH.
Qed.

(** X23. Only the custom url mode can leave the site: in every other case,
    whatever the keyword or line configured, and also when the parameter of
    the chosen mode is missing, the search url begins with
    [https://www.jobthai.com/]. *)
Theorem search_url_stays_on_site (cfg : SearchConfig) :
  mode_is "custom_url" cfg = false \/ given (custom_url cfg) = None ->
  Store.starts_with "https://www.jobthai.com/" (buildSearchUrl cfg) = true.
Proof.
  intros H. unfold buildSearchUrl.
  assert (Hrest :
    Store.starts_with "https://www.jobthai.com/"
      match mode_is "bts_mrt" cfg, given (bts_mrt cfg) with
      | true, Some line => "https://www.jobthai.com/หางาน/" +:+ line
      | _, _ =>
          match mode_is "keyword" cfg, given (keyword cfg) with
          | true, Some kw =>
              "https://www.jobthai.com/th/jobs?keyword="
              +:+ encodeURIComponent kw
          | _, _ => all_jobs_url
          end
      end = true).
  { destruct (mode_is "bts_mrt" cfg), (given (bts_mrt cfg)),
      (mode_is "keyword" cfg), (given (keyword cfg)); reflexivity. }
  destruct (mode_is "custom_url" cfg), (given (custom_url cfg));
    try exact Hrest.
  destruct H; discriminate.
Qed.

(** X24. In keyword mode the keyword is escaped into the query: the url is
    [https://www.jobthai.com/th/jobs?keyword=] followed by text that holds
    no [&], [=], [#], [?], [/], [+] or blank, so a keyword cannot add or cut
    a parameter, and different keywords give different urls. *)
Theorem keyword_url_is_escaped (cfg : SearchConfig) (kw : string) :
  mode_is "keyword" cfg = true ->
  mode_is "custom_url" cfg = false -> mode_is "bts_mrt" cfg = false ->
  given (keyword cfg) = Some kw ->
  buildSearchUrl cfg
  = "https://www.jobthai.com/th/jobs?keyword=" +:+ encodeURIComponent kw
  /\ Forall (fun c => Store.has_char c (encodeURIComponent kw) = false)
            ["&"; "="; "#"; "?"; "/"; "+"; " "]%char
  /\ (forall kw', encodeURIComponent kw' = encodeURIComponent kw -> kw' = kw).
Proof.
  intros Hk Hc Hb Hg. split_and!.
  - unfold buildSearchUrl. rewrite Hc, Hb, Hk, Hg. reflexivity.
  - repeat (apply Forall_cons; split;
            [apply encode_has_no; [reflexivity|discriminate]|]).
    apply Forall_nil_2.
  - intros kw' H. apply (f_equal decode) in H.
    now rewrite !decode_encode in H.
Qed.

End SearchFacts.

(* ===================================================================== *)
(** ** Facts about workers taking turns *)
(* ===================================================================== *)

Section PoolFacts.

Import Queue Pool Workers.

Variable scrape : Job -> string + (string * list (string * string)).
Variable now : Z.
Variable iso_now : string.

Lemma held_ids_insert (ws : list Slot) i sl sl1 :
  ws !! i = Some sl ->
  exists rest,
    held_ids ws ≡ₚ held sl ++ rest
    /\ held_ids (<[i := sl1]> ws) ≡ₚ held sl1 ++ rest.
Proof.
  intros Hi. exists (held_ids (take i ws) ++ held_ids (drop (S i) ws)).
  assert (Hlt : i < length ws) by (eapply lookup_lt_Some; eauto).
  rewrite (insert_take_drop ws i sl1 Hlt).
  rewrite <- (take_drop_middle ws i sl Hi) at 1.
  unfold held_ids. rewrite !fmap_app, !concat_app. simpl.
  split; solve_Permutation.
Qed.

Lemma fold_left_total (ws : list Slot) : forall a,
  fold_left (fun total sl => total + processedCount (worker sl)) ws a
  = a + sum_list_with (fun sl => processedCount (worker sl)) ws.
Proof.
  induction ws as [|sl ws IH]; intros a; simpl; [lia|]. rewrite IH. lia.
Qed.

Lemma total_insert (ws : list Slot) i sl sl1 :
  ws !! i = Some sl ->
  exists r,
    getTotalProcessed ws = processedCount (worker sl) + r
    /\ getTotalProcessed (<[i := sl1]> ws) = processedCount (worker sl1) + r.
Proof.
  intros Hi.
  exists (sum_list_with (fun sl => processedCount (worker sl)) (take i ws)
          + sum_list_with (fun sl => processedCount (worker sl))
                          (drop (S i) ws)).
  assert (Hlt : i < length ws) by (eapply lookup_lt_Some; eauto).
  unfold getTotalProcessed. rewrite !fold_left_total.
  rewrite (insert_take_drop ws i sl1 Hlt).
  rewrite <- (take_drop_middle ws i sl Hi) at 1.
  rewrite !sum_list_with_app. simpl. lia.
Qed.

Lemma settle_processing jobId (q q2 : JobQueue) l1 j l2 :
  processing q = l1 ++ j :: l2 -> job_id j = jobId ->
  processing q2 = l1 ++ l2 ->
  ids (processing q) ≡ₚ jobId :: ids (processing q2).
Proof.
  intros Hp Hj Hp2. rewrite Hp, Hp2. unfold ids. rewrite !fmap_app. simpl.
  rewrite Hj. solve_Permutation.
Qed.

Lemma fail_processing jobId message retry q :
  jobId ∈ ids (processing q) ->
  (fail now jobId message retry q).1 = true
  /\ ids (processing q)
     ≡ₚ jobId :: ids (processing (fail now jobId message retry q).2).
Proof.
  intros Hin. destruct (findIndex_is_Some _ _ Hin) as [i Hi].
  destruct (findIndex_Some _ _ _ Hi) as (l1 & j & l2 & Hp & <- & Hj & Hn).
  unfold fail. rewrite Hi, Hp, lookup_middle_job, delete_middle_job.
  cbv zeta. cbn [fst snd]. split; [reflexivity|].
  rewrite <- Hp. apply (settle_processing jobId q _ l1 j l2 Hp Hj).
  match goal with |- context [checkDone ?q0] =>
    destruct (checkDone_fields q0) as (_ & -> & _) end.
  destruct (retry && _); reflexivity.
Qed.

Lemma complete_processing jobId res q :
  jobId ∈ ids (processing q) ->
  (complete now jobId res q).1 = true
  /\ ids (processing q)
     ≡ₚ jobId :: ids (processing (complete now jobId res q).2).
Proof.
  intros Hin. destruct (findIndex_is_Some _ _ Hin) as [i Hi].
  destruct (findIndex_Some _ _ _ Hi) as (l1 & j & l2 & Hp & <- & Hj & Hn).
  unfold complete. rewrite Hi, Hp, lookup_middle_job, delete_middle_job.
  cbv zeta. cbn [fst snd]. split; [reflexivity|].
  rewrite <- Hp. apply (settle_processing jobId q _ l1 j l2 Hp Hj).
  match goal with |- context [checkDone ?q0] =>
    destruct (checkDone_fields q0) as (_ & -> & _) end.
  reflexivity.
Qed.

Lemma processJob_queue job s s1 :
  processJob scrape iso_now job s = inr s1 -> queue s1 = queue s.
Proof.
  unfold processJob. destruct (scrape job) as [m|[title fields]]; [discriminate|].
  destruct (Store.addJob _ _ _ _) as [[ok fh1] w1]. intros H.
  now inversion H.
Qed.

(** A turn keeps the jobs held and the jobs in [processing] in step, and
    counts one more processed job exactly when [completed] gains one. *)
Lemma turn_in_step (ws : list Slot) i sl s :
  ws !! i = Some sl -> in_step (ws, s) ->
  let '(sl1, s1) := turn scrape now iso_now sl s in
  in_step (<[i := sl1]> ws, s1)
  /\ processedCount (worker sl1) + length (completed (queue s))
     = processedCount (worker sl) + length (completed (queue s1)).
Proof.
  intros Hi [Hnd Hheld]. simpl in Hnd, Hheld.
  destruct (held_ids_insert ws i sl) with (sl1 := sl) as (rest & Hw & _);
    [assumption|].
  assert (Hins : forall sl1, held_ids (<[i := sl1]> ws) ≡ₚ held sl1 ++ rest).
  { intros sl1. destruct (held_ids_insert ws i sl sl1 Hi) as (rest' & Ha & Hb).
    rewrite Hb. apply Permutation_app_head.
    apply (Permutation_app_inv_l (held sl)). now rewrite <- Ha, <- Hw. }
  unfold turn. destruct (phase sl) as [|job|job|] eqn:Eph.
  - assert (Hsl : held sl = []) by (unfold held; now rewrite Eph).
    destruct (negb (isRunning (worker sl))).
    { split; [|reflexivity]. split; [assumption|]. simpl.
      rewrite Hins, <- Hheld, Hw, Hsl. reflexivity. }
    destruct (getNext_cases now (queue s)) as [[Hg _]|(j & r & Hp & _ & Hg)];
      rewrite Hg.
    + destruct (isDone (queue s)); (split; [|reflexivity]);
        (split; [assumption|]); simpl; rewrite Hins, <- Hheld, Hw;
        unfold held; simpl; now rewrite ?Eph.
    + split; [|reflexivity]. split; simpl.
      * pose proof (getNext_all_ids now (queue s)) as Hperm.
        rewrite Hg in Hperm. simpl in Hperm. rewrite all_ids_emit in Hperm.
        now rewrite Hperm.
      * rewrite Hins. unfold held at 1. simpl. unfold ids.
        rewrite fmap_app. simpl. fold (ids (processing (queue s))).
        rewrite <- Hheld, Hw, Hsl. simpl. solve_Permutation.
  - assert (Hsl : held sl = [job_id job]) by (unfold held; now rewrite Eph).
    assert (Hin : job_id job ∈ ids (processing (queue s))).
    { rewrite <- Hheld, Hw, Hsl. apply list_elem_of_here. }
    destruct (processJob scrape iso_now job s) as [message|s1] eqn:Ep.
    + destruct (fail_processing (job_id job) message true (queue s) Hin)
        as [_ Hperm].
      pose proof (fail_all_ids now (job_id job) message true (queue s)) as Hall.
      pose proof (fail_completed now (job_id job) message true (queue s)) as Hc.
      destruct (fail now (job_id job) message true (queue s)) as [ok q1].
      simpl in *. split; [|now rewrite Hc]. split; simpl.
      * now rewrite Hall.
      * rewrite Hins. unfold held. simpl.
        apply (Permutation_cons_inv (a := job_id job)).
        rewrite <- Hperm, <- Hheld, Hw, Hsl. reflexivity.
    + rewrite (processJob_queue job s s1 Ep). split; [|reflexivity].
      split; simpl; rewrite ?(processJob_queue job s s1 Ep); [assumption|].
      rewrite Hins, <- Hheld, Hw, Hsl. reflexivity.
  - assert (Hsl : held sl = [job_id job]) by (unfold held; now rewrite Eph).
    assert (Hin : job_id job ∈ ids (processing (queue s))).
    { rewrite <- Hheld, Hw, Hsl. apply list_elem_of_here. }
    destruct (complete_processing (job_id job) None (queue s) Hin)
      as [Hok Hperm].
    pose proof (complete_all_ids now (job_id job) None (queue s)) as Hall.
    destruct (complete_lengths now (job_id job) None (queue s) Hok) as [Hlen _].
    destruct (complete now (job_id job) None (queue s)) as [ok q1].
    simpl in *. split; [|lia]. split; simpl.
    + now rewrite Hall.
    + rewrite Hins. unfold held. simpl.
      apply (Permutation_cons_inv (a := job_id job)).
      rewrite <- Hperm, <- Hheld, Hw, Hsl. reflexivity.
  - split; [|reflexivity]. split; [assumption|]. simpl.
    now rewrite list_insert_id.
Qed.

Lemma stop_all_held ws : held_ids (stop_all ws) = held_ids ws.
Proof.
  unfold held_ids, stop_all. rewrite <- list_fmap_compose. reflexivity.
Qed.

Lemma stop_all_total ws : getTotalProcessed (stop_all ws) = getTotalProcessed ws.
Proof.
  unfold getTotalProcessed. rewrite !fold_left_total. f_equal.
  unfold stop_all. induction ws as [|sl ws IH]; [reflexivity|].
  rewrite fmap_cons. cbn [sum_list_with worker processedCount].
  now rewrite IH.
Qed.

Lemma pool_step_in_step e st :
  in_step st ->
  in_step (pool_step scrape now iso_now e st)
  /\ getTotalProcessed (pool_step scrape now iso_now e st).1
     + length (completed (queue st.2))
     = getTotalProcessed st.1
       + length (completed (queue (pool_step scrape now iso_now e st).2)).
Proof.
  destruct st as [ws s]. intros Hst. destruct e as [i|]; simpl.
  - destruct (ws !! i) as [sl|] eqn:Hi; [|auto].
    pose proof (turn_in_step ws i sl s Hi Hst) as Ht.
    destruct (turn scrape now iso_now sl s) as [sl1 s1].
    destruct Ht as [Hin Hcnt]. split; [assumption|]. simpl.
    destruct (total_insert ws i sl sl1 Hi) as (r & H1 & H2). lia.
  - split; [|now rewrite stop_all_total].
    destruct Hst as [Hnd Hh]. split; [assumption|]. simpl in *.
    now rewrite stop_all_held.
Qed.

Lemma pool_run_in_step es : forall st,
  in_step st ->
  in_step (pool_run scrape now iso_now es st)
  /\ getTotalProcessed (pool_run scrape now iso_now es st).1
     + length (completed (queue st.2))
     = getTotalProcessed st.1
       + length (completed (queue (pool_run scrape now iso_now es st).2)).
Proof.
  unfold pool_run. induction es as [|e es IH]; intros st Hst; simpl; [auto|].
  destruct (pool_step_in_step e st Hst) as [H1 H2].
  destruct (IH _ H1) as [H3 H4]. split; [assumption|]. lia.
Qed.

(** X25. No job is worked on by two workers at once: however the turns of
    the workers interleave, and whether or not the pool is stopped on the
    way, the jobs the workers hold are exactly the jobs in [processing], and
    their ids are pairwise distinct. *)
Theorem no_job_held_twice (es : list PoolEvent) (st : list Slot * PoolState) :
  in_step st ->
  let st1 := pool_run scrape now iso_now es st in
  NoDup (held_ids st1.1)
  /\ held_ids st1.1 ≡ₚ ids (processing (queue st1.2))
  /\ NoDup (all_ids (queue st1.2)).
Proof.
  intros Hst st1. destruct (pool_run_in_step es st Hst) as [[Hnd Hh] _].
  fold st1 in Hnd, Hh. split_and!; auto.
  rewrite Hh. unfold all_ids in Hnd.
  apply NoDup_app in Hnd. destruct Hnd as (_ & _ & Hnd).
  apply NoDup_app in Hnd. now destruct Hnd as (Hnd & _).
Qed.

(** X26. [getTotalProcessed] counts the completed jobs: over any
    interleaving of the workers' turns, the sum of the workers' counts grows
    by exactly the number of jobs that entered [completed]. *)
Theorem total_processed_is_completed (es : list PoolEvent)
    (st : list Slot * PoolState) :
  in_step st ->
  let st1 := pool_run scrape now iso_now es st in
  getTotalProcessed st1.1 + length (completed (queue st.2))
  = getTotalProcessed st.1 + length (completed (queue st1.2)).
Proof.
  intros Hst st1. now destruct (pool_run_in_step es st Hst) as [_ H].
Qed.

Lemma times_started_quiet jobId (q q1 : JobQueue) evs :
  emitted q1 = emitted q ++ evs ->
  Forall (fun e => match e with job_started _ => False | _ => True end) evs ->
  times_started jobId q1 = times_started jobId q.
Proof.
  intros He Hq. unfold times_started. rewrite He, filter_app, length_app.
  clear He. induction evs as [|e evs IH]; [simpl; lia|].
  apply Forall_cons in Hq. destruct Hq as [He' Hq].
  rewrite filter_cons_False; [now apply IH|].
  destruct e; try discriminate. contradiction.
Qed.

Lemma checkDone_emitted q :
  exists evs, emitted (checkDone q) = emitted q ++ evs
              /\ Forall (fun e => match e with
                                  | job_started _ => False
                                  | _ => True
                                  end) evs.
Proof.
  unfold checkDone. destruct (_ && _); simpl.
  - eexists. split; [reflexivity|]. apply Forall_singleton. exact I.
  - exists []. rewrite app_nil_r. split; [reflexivity|apply Forall_nil_2].
Qed.

Lemma settle_times_started jobId id message res :
  forall q,
    times_started jobId (fail now id message true q).2 = times_started jobId q
    /\ times_started jobId (complete now id res q).2 = times_started jobId q.
Proof.
  intros q. split.
  - unfold fail. destruct (findIndex id (processing q)); [|reflexivity].
    destruct (processing q !! n); [|reflexivity]. cbv zeta. cbn [snd].
    match goal with |- context [checkDone ?q0] =>
      destruct (checkDone_emitted q0) as (evs & He & Hq);
      rewrite (times_started_quiet jobId q0 (checkDone q0) evs He Hq) end.
    destruct (true && _); simpl;
      (eapply times_started_quiet; [reflexivity|apply Forall_singleton; exact I]).
  - unfold complete. destruct (findIndex id (processing q)); [|reflexivity].
    destruct (processing q !! n); [|reflexivity]. cbv zeta. cbn [snd].
    match goal with |- context [checkDone ?q0] =>
      destruct (checkDone_emitted q0) as (evs & He & Hq);
      rewrite (times_started_quiet jobId q0 (checkDone q0) evs He Hq) end.
    eapply times_started_quiet; [reflexivity|apply Forall_singleton; exact I].
Qed.

Lemma fail_pending_length id message retry (q : JobQueue) :
  length (pending q) <= length (pending (fail now id message retry q).2).
Proof.
  unfold fail. destruct (findIndex id (processing q)); [|reflexivity].
  destruct (processing q !! n); [|reflexivity]. cbv zeta. cbn [snd].
  match goal with |- context [checkDone ?q0] =>
    destruct (checkDone_fields q0) as (-> & _) end.
  destruct (retry && _); simpl; lia.
Qed.

Lemma stopped_turn jobId sl s :
  isRunning (worker sl) = false ->
  let '(sl1, s1) := turn scrape now iso_now sl s in
  isRunning (worker sl1) = false
  /\ times_started jobId (queue s1) = times_started jobId (queue s)
  /\ length (pending (queue s)) <= length (pending (queue s1)).
Proof.
  intros Hr. unfold turn. destruct (phase sl) as [|job|job|].
  - rewrite Hr. simpl. auto.
  - destruct (processJob scrape iso_now job s) as [message|s1] eqn:Ep.
    + destruct (settle_times_started jobId (job_id job) message None (queue s))
        as [Ht _].
      pose proof (fail_pending_length (job_id job) message true (queue s))
        as Hl.
      destruct (fail now (job_id job) message true (queue s)) as [ok q1].
      simpl in *. auto.
    + rewrite (processJob_queue job s s1 Ep). simpl. auto.
  - destruct (settle_times_started jobId (job_id job) "" None (queue s))
      as [_ Ht].
    assert (Hp : pending (complete now (job_id job) None (queue s)).2
                 = pending (queue s)).
    { unfold complete. destruct (findIndex _ _); [|reflexivity].
      destruct (_ !! _); [|reflexivity]. cbv zeta. cbn [snd].
      match goal with |- context [checkDone ?q0] =>
        destruct (checkDone_fields q0) as (-> & _) end.
      reflexivity. }
    destruct (complete now (job_id job) None (queue s)) as [ok q1].
    simpl in *. rewrite Hp. split_and!; auto.
  - auto.
Qed.

(** X27. Stopping is cooperative: once the pool is stopped, no worker takes
    a new job, whatever turns follow. Jobs in flight are still settled, so
    [pending] can only gain the jobs sent back for a retry. *)
Theorem stopped_pool_starts_no_job (es : list PoolEvent) (ws : list Slot)
    (s : PoolState) (jobId : string) :
  let st1 := pool_run scrape now iso_now es (stop_all ws, s) in
  times_started jobId (queue st1.2) = times_started jobId (queue s)
  /\ length (pending (queue s)) <= length (pending (queue st1.2))
  /\ Forall (fun sl => isRunning (worker sl) = false) st1.1.
Proof.
  assert (Hgen : forall es st,
            Forall (fun sl => isRunning (worker sl) = false) st.1 ->
            let st1 := pool_run scrape now iso_now es st in
            times_started jobId (queue st1.2) = times_started jobId (queue st.2)
            /\ length (pending (queue st.2)) <= length (pending (queue st1.2))
            /\ Forall (fun sl => isRunning (worker sl) = false) st1.1).
  { clear es ws s. unfold pool_run.
    induction es as [|e es IH]; intros [ws s] Hst; simpl; [auto|].
    assert (Hstep :
      Forall (fun sl => isRunning (worker sl) = false)
             (pool_step scrape now iso_now e (ws, s)).1
      /\ times_started jobId (queue (pool_step scrape now iso_now e (ws, s)).2)
         = times_started jobId (queue s)
      /\ length (pending (queue s))
         <= length (pending (queue (pool_step scrape now iso_now e (ws, s)).2))).
    { destruct e as [i|]; simpl.
      - destruct (ws !! i) as [sl|] eqn:Hi; [|auto].
        assert (Hr : isRunning (worker sl) = false).
        { simpl in Hst. rewrite Forall_forall in Hst. apply Hst.
          eapply list_elem_of_lookup_2; eauto. }
        pose proof (stopped_turn jobId sl s Hr) as Ht.
        destruct (turn scrape now iso_now sl s) as [sl1 s1].
        destruct Ht as (H1 & H2 & H3). simpl. split_and!; auto.
        apply Forall_insert; assumption.
      - split_and!; auto. unfold stop_all. apply Forall_fmap, Forall_forall.
        intros sl _. reflexivity. }
    destruct Hstep as (H1 & H2 & H3).
    destruct (IH _ H1) as (H4 & H5 & H6). simpl in *.
    split_and!; auto; [congruence|lia]. }
  intros st1. apply (Hgen es (stop_all ws, s)). simpl.
  unfold stop_all. apply Forall_fmap, Forall_forall. intros sl _. reflexivity.
Qed.

End PoolFacts.

(* ===================================================================== *)
(** ** The further statements at concrete inputs *)
(* ===================================================================== *)

Section MoreInstances.

Import Config Queue Samples.

Lemma two_ids_distinct : NoDup ["1"; "2"].
Proof.
  apply NoDup_cons. split; [|apply NoDup_singleton].
  rewrite list_elem_of_singleton. discriminate.
Qed.

Lemma complete_moves_job_witness :
  complete 2 "9" None one_taken = (false, one_taken)
  /\ exists q1,
       complete 2 "1" None one_taken = (true, q1)
       /\ processing q1 = []
       /\ ids (completed q1) = ["1"].
Proof.
  destruct (complete_moves_job 2 "9" None one_taken) as [Hmiss _].
  destruct (complete_moves_job 2 "1" None one_taken) as [_ Hhit].
  split.
  - apply Hmiss. change ("9" ∉ ["1"]). rewrite list_elem_of_singleton.
    discriminate.
  - destruct (Hhit [] (start_job 1 (fresh_job 0 job1)) [] eq_refl eq_refl
                   (not_elem_of_nil _))
      as (q1 & H & Hp & Hc & _).
    exists q1. rewrite Hc. auto.
Defined.

Lemma settle_once_witness :
  let q1 := (complete 2 "1" None one_taken).2 in
  complete 3 "1" None q1 = (false, q1)
  /\ fail 3 "1" "Navigation timeout" true q1 = (false, q1).
Proof.
  intros q1.
  apply (settle_once 2 3 "1" "Navigation timeout" None None true one_taken q1).
  - apply NoDup_singleton.
  - reflexivity.
Defined.

Lemma stats_total_conserved_witness :
  st_total (getStats (apply_op (op_getNext 1) two_pending))
  = st_total (getStats two_pending).
Proof.
  apply (proj1 (stats_total_conserved (op_getNext 1) 0 job1 two_pending)).
  reflexivity.
Defined.

Lemma getNext_iff_hasAvailable_witness :
  is_Some (getNext 1 two_pending).1
  /\ getNext 1 Queue.empty = (None, Queue.empty).
Proof.
  split.
  - apply (proj1 (getNext_iff_hasAvailable 1 two_pending)). reflexivity.
  - apply (proj2 (getNext_iff_hasAvailable 1 Queue.empty)). reflexivity.
Defined.

Lemma queue_done_signal_witness :
  let q := (getNext 1 (add 0 job1 Queue.empty).2).2 in
  last (emitted (complete 2 "1" None q).2) = Some (queue_done 1 0).
Proof.
  intros q.
  exact (queue_done_signal 2 "1" "" None true q (complete 2 "1" None q).2
           (or_introl eq_refl)).
Defined.

Import Pages.

Lemma getNextPage_marks_processed_witness :
  let pq := mkPageQueue [mkPage 1 "https://www.jobthai.com/th/jobs"] 0 0 ∅ [] in
  getNextPage Pages.empty = (None, Pages.empty)
  /\ exists pq1,
       getNextPage pq = (Some (mkPage 1 "https://www.jobthai.com/th/jobs"), pq1)
       /\ currentPage pq1 = 1
       /\ addPage 1 "https://www.jobthai.com/th/jobs?page=1" pq1 = pq1.
Proof.
  intros pq. split.
  - apply (proj1 (getNextPage_marks_processed Pages.empty "")). reflexivity.
  - destruct (proj2 (getNextPage_marks_processed pq
                       "https://www.jobthai.com/th/jobs?page=1")
                    (mkPage 1 "https://www.jobthai.com/th/jobs") [] eq_refl)
      as (pq1 & H1 & _ & H2 & _ & _ & H3).
    exists pq1. auto.
Defined.

Lemma processed_page_never_requeued_witness :
  let pq := mkPageQueue [] 1 0 {[1]} [] in
  let ops := [p_addPage 1 "a"; p_addPage 2 "b"; p_getNextPage; p_addPage 1 "c"] in
  1 ∈ processedPages (run_pages ops pq)
  /\ queued 1 (run_pages ops pq) <= queued 1 pq.
Proof.
  intros pq ops. apply (processed_page_never_requeued ops pq 1).
  change (1 ∈ ({[1]} : gset nat)). now apply elem_of_singleton_2.
Defined.

Lemma page_added_twice_is_handed_out_twice_witness :
  let pq2 := addPage 2 "b" (addPage 2 "a" Pages.empty) in
  (getNextPage pq2).1 = Some (mkPage 2 "a")
  /\ (getNextPage (getNextPage pq2).2).1 = Some (mkPage 2 "b").
Proof.
  destruct (page_added_twice_is_handed_out_twice 2 "a" "b" Pages.empty
              eq_refl (not_elem_of_empty 2)) as (H1 & H2 & _).
  auto.
Defined.

Import Store.

Lemma restart_recovers_records_witness :
  let cs := [call_init "2025-12-02T05:00:00.000Z";
             call_addJob "2025-12-02T05:00:01.000Z" rec1;
             call_addJobs "2025-12-02T05:00:02.000Z" [rec1; rec2];
             call_backup "2025-12-02T05:00:03.000Z"
                         "2025-12-02T05:00:03.001Z"] in
  let st := (Store.new "./output/jobs.json", mkWorld ∅ [] ∅) in
  jobs (init "2025-12-03T05:00:00.000Z" (Store.new "./output/jobs.json")
             (run_calls cs st).2).1
  = jobs (run_calls cs st).1.
Proof.
  intros cs st.
  apply (restart_recovers_records cs st "2025-12-03T05:00:00.000Z").
  - simpl. discriminate.
  - reflexivity.
Defined.

Lemma addJobs_as_single_adds_witness :
  let '(n, fh1, w1) :=
    addJobs "2025-12-02T05:00:02.000Z" [rec1; rec2; rec1]
            fresh_store.1 fresh_store.2 in
  let '(k, fh2, w2) :=
    addJob_each "2025-12-02T05:00:02.000Z" [rec1; rec2; rec1]
                fresh_store.1 fresh_store.2 in
  n = k /\ fh1 = fh2 /\ files w1 = files w2.
Proof.
  pose proof (addJobs_as_single_adds "2025-12-02T05:00:02.000Z"
                [rec1; rec2; rec1] fresh_store.1 fresh_store.2 eq_refl) as H.
  destruct (addJobs _ _ _ _) as [[n fh1] w1].
  destruct (addJob_each _ _ _ _) as [[k fh2] w2].
  destruct H as (H1 & H2 & H3 & _). auto.
Defined.

Lemma catalog_file_stays_well_formed_witness :
  let st1 :=
    run_calls two_runs (Store.new "./output/jobs.json", mkWorld ∅ [] ∅) in
  NoDup (rec_ids (jobs st1.1))
  /\ match files st1.2 !! "./output/jobs.json" with
     | Some (Parsed doc) =>
         exists js, doc_jobs doc = Some js
                    /\ assoc "totalJobs" (metadata doc)
                       = Some (JNum (length js))
                    /\ NoDup (rec_ids js)
     | _ => False
     end.
Proof.
  intros st1.
  assert (Hfresh : forall doc0,
            files (mkWorld ∅ [] ∅) !! "./output/jobs.json" = Some (Parsed doc0) ->
            exists js, doc_jobs doc0 = Some js
                       /\ assoc "totalJobs" (metadata doc0)
                          = Some (JNum (length js))
                       /\ NoDup (rec_ids js)).
  { intros doc0 H. simpl in H. rewrite lookup_empty in H. discriminate. }
  destruct (files st1.2 !! "./output/jobs.json") as [[|doc]|] eqn:E.
  - vm_compute in E. discriminate.
  - split.
    + apply (catalog_file_stays_well_formed two_runs
               (Store.new "./output/jobs.json", mkWorld ∅ [] ∅) doc
               (NoDup_nil_2 (A:=string)) Hfresh).
    + apply (catalog_file_stays_well_formed two_runs
               (Store.new "./output/jobs.json", mkWorld ∅ [] ∅) doc
               (NoDup_nil_2 (A:=string)) Hfresh).
      exact E.
  - vm_compute in E. discriminate.
Defined.

Import Pool.

Lemma processed_count_is_completed_witness :
  match start_loop always_yields 0 "2025-12-02T05:00:00.000Z" 5
                   (mkWorker 1 defaultConfig true 0) fresh_pool with
  | Some (wk1, s1) =>
      processedCount wk1 + length (completed (queue fresh_pool))
      = 0 + length (completed (queue s1))
  | None => False
  end.
Proof.
  destruct (start_loop always_yields 0 "2025-12-02T05:00:00.000Z" 5
                       (mkWorker 1 defaultConfig true 0) fresh_pool)
    as [[wk1 s1]|] eqn:E.
  - exact (processed_count_is_completed always_yields 0
             "2025-12-02T05:00:00.000Z" 5
             (mkWorker 1 defaultConfig true 0) wk1 fresh_pool s1 E).
  - vm_compute in E. discriminate.
Defined.

Lemma completed_jobs_are_stored_witness :
  match start_loop always_yields 0 "2025-12-02T05:00:00.000Z" 5
                   (mkWorker 1 defaultConfig true 0) fresh_pool with
  | Some (wk1, s1) =>
      forall x, x ∈ ids (completed (queue s1)) ->
                x ∈ rec_ids (jobs (fileHandler s1))
  | None => False
  end.
Proof.
  destruct (start_loop always_yields 0 "2025-12-02T05:00:00.000Z" 5
                       (mkWorker 1 defaultConfig true 0) fresh_pool)
    as [[wk1 s1]|] eqn:E.
  - apply (completed_jobs_are_stored always_yields 0
             "2025-12-02T05:00:00.000Z" 5
             (mkWorker 1 defaultConfig true 0) wk1 fresh_pool s1).
    + reflexivity.
    + intros x Hx. vm_compute in Hx. inversion Hx.
    + exact E.
  - vm_compute in E. discriminate.
Defined.

Lemma worker_polls_forever_witness :
  start_loop always_yields 0 "2025-12-02T05:00:00.000Z" 100
             (mkWorker 1 defaultConfig true 0)
             (mkPool (pause two_pending) fresh_store.1 fresh_store.2)
  = None.
Proof.
  apply worker_polls_forever; reflexivity.
Defined.

Lemma worker_finishes_witness :
  exists wk1 s1,
    Pool.start always_throws 0 "2025-12-02T05:00:00.000Z" 7
               (Pool.new 1 defaultConfig) fresh_pool = Some (wk1, s1)
    /\ isDone (queue s1) = true.
Proof.
  destruct (worker_finishes always_throws 0 "2025-12-02T05:00:00.000Z" 1
              defaultConfig fresh_pool eq_refl eq_refl)
    as (wk1 & s1 & H & Hd & _).
  exists wk1, s1. auto.
Defined.

Import Crawl.

Lemma walk_only_enqueues_unknown_jobs_witness :
  NoDup (all_ids
           (jobQueue
              (run_state
                 (scrapeJobListings three_pages endless_site 0 2
                    "https://www.jobthai.com/th/jobs" two_pending
                    fresh_store.1)))).
Proof.
  apply (walk_only_enqueues_unknown_jobs three_pages endless_site 0 2
           "https://www.jobthai.com/th/jobs" two_pending fresh_store.1).
  exact two_ids_distinct.
Defined.

Lemma walk_stays_within_maxPages_witness :
  1 <= pageNum (run_state
                  (scrapeJobListings three_pages endless_site 0 10
                     "https://www.jobthai.com/th/jobs" Queue.empty
                     (Store.new "./output/jobs.json")))
    <= 3.
Proof.
  apply (walk_stays_within_maxPages three_pages endless_site 0 10
           "https://www.jobthai.com/th/jobs" Queue.empty
           (Store.new "./output/jobs.json")).
  simpl. lia.
Defined.

Import Links.

Lemma match_job_id_of_job_url_witness :
  match_job_id "https://www.jobthai.com/th/job/123456?from=list"
  = Some "123456".
Proof.
  apply (match_job_id_of_job_url "123456" "?from=list");
    [reflexivity | discriminate | reflexivity].
Defined.

Lemma extracted_jobs_are_distinct_witness :
  NoDup (d_id <$>
           extractJobsFromPage (fun _ => [])
             (Some [mkLink (attr_value "/th/job/1") (Some "IT Support");
                    mkLink attr_null None;
                    mkLink (attr_value "https://www.jobthai.com/th/job/1")
                           None;
                    mkLink (attr_value "/th/job/2") (Some "Accountant")])
             []).
Proof.
  apply (extracted_jobs_are_distinct (fun _ => [])).
Defined.

Lemma fallback_finds_same_ids_witness :
  "2" ∈ d_id <$>
          extractJobsFromPage (fun _ => []) None
            (Some <$> ["/th/job/1"; "/th/company/7"; "/th/job/2"]).
Proof.
  apply (fallback_finds_same_ids (fun _ => [])
           ["/th/job/1"; "/th/company/7"; "/th/job/2"] "2").
  vm_compute. apply list_elem_of_further, list_elem_of_here.
Defined.

Import Search.

Lemma search_url_stays_on_site_witness :
  Store.starts_with "https://www.jobthai.com/"
                    (buildSearchUrl keyword_search) = true.
Proof.
  apply search_url_stays_on_site. left. reflexivity.
Defined.

Lemma keyword_url_is_escaped_witness :
  buildSearchUrl keyword_search
  = "https://www.jobthai.com/th/jobs?keyword=C%2B%2B%20%26%20C%23".
Proof.
  apply (proj1 (keyword_url_is_escaped keyword_search "C++ & C#"
                  eq_refl eq_refl eq_refl eq_refl)).
Defined.

Import Workers.

Lemma in_step_fresh_pool :
  in_step (start_all (Workers.init defaultConfig), fresh_pool).
Proof.
  split.
  - exact two_ids_distinct.
  - reflexivity.
Qed.

Lemma no_job_held_twice_witness :
  let st1 := pool_run always_yields 0 "2025-12-02T05:00:00.000Z"
                      [ev_turn 0; ev_turn 1; ev_turn 2; ev_turn 1; ev_turn 0;
                       ev_stop; ev_turn 1; ev_turn 0]
                      (start_all (Workers.init defaultConfig), fresh_pool) in
  NoDup (held_ids st1.1)
  /\ held_ids st1.1 ≡ₚ ids (processing (queue st1.2))
  /\ NoDup (all_ids (queue st1.2)).
Proof.
  apply no_job_held_twice. apply in_step_fresh_pool.
Defined.

Lemma total_processed_is_completed_witness :
  let st := (start_all (Workers.init defaultConfig), fresh_pool) in
  let st1 := pool_run always_yields 0 "2025-12-02T05:00:00.000Z"
                      [ev_turn 0; ev_turn 1; ev_turn 0; ev_turn 0; ev_turn 1]
                      st in
  getTotalProcessed st1.1 + length (completed (queue st.2))
  = getTotalProcessed st.1 + length (completed (queue st1.2)).
Proof.
  apply total_processed_is_completed. apply in_step_fresh_pool.
Defined.

End MoreInstances.
